(** * gota: typed columns (series) and tables (dataframe)

    A shallow embedding of the Go packages [series] and [dataframe] of
    go-gota/gota, in the state the repository is in (a generic
    [GotaSeries[T]] next to a table layer that still speaks of the
    non-generic column [series.Series1]), and the properties of the
    design document checked against it.

    Conventions.
    - Go [int] is [Z]; the modelled code never does arithmetic on stored
      values, only on indices that stay far from the 64-bit bounds, so no
      wrap-around is written out.
    - Go [error] is the message [string] passed to [fmt.Errorf]; [nil] is
      [None].
    - A function that can abort the process (an explicit [panic], or an
      index out of range) returns in the [result] monad.
    - A pointer receiver that is mutated and returned ([s.Err = err;
      return s]) is modelled by returning the updated value.  The module
      [shared] models the element storage as a heap, for the one
      property that depends on aliasing. *)

From Stdlib Require Import ZArith Bool Ascii String List Lia.
From Stdlib Require Import Sorting.Sorted Sorting.Permutation.
From Stdlib Require Import Floats.SpecFloat.
From stdpp Require Import base option list sorting gmap strings pretty.

Local Open Scope string_scope.
Local Open Scope Z_scope.

(** ** Results of operations that may abort *)

Inductive result (A : Type) : Type :=
| Ret (a : A)
| Panic (msg : string).
Arguments Ret {A} a.
Arguments Panic {A} msg.

Definition rbind {A B} (m : result A) (k : A -> result B) : result B :=
  match m with
  | Ret a => k a
  | Panic msg => Panic msg
  end.

#[export] Instance result_ret : MRet result := fun A a => Ret a.
#[export] Instance result_bind : MBind result := fun A B k m => rbind m k.

Fixpoint rmapM {A B} (f : A -> result B) (l : list A) : result (list B) :=
  match l with
  | [] => Ret []
  | a :: l' => b ← f a; bs ← rmapM f l'; Ret (b :: bs)
  end.

Definition returns {A} (m : result A) : Prop := exists a, m = Ret a.

(** [l[i]] for a Go [int] index: out of range aborts. *)
Definition elem_at {A} (l : list A) (i : Z) : result A :=
  if (i <? 0) then Panic "index out of range"
  else match l !! Z.to_nat i with
       | Some a => Ret a
       | None => Panic "index out of range"
       end.

Definition error := string.

Definition len {A} (l : list A) : Z := Z.of_nat (length l).

(** ** Go's unicode/utf8, as far as the width of an encoding *)

(** A Go string is a sequence of bytes; [strconv.Quote] and [fmt] read
    it rune by rune. *)
Module utf8.

Definition byte (c : ascii) : Z := Z.of_N (N_of_ascii c).

Definition between (lo hi : Z) (c : ascii) : bool :=
  (lo <=? byte c) && (byte c <=? hi).

(** The tables [first] and [acceptRanges]: the number of bytes a first
    byte above 127 announces and the range of the second byte; [None]
    for a byte that starts no encoding. *)
Definition firstByte (c : ascii) : option (nat * Z * Z) :=
  let b := byte c in
  if between 194 223 c then Some (2%nat, 128, 191)
  else if b =? 224 then Some (3%nat, 160, 191)
  else if b =? 237 then Some (3%nat, 128, 159)
  else if between 225 239 c then Some (3%nat, 128, 191)
  else if b =? 240 then Some (4%nat, 144, 191)
  else if between 241 243 c then Some (4%nat, 128, 191)
  else if b =? 244 then Some (4%nat, 128, 143)
  else None.

(** [DecodeRuneInString], as far as its width, on a string that starts
    with a byte above 127: the number of bytes of the encoding at its
    head, or 0 where the library answers [RuneError] with width 1. *)
Definition encodingWidth (s : string) : nat :=
  match s with
  | String.String c0 (String.String c1 rest) =>
      match firstByte c0 with
      | None => 0
      | Some (sz, lo, hi) =>
          if negb (between lo hi c1) then 0
          else match sz, rest with
               | 2%nat, _ => 2
               | 3%nat, String.String c2 _ => if between 128 191 c2 then 3 else 0
               | 4%nat, String.String c2 (String.String c3 _) =>
                   if between 128 191 c2 && between 128 191 c3 then 4 else 0
               | _, _ => 0
               end
      end
  | _ => 0
  end.

(** The encoding of [RuneError], U+FFFD. *)
Definition RuneError : string :=
  String.String (ascii_of_nat 239)
    (String.String (ascii_of_nat 191) (String.String (ascii_of_nat 189) EmptyString)).

(** Every byte is below 128. *)
Fixpoint isASCII (s : string) : bool :=
  match s with
  | EmptyString => true
  | String.String c rest => (byte c <? 128) && isASCII rest
  end.
End utf8.

(** ** Go's strconv, as far as [findType] and the verb [%q] ask *)

(** [findType] only asks whether [strconv.Atoi] and
    [strconv.ParseFloat] succeed.  The general results below hold for
    any two such tests; this module gives the tests for the plain
    decimal syntax, used to run [findType] on concrete tokens:
    [Atoi] takes an optional sign and decimal digits with a value in the
    64-bit range; [ParseFloat] takes an optional sign, then [inf],
    [infinity] or (unsigned) [nan] in any case, or digits with an
    optional fraction and an optional decimal exponent.  Hexadecimal
    literals, digit separators and the range error of a too large
    exponent are left out. *)
Module strconv.

Definition is_digit (c : ascii) : bool :=
  let n := nat_of_ascii c in ((48 <=? n) && (n <=? 57))%nat.

Definition lower (c : ascii) : ascii :=
  let n := nat_of_ascii c in
  if ((65 <=? n) && (n <=? 90))%nat then ascii_of_nat (n + 32) else c.

Fixpoint lower_string (s : string) : string :=
  match s with
  | EmptyString => EmptyString
  | String.String c s' => String.String (lower c) (lower_string s')
  end.

Definition strip_sign (s : string) : bool * string :=
  match s with
  | String.String "+" s' => (false, s')
  | String.String "-" s' => (true, s')
  | _ => (false, s)
  end.

(** The value of a run of digits that makes up the whole string. *)
Fixpoint digits_value (acc : Z) (s : string) : option Z :=
  match s with
  | EmptyString => Some acc
  | String.String c s' =>
      if is_digit c then digits_value (10 * acc + (Z.of_nat (nat_of_ascii c) - 48)) s'
      else None
  end.

Definition Atoi (s : string) : option Z :=
  let '(neg, body) := strip_sign s in
  match body with
  | EmptyString => None
  | _ =>
      match digits_value 0 body with
      | Some n =>
          let v := if neg then - n else n in
          if (- 2 ^ 63 <=? v) && (v <=? 2 ^ 63 - 1) then Some v else None
      | None => None
      end
  end.

(** Skips a run of digits; returns how many and the rest. *)
Fixpoint skip_digits (s : string) : nat * string :=
  match s with
  | String.String c s' =>
      if is_digit c then let '(n, r) := skip_digits s' in (S n, r) else (O, s)
  | EmptyString => (O, s)
  end.

Definition exponent_ok (s : string) : bool :=
  match s with
  | EmptyString => true
  | String.String c s' =>
      if (Ascii.eqb c "e" || Ascii.eqb c "E")
      then let '(_, d) := strip_sign s' in
           let '(n, r) := skip_digits d in
           negb (Nat.eqb n 0) && String.eqb r ""
      else false
  end.

Definition decimal_ok (body : string) : bool :=
  let '(n1, r1) := skip_digits body in
  match r1 with
  | String.String "." r2 =>
      let '(n2, r3) := skip_digits r2 in
      negb (Nat.eqb (n1 + n2) 0) && exponent_ok r3
  | _ => negb (Nat.eqb n1 0) && exponent_ok r1
  end.

Definition ParseFloat_ok (s : string) : bool :=
  let '(neg, body) := strip_sign s in
  let l := lower_string body in
  if String.eqb l "inf" || String.eqb l "infinity" then true
  else if String.eqb (lower_string s) "nan" then true
  else decimal_ok body.

Definition Atoi_ok (s : string) : bool :=
  match Atoi s with Some _ => true | None => false end.

(** [strconv.Quote], which the verb [%q] of [fmt] applies to a string:
    the text between double quotes, with a backslash before a double
    quote and a backslash, the escapes [\a \b \f \n \r \t \v], and
    [\x] with two hexadecimal digits for the other bytes below 32, for
    127 and for a byte above 127 that starts no UTF-8 encoding.  The
    bytes of a well-formed encoding above 127 are copied, as the library
    does for a printable rune; the [\u] escapes it writes for the runes
    its Unicode tables list as not printable are not modelled, so the
    result is the library's on every string of bytes below 128. *)
Definition quoteMark : string := String.String (ascii_of_nat 34) EmptyString.
Definition backslash : string := String.String (ascii_of_nat 92) EmptyString.

Definition lowerhex (n : Z) : string :=
  String.substring (Z.to_nat n) 1 "0123456789abcdef".

Definition hex2 (c : ascii) : string :=
  lowerhex (utf8.byte c / 16) ++ lowerhex (utf8.byte c mod 16).

Definition escapeByte (c : ascii) : string :=
  let b := utf8.byte c in
  if (b =? 34) || (b =? 92) then backslash ++ String.String c EmptyString
  else if (32 <=? b) && (b <=? 126) then String.String c EmptyString
  else if b =? 7 then backslash ++ "a"
  else if b =? 8 then backslash ++ "b"
  else if b =? 12 then backslash ++ "f"
  else if b =? 10 then backslash ++ "n"
  else if b =? 13 then backslash ++ "r"
  else if b =? 9 then backslash ++ "t"
  else if b =? 11 then backslash ++ "v"
  else backslash ++ "x" ++ hex2 c.

(** [pending] counts the bytes of the current encoding still to be
    copied. *)
Fixpoint quoteLoop (pending : nat) (s : string) : string :=
  match s with
  | EmptyString => EmptyString
  | String.String c rest =>
      match pending with
      | S k => String.String c (quoteLoop k rest)
      | O =>
          if utf8.byte c <? 128 then escapeByte c ++ quoteLoop 0 rest
          else match utf8.encodingWidth s with
               | O => backslash ++ "x" ++ hex2 c ++ quoteLoop 0 rest
               | S k => String.String c (quoteLoop k rest)
               end
      end
  end.

Definition Quote (s : string) : string := quoteMark ++ quoteLoop 0 s ++ quoteMark.
End strconv.

(** ** Go's fmt, called with a format and no operand *)

(** [fmt.Errorf(format)] and [fmt.Sprintf(format)] without operands
    run [doPrintf] over the format: text is copied, [%%] gives [%],
    and every other verb finds its operand missing.  Flags, an argument
    index, a width and a precision are read as the library reads them;
    no argument index is good, and [*] finds no operand either. *)
Module fmt.

Definition isFlag (c : ascii) : bool :=
  let b := utf8.byte c in
  (b =? 35) || (b =? 48) || (b =? 43) || (b =? 45) || (b =? 32).

Fixpoint skipFlags (s : string) : string :=
  match s with
  | String.String c rest => if isFlag c then skipFlags rest else s
  | EmptyString => s
  end.

Definition isDigit (c : ascii) : bool := utf8.between 48 57 c.

(** The three answers of [parsenum]: no digit, a number and what
    follows it, or a number beyond [1e6], after which the library
    skips to the end of the text. *)
Inductive number : Type :=
| NoNumber (rest : string)
| Number (num : Z) (rest : string)
| TooLarge.

Fixpoint parsenum_from (num : Z) (isnum : bool) (s : string) : number :=
  match s with
  | String.String c rest =>
      if isDigit c then
        if 1000000 <? num then TooLarge
        else parsenum_from (num * 10 + (utf8.byte c - 48)) true rest
      else if isnum then Number num s else NoNumber s
  | EmptyString => if isnum then Number num s else NoNumber s
  end.

Definition parsenum (s : string) : number := parsenum_from 0 false s.

(** The text up to the first closing bracket and the text behind it. *)
Fixpoint splitBracket (s : string) : option (string * string) :=
  match s with
  | EmptyString => None
  | String.String c rest =>
      if utf8.byte c =? 93 then Some (EmptyString, rest)
      else match splitBracket rest with
           | Some (inside, behind) => Some (String.String c inside, behind)
           | None => None
           end
  end.

(** [parseArgNumber] on a text that starts with an opening bracket:
    what is left of the format and whether a number was between the
    brackets. *)
Definition parseArgNumber (s : string) : string * bool :=
  match s with
  | String.String _ rest =>
      if (String.length s <? 3)%nat then (rest, false)
      else match splitBracket rest with
           | None => (rest, false)
           | Some (inside, behind) =>
               match parsenum inside with
               | Number _ EmptyString => (behind, true)
               | _ => (behind, false)
               end
           end
  | EmptyString => (s, false)
  end.

(** [argNumber] when there is no operand: what is left, [found], and
    whether an index was read (which clears [goodArgNum], as no index
    is below the number of operands). *)
Definition argNumber (s : string) : string * bool * bool :=
  match s with
  | String.String c _ =>
      if utf8.byte c =? 91
      then let '(rest, ok) := parseArgNumber s in (rest, ok, true)
      else (s, false, false)
  | EmptyString => (s, false, false)
  end.

Definition startsWith (b : Z) (s : string) : option string :=
  match s with
  | String.String c rest => if utf8.byte c =? b then Some rest else None
  | EmptyString => None
  end.

Definition afterNumber (s : string) : string * bool :=
  match parsenum s with
  | NoNumber rest => (rest, false)
  | Number _ rest => (rest, true)
  | TooLarge => (EmptyString, false)
  end.

(** One verb, from behind its [%]: what is written and what is left
    of the format; [None] for the [break] behind "%!(NOVERB)". *)
Definition verb (s : string) : string * option string :=
  let s := skipFlags s in
  let '(s, afterIndex, seen) := argNumber s in
  let good := negb seen in
  let '(out, s, afterIndex, good) :=
    match startsWith 42 s with
    | Some rest => ("%!(BADWIDTH)", rest, false, good)
    | None =>
        let '(rest, widPresent) := afterNumber s in
        ("", rest, afterIndex, good && negb (afterIndex && widPresent))
    end in
  let '(out, s, afterIndex, good) :=
    match startsWith 46 s with
    | Some rest =>
        let good := good && negb afterIndex in
        let '(rest, afterIndex, seen) := argNumber rest in
        let good := good && negb seen in
        match startsWith 42 rest with
        | Some rest => (out ++ "%!(BADPREC)", rest, false, good)
        | None => (out, fst (afterNumber rest), afterIndex, good)
        end
    | None => (out, s, afterIndex, good)
    end in
  let '(s, good) :=
    if afterIndex then (s, good)
    else let '(rest, _, seen) := argNumber s in (rest, good && negb seen) in
  match s with
  | EmptyString => (out ++ "%!(NOVERB)", None)
  | String.String c rest =>
      let '(rune, rest) :=
        if utf8.byte c <? 128 then (String.String c EmptyString, rest)
        else match utf8.encodingWidth s with
             | O => (utf8.RuneError, rest)
             | S k => (String.String c (String.substring 0 k rest),
                       String.substring k (String.length rest - k) rest)
             end in
      if utf8.byte c =? 37 then (out ++ "%", Some rest)
      else if good then (out ++ "%!" ++ rune ++ "(MISSING)", Some rest)
      else (out ++ "%!" ++ rune ++ "(BADINDEX)", Some rest)
  end.

(** The loop of [doPrintf]; every round takes at least one byte, so
    the length of the format is fuel enough. *)
Fixpoint doPrintf (fuel : nat) (format : string) : string :=
  match fuel, format with
  | S fuel', String.String c rest =>
      if utf8.byte c =? 37
      then let '(out, remaining) := verb rest in
           match remaining with
           | Some rest' => out ++ doPrintf fuel' rest'
           | None => out
           end
      else String.String c (doPrintf fuel' rest)
  | _, _ => EmptyString
  end.

Definition Sprintf (format : string) : string :=
  doPrintf (String.length format) format.

(** The message of the error [fmt.Errorf(format)] builds. *)
Definition Errorf (format : string) : string := Sprintf format.
End fmt.

(** ** Package series *)

Module series.

(** [SeriesType] is [constraints.Ordered]: the payload types with Go's
    [==] and [<], and their zero value. *)
Class SeriesType (T : Type) := {
  zero : T;
  eqb : T -> T -> bool;
  ltb : T -> T -> bool
}.

(** [a > b] is [b < a]; [a <= b] is [a < b || a == b] (also for floats,
    where a NaN payload makes every comparison false). *)
Definition gtb `{SeriesType T} (a b : T) : bool := ltb b a.
Definition leb `{SeriesType T} (a b : T) : bool := ltb a b || eqb a b.
Definition geb `{SeriesType T} (a b : T) : bool := ltb b a || eqb a b.

#[export] Instance int_SeriesType : SeriesType Z :=
  {| zero := 0; eqb := Z.eqb; ltb := Z.ltb |}.
#[export] Instance string_SeriesType : SeriesType string :=
  {| zero := ""; eqb := String.eqb; ltb := String.ltb |}.
(** float64 as IEEE 754 binary64 data with the IEEE comparisons. *)
Definition float64 := spec_float.
#[export] Instance float64_SeriesType : SeriesType float64 :=
  {| zero := S754_zero false; eqb := SFeqb; ltb := SFltb |}.

(** *** gota_element.go *)

(** The interface [Element[T]] (and [BoolElement], the same methods at
    [bool]), with the constructor [NewElement]. *)
Class Element (T E : Type) := {
  Set_ : E -> T -> E;
  Eq : E -> E -> bool;
  Neq : E -> E -> bool;
  Less : E -> E -> bool;
  LessEq : E -> E -> bool;
  Greater : E -> E -> bool;
  GreaterEq : E -> E -> bool;
  Copy : E -> E;
  Val : E -> T;
  IsNA : E -> bool;
  NewElement : T -> E
}.

Record ElementValue (T : Type) := mkElementValue {
  value : T;
  nan : bool
}.
Arguments mkElementValue {T} value nan.
Arguments value {T} e.
Arguments nan {T} e.

Section ElementValue.
Context {T : Type} `{SeriesType T}.

Definition ElementValue_Set (ev : ElementValue T) (item : T) : ElementValue T :=
  mkElementValue item (nan ev).

Definition ElementValue_Val (ev : ElementValue T) : T := value ev.
Definition ElementValue_IsNA (ev : ElementValue T) : bool := nan ev.

Definition ElementValue_Eq (ev other : ElementValue T) : bool :=
  Bool.eqb (nan ev) (ElementValue_IsNA other) && eqb (value ev) (ElementValue_Val other).
Definition ElementValue_Neq (ev other : ElementValue T) : bool :=
  negb (Bool.eqb (nan ev) (ElementValue_IsNA other))
  || negb (eqb (value ev) (ElementValue_Val other)).
Definition ElementValue_Less (ev other : ElementValue T) : bool :=
  ltb (value ev) (ElementValue_Val other).
Definition ElementValue_LessEq (ev other : ElementValue T) : bool :=
  leb (ElementValue_Val ev) (ElementValue_Val other).
Definition ElementValue_Greater (ev other : ElementValue T) : bool :=
  gtb (ElementValue_Val ev) (ElementValue_Val other).
Definition ElementValue_GreaterEq (ev other : ElementValue T) : bool :=
  geb (ElementValue_Val ev) (ElementValue_Val other).
Definition ElementValue_Copy (ev : ElementValue T) : ElementValue T :=
  mkElementValue (value ev) (nan ev).
Definition ElementValue_New (t : T) : ElementValue T :=
  mkElementValue t false.

#[export] Instance ElementValue_Element : Element T (ElementValue T) := {|
  Set_ := ElementValue_Set;
  Eq := ElementValue_Eq;
  Neq := ElementValue_Neq;
  Less := ElementValue_Less;
  LessEq := ElementValue_LessEq;
  Greater := ElementValue_Greater;
  GreaterEq := ElementValue_GreaterEq;
  Copy := ElementValue_Copy;
  Val := ElementValue_Val;
  IsNA := ElementValue_IsNA;
  NewElement := ElementValue_New
|}.
End ElementValue.

Record BoolElementValue := mkBoolElementValue {
  bvalue : bool;
  bnan : bool
}.

Definition BoolElementValue_Set (b : BoolElementValue) (other : bool) : BoolElementValue :=
  mkBoolElementValue other false.
Definition BoolElementValue_Val (b : BoolElementValue) : bool := bvalue b.
Definition BoolElementValue_IsNA (b : BoolElementValue) : bool := bnan b.
Definition BoolElementValue_Eq (b be : BoolElementValue) : bool :=
  Bool.eqb (bvalue b) (BoolElementValue_Val be).
Definition BoolElementValue_Neq (b be : BoolElementValue) : bool :=
  negb (Bool.eqb (bvalue b) (BoolElementValue_Val be)).
Definition BoolElementValue_Less (b be : BoolElementValue) : bool :=
  negb (bvalue b) && BoolElementValue_Val be.
Definition BoolElementValue_LessEq (b be : BoolElementValue) : bool :=
  BoolElementValue_Less b be || BoolElementValue_Eq b be.
Definition BoolElementValue_Greater (b be : BoolElementValue) : bool :=
  bvalue b && negb (BoolElementValue_Val be).
Definition BoolElementValue_GreaterEq (b be : BoolElementValue) : bool :=
  BoolElementValue_Greater b be || BoolElementValue_Eq b be.
Definition BoolElementValue_Copy (b : BoolElementValue) : BoolElementValue :=
  mkBoolElementValue (bvalue b) (bnan b).
Definition NewBoolElement (b : bool) : BoolElementValue :=
  mkBoolElementValue b false.

#[export] Instance BoolElementValue_Element : Element bool BoolElementValue := {|
  Set_ := BoolElementValue_Set;
  Eq := BoolElementValue_Eq;
  Neq := BoolElementValue_Neq;
  Less := BoolElementValue_Less;
  LessEq := BoolElementValue_LessEq;
  Greater := BoolElementValue_Greater;
  GreaterEq := BoolElementValue_GreaterEq;
  Copy := BoolElementValue_Copy;
  Val := BoolElementValue_Val;
  IsNA := BoolElementValue_IsNA;
  NewElement := NewBoolElement
|}.

(** *** elements and comparators *)

(** [NewElements]: one present element per value.  An [ElementsArray]
    keeps [len] next to its slice and every writer updates both, so the
    model keeps the list and reads [Len] off it. *)
Definition NewElements {T E} `{Element T E} (values : list T) : list E :=
  map NewElement values.

(** [series.Type], the declared type of a column. *)
Inductive Type_ : Type := String | Int | Float | Bool.

Inductive Comparator : Type :=
| CompEq | CompNeq | CompGreater | CompGreaterEq | CompLess | CompLessEq
| CompIn | CompFunc
| CompUnknown (c : string).

(** [Comparator] is a string type; the text of each constant. *)
Definition Comparator_string (c : Comparator) : string :=
  match c with
  | CompEq => "==" | CompNeq => "!=" | CompGreater => ">" | CompGreaterEq => ">="
  | CompLess => "<" | CompLessEq => "<=" | CompIn => "in" | CompFunc => "func"
  | CompUnknown c => c
  end.

(** *** The column [GotaSeries] *)

Record GotaSeries (E : Type) := mkGotaSeries {
  Name : string;
  elements : list E;
  Err : option error
}.
Arguments mkGotaSeries {E} Name elements Err.
Arguments Name {E} g.
Arguments elements {E} g.
Arguments Err {E} g.

Definition with_Err {E} (s : GotaSeries E) (e : error) : GotaSeries E :=
  mkGotaSeries (Name s) (elements s) (Some e).

(** [Indexes] is [interface{}]: the dynamic types [parseIndexes]
    switches on, and anything else. *)
Inductive Indexes : Type :=
| IdxInts (idxs : list Z)
| IdxInt (i : Z)
| IdxBools (bools : list bool)
| IdxIntSeries (s : GotaSeries (ElementValue Z))
| IdxBoolSeries (s : GotaSeries BoolElementValue)
| IdxOther.

(** The positions of the [true] entries of a mask. *)
Fixpoint mask_positions (i : Z) (bools : list bool) : list Z :=
  match bools with
  | [] => []
  | b :: bools' =>
      if b then i :: mask_positions (i + 1) bools'
      else mask_positions (i + 1) bools'
  end.

(** [parseIndexes]; no bounds check.  In the [Series[int]] case the
    type tag of an integer column is [Int], so [s.Int()] is returned; the
    [Series[bool]] case has an empty body and leaves [idx] nil. *)
Definition parseIndexes (l : Z) (indexes : Indexes) : list Z + error :=
  match indexes with
  | IdxInts idxs => inl idxs
  | IdxInt i => inl [i]
  | IdxBools bools =>
      if negb (len bools =? l)
      then inr "indexing error: index dimensions mismatch"
      else inl (mask_positions 0 bools)
  | IdxIntSeries s =>
      match Err s with
      | Some err => inr ("indexing error: new values has errors: " ++ err)%string
      | None =>
          if existsb IsNA (elements s)
          then inr "indexing error: indexes contain NaN"
          else inl (map Val (elements s))
      end
  | IdxBoolSeries _ => inl []
  | IdxOther => inr "indexing error: unknown indexing mode"
  end.

Section GotaSeries.
Context {T E : Type} `{Element T E}.

Definition NewSeries (name : string) (values : list T) : GotaSeries E :=
  mkGotaSeries name (NewElements values) None.

Definition Empty (s : GotaSeries E) : GotaSeries E := NewSeries (Name s) [].

Definition Error (s : GotaSeries E) : option error := Err s.

Definition Len (s : GotaSeries E) : Z := len (elements s).

Definition Append (s : GotaSeries E) (values : list T) : GotaSeries E :=
  match Err s with
  | Some _ => s
  | None => mkGotaSeries (Name s) (elements s ++ NewElements values) (Err s)
  end.

(** [Copy]: fresh storage holding the same elements. *)
Definition Copy_series (s : GotaSeries E) : GotaSeries E :=
  mkGotaSeries (Name s) (map Copy (elements s)) (Err s).

Definition Concat (s x : GotaSeries E) : GotaSeries E :=
  match Err s with
  | Some _ => s
  | None =>
      match Error x with
      | Some err => with_Err s ("concat error: argument has errors: " ++ err)
      | None =>
          let y := Copy_series s in
          mkGotaSeries (Name y) (elements y ++ elements x) (Err y)
      end
  end.

Definition Subset (s : GotaSeries E) (indexes : Indexes) : result (GotaSeries E) :=
  match Err s with
  | Some _ => Ret s
  | None =>
      match parseIndexes (Len s) indexes with
      | inr err => Ret (with_Err s err)
      | inl idx =>
          new_t ← rmapM (fun index => e ← elem_at (elements s) index; Ret (Val e)) idx;
          Ret (mkGotaSeries (Name s) (NewElements new_t) None)
      end
  end.

(** Modelled from the spec: [series.Series1], the type of the columns
    of a table, is not among the sources.  A column is a name, a
    sequence of elements and an optional error (section 3), the record
    [GotaSeries] has; the selector is resolved by [parseIndexes].  By
    section 4.2 [Subset(sel)] is a new column containing the elements
    at the resolved positions, so each with its missing flag, and it
    fails on an invalid selector, which by section 7 includes a
    position out of range; a column that carries an error is returned
    with that error (section 3).  The text of the out-of-range error
    is a parameter. *)
Definition Series1_Subset (outOfRange : error) (s : GotaSeries E) (indexes : Indexes)
  : result (GotaSeries E) :=
  match Err s with
  | Some _ => Ret s
  | None =>
      match parseIndexes (Len s) indexes with
      | inr err => Ret (with_Err s err)
      | inl idx =>
          match mapM (fun i => if i <? 0 then None else elements s !! Z.to_nat i) idx with
          | Some els => Ret (mkGotaSeries (Name s) els None)
          | None => Ret (with_Err s outOfRange)
          end
      end
  end.

(** The loop of [Set] over [k, i := range idx], reading
    [newvalues.Val(k)]: the caller has checked [len(idx) =
    newvalues.Len()], so the positions are paired with the new
    elements.  Elements already written stay written when a later
    position is out of range. *)
Fixpoint Set_loop (els : list E) (l : Z) (pairs : list (Z * E)) : list E * option error :=
  match pairs with
  | [] => (els, None)
  | (i, nv) :: pairs' =>
      if (i <? 0) || (i >=? l) then (els, Some "set error: index out of range")
      else Set_loop (alter (fun e => Set_ e (Val nv)) (Z.to_nat i) els) l pairs'
  end.

Definition Set_series (s : GotaSeries E) (indexes : Indexes) (newvalues : GotaSeries E)
  : GotaSeries E :=
  match Err s with
  | Some _ => s
  | None =>
      match Error newvalues with
      | Some err => with_Err s ("set error: argument has errors: " ++ err)
      | None =>
          match parseIndexes (Len s) indexes with
          | inr err => with_Err s err
          | inl idx =>
              if negb (len idx =? Len newvalues)
              then with_Err s "set error: dimensions mismatch"
              else
                let '(els, err) := Set_loop (elements s) (Len s) (zip idx (elements newvalues)) in
                mkGotaSeries (Name s) els err
          end
      end
  end.

Definition HasNaN (s : GotaSeries E) : bool := existsb IsNA (elements s).

Definition IsNaN (s : GotaSeries E) : list bool := map IsNA (elements s).

(** [Val], [Elem]: abort when the index is out of bounds. *)
Definition Elem (s : GotaSeries E) (i : Z) : result E := elem_at (elements s) i.
Definition Val_at (s : GotaSeries E) (i : Z) : result T := e ← Elem s i; Ret (Val e).

(** [Slice]: the guard, then [Subset] on [j, j+1, ..., k-1]. *)
Definition Slice (s : GotaSeries E) (j k : Z) : result (GotaSeries E) :=
  match Err s with
  | Some _ => Ret s
  | None =>
      if (j >? k) || (j <? 0) || (k >=? Len s)
      then Ret (with_Err (Empty s) "slice index out of bounds")
      else Subset s (IdxInts (seqZ j (k - j)))
  end.

End GotaSeries.

(** *** Compare *)

(** The operand of [Compare] is [interface{}]: the dynamic types the
    type switch names, and anything else. *)
Inductive Comparando (E : Type) : Type :=
| CInt (i : Z)
| CFloat64 (f : float64)
| CBool (b : bool)
| CString (str : string)
| CSeries (x : GotaSeries E)
| COther.
Arguments CInt {E} i.
Arguments CFloat64 {E} f.
Arguments CBool {E} b.
Arguments CString {E} str.
Arguments CSeries {E} x.
Arguments COther {E}.

(** What [Compare] hands back as a [BoolSeries]: the receiver itself
    (the guard on an errored receiver), a Boolean column, or [nil] (the
    two helpers that are still stubs). *)
Inductive BoolSeries (E : Type) : Type :=
| Receiver (s : GotaSeries E)
| BoolColumn (b : GotaSeries BoolElementValue)
| NilSeries.
Arguments Receiver {E} s.
Arguments BoolColumn {E} b.
Arguments NilSeries {E}.

Definition float64_one : float64 := S754_finite false 4503599627370496 (-52).
Definition float64_zero : float64 := S754_zero false.

Section Compare.
Context {T E : Type} `{Element T E}.

(** [compareToNumber] compares every element with [NewElement(b)] for
    the [float64] operand [b]; its closure is typed at
    [Element[float64]], and for another [T] the conversion of the
    operand is not written: it is a parameter. *)
Variable fromFloat64 : float64 -> T.

Definition compareElements (a : E) (b : float64) (c : Comparator) : bool + error :=
  let comparison := NewElement (fromFloat64 b) in
  match c with
  | CompEq => inl (Eq a comparison)
  | CompNeq => inl (Neq a comparison)
  | CompGreater => inl (Greater a comparison)
  | CompGreaterEq => inl (GreaterEq a comparison)
  | CompLess => inl (Less a comparison)
  | CompLessEq => inl (LessEq a comparison)
  | _ => inr ("unknown comparator: " ++ Comparator_string c)%string
  end.

(** The loop that fills [bools]; an error of [compareElements] is
    turned into a panic. *)
Definition compareToNumber_bools (s : GotaSeries E) (comparator : Comparator)
    (comparando : float64) : result (list bool) :=
  rmapM (fun e =>
           match compareElements e comparando comparator with
           | inl comp => Ret comp
           | inr _ =>
               Panic "comparando is not a comparison function of type func(el Element) bool"
           end) (elements s).

(** Modelled from the spec: the body of [compareToNumber] ends after
    the loop, without a [return]; "Compare yields the Boolean column
    of per-element comparison results", so the column of [bools] is
    returned. *)
Definition compareToNumber (s : GotaSeries E) (comparator : Comparator)
    (comparando : float64) : result (BoolSeries E) :=
  bools ← compareToNumber_bools s comparator comparando;
  Ret (BoolColumn (mkGotaSeries (Name s) (NewElements bools) None)).

Definition compareToString (s : GotaSeries E) (comparator : Comparator)
    (comparando : string) : result (BoolSeries E) := Ret NilSeries.

Definition compareToSeries (s : GotaSeries E) (comparator : Comparator)
    (comparando : GotaSeries E) : result (BoolSeries E) := Ret NilSeries.

(** In the case [int, float64] the operand keeps its interface type
    and is asserted to [float64]: on an [int] the assertion aborts. *)
Definition Compare (s : GotaSeries E) (comparator : Comparator)
    (comparando : Comparando E) : result (BoolSeries E) :=
  match Err s with
  | Some _ => Ret (Receiver s)
  | None =>
      match comparando with
      | CInt _ => Panic "interface conversion: interface {} is int, not float64"
      | CFloat64 f => compareToNumber s comparator f
      | CBool b =>
          if b then compareToNumber s comparator float64_one
          else compareToNumber s comparator float64_zero
      | CString str => compareToString s comparator str
      | CSeries x => compareToSeries s comparator x
      | COther => Panic "invalid type found for compare"
      end
  end.
End Compare.

(** *** Order *)

(** Go's [sort.Stable] on a [sort.Interface]: the library sorts blocks
    of at most 20 entries by insertion sort and merges them stably.  Up
    to 20 entries that is insertion sort alone, whatever [Less] is; with
    a [Less] that is a strict weak ordering of the entries the merged
    result is the list insertion sort alone produces, which is what is
    modelled.
    [insertionSort] takes the entries left to right and swaps each one
    leftwards while it is [Less] than its predecessor; [sift] does that
    on the already sorted prefix kept in reverse. *)
Section StableSort.
Context {A : Type} (less : A -> A -> bool).

Fixpoint sift (x : A) (rprefix : list A) : list A :=
  match rprefix with
  | [] => [x]
  | y :: rprefix' => if less x y then y :: sift x rprefix' else x :: rprefix
  end.

Definition sort_Stable (data : list A) : list A :=
  rev (fold_left (fun rprefix x => sift x rprefix) data []).
End StableSort.

(** [sort.Reverse]: [Less(i, j)] of the wrapped data is [Less(j, i)]. *)
Definition sort_Reverse {A} (less : A -> A -> bool) : A -> A -> bool :=
  fun a b => less b a.

Record indexedElement (E : Type) := mkIndexedElement {
  index : Z;
  element : E
}.
Arguments mkIndexedElement {E} index element.
Arguments index {E} i.
Arguments element {E} i.

(** Modelled from the spec: the declaration of [indexedElements] and
    its [sort.Interface] methods are not among the sources; [Order]
    sorts "by value", so [Less(i, j)] compares the two entries' elements
    with the element's own [Less]. *)
Definition indexedElements_Less {T E} `{Element T E} (a b : indexedElement E) : bool :=
  Less (element a) (element b).

Section Order.
Context {T E : Type} `{Element T E}.

(** The first loop of [Order]: present elements with their position
    into [ie], positions of missing elements into [nasIdx]. *)
Fixpoint Order_split (i : Z) (els : list E) : list (indexedElement E) * list Z :=
  match els with
  | [] => ([], [])
  | e :: els' =>
      let '(ie, nasIdx) := Order_split (i + 1) els' in
      if IsNA e then (ie, i :: nasIdx) else (mkIndexedElement i e :: ie, nasIdx)
  end.

Definition Order (s : GotaSeries E) (reverse : bool) : list Z :=
  let '(ie, nasIdx) := Order_split 0 (elements s) in
  let srt := if reverse then sort_Reverse indexedElements_Less else indexedElements_Less in
  let ie := sort_Stable srt ie in
  map index ie ++ nasIdx.
End Order.

End series.

(** ** Package dataframe *)

Module dataframe.
Import series.

(** [findInStringSlice]: first position of [str], or -1. *)
Fixpoint findInStringSlice_from (i : Z) (str : string) (s : list string) : Z :=
  match s with
  | [] => -1
  | e :: s' => if String.eqb e str then i else findInStringSlice_from (i + 1) str s'
  end.
Definition findInStringSlice (str : string) (s : list string) : Z :=
  findInStringSlice_from 0 str s.

Definition inIntSlice (i : Z) (is_ : list Z) : bool :=
  existsb (fun v => v =? i) is_.

(** The verb [%q] of [fmt.Sprintf] and [fmt.Errorf] on a string
    operand. *)
Definition dquote : string := String.String (ascii_of_nat 34) EmptyString.
Definition quoted (s : string) : string := strconv.Quote s.
Definition newline : string := String.String (ascii_of_nat 10) EmptyString.

(** [strings.Join] *)
Fixpoint strings_Join (l : list string) (sep : string) : string :=
  match l with
  | [] => ""
  | [a] => a
  | a :: l' => (a ++ sep ++ strings_Join l' sep)%string
  end.

(** A left fold whose step may abort: the shape of the row loops. *)
Fixpoint rfoldl {A S} (f : S -> A -> result S) (s : S) (l : list A) : result S :=
  match l with
  | [] => Ret s
  | a :: l' => s' ← f s a; rfoldl f s' l'
  end.

(** [findType], over the two tests of [strconv]. *)
Section findType.
Variables Atoi_ok ParseFloat_ok : string -> bool.

Record typeFlags := mkTypeFlags {
  hasFloats : bool; hasInts : bool; hasBools : bool; hasStrings : bool
}.

Fixpoint findType_loop (arr : list string) (fl : typeFlags) : typeFlags :=
  match arr with
  | [] => fl
  | str :: arr' =>
      if String.eqb str "" || String.eqb str "NaN" then findType_loop arr' fl
      else if Atoi_ok str then
        findType_loop arr' (mkTypeFlags (hasFloats fl) true (hasBools fl) (hasStrings fl))
      else if ParseFloat_ok str then
        findType_loop arr' (mkTypeFlags true (hasInts fl) (hasBools fl) (hasStrings fl))
      else if String.eqb str "true" || String.eqb str "false" then
        findType_loop arr' (mkTypeFlags (hasFloats fl) (hasInts fl) true (hasStrings fl))
      else
        findType_loop arr' (mkTypeFlags (hasFloats fl) (hasInts fl) (hasBools fl) true)
  end.

Definition findType (arr : list string) : Type_ * option error :=
  let fl := findType_loop arr (mkTypeFlags false false false false) in
  if hasStrings fl then (String, None)
  else if hasBools fl then (Bool, None)
  else if hasFloats fl then (Float, None)
  else if hasInts fl then (Int, None)
  else (String, Some "couldn't detect type").
End findType.

(** The table.  The fields are unexported and every constructor of the
    package writes [ncols] as [len(columns)]; where the code allocates
    [ncols] slots and fills them ranging over [columns], the model ranges
    over [columns].  Loops bounded by [df.nrows] or [df.ncols] use the
    fields.  The field [Err] is written [DfErr], to keep it apart from
    the column's [Err]. *)
Record GotaDataFrame (E : Type) := mkGotaDataFrame {
  columns : list (GotaSeries E);
  ncols : Z;
  nrows : Z;
  DfErr : option error
}.
Arguments mkGotaDataFrame {E} columns ncols nrows DfErr.
Arguments columns {E} g.
Arguments ncols {E} g.
Arguments nrows {E} g.
Arguments DfErr {E} g.

(** [GotaDataFrame{Err: err}] *)
Definition errDataFrame {E} (err : error) : GotaDataFrame E :=
  mkGotaDataFrame [] 0 0 (Some err).

Section DataFrame.
(** The column type [series.Series1] is not declared in the sources;
    the table layer is modelled over [GotaSeries E] for any
    implementation [E] of the element interface. *)
Context {T E : Type} `{Element T E}.

(** [fixColnames] (not among the sources) rewrites the slice of names
    in place to make them unique; the model takes it as a function on
    the list of names. *)
Variable fixColnames : list string -> list string.

(** [Series1.Append(nil)] appends one missing element of the column's
    type; the conversion ([series.New]) is not among the sources, so
    the element it builds is a parameter. *)
Variable missingElement : E.

(** Modelled from the spec: [Series1.Append(elem)] with an [Element]
    argument ("mutates in place, no-op if already errored") appends a
    copy of the element, missing flag included; [Append(nil)] appends
    [missingElement]. *)
Definition AppendElem (s : GotaSeries E) (elem : option E) : GotaSeries E :=
  match Err s with
  | Some _ => s
  | None =>
      let e := match elem with Some e => Copy e | None => missingElement end in
      mkGotaSeries (Name s) (elements s ++ [e]) (Err s)
  end.

Definition Error (df : GotaDataFrame E) : option error := DfErr df.
Definition NRow (df : GotaDataFrame E) : Z := nrows df.
Definition NCol (df : GotaDataFrame E) : Z := ncols df.
Definition Columns (df : GotaDataFrame E) : list (GotaSeries E) := columns df.
Definition Names (df : GotaDataFrame E) : list string := map Name (columns df).

Definition ColIndex (df : GotaDataFrame E) (s : string) : Z :=
  findInStringSlice s (Names df).

Fixpoint checkColumnsDimensions_loop (i nrows : Z) (se : list (GotaSeries E))
  : Z * option error :=
  match se with
  | [] => (nrows, None)
  | s :: se' =>
      match Err s with
      | Some e => (nrows, Some ("error on series " ++ pretty i ++ ": " ++ e)%string)
      | None =>
          let nrows := if nrows =? -1 then Len s else nrows in
          if negb (nrows =? Len s)
          then (nrows, Some "arguments have different dimensions")
          else checkColumnsDimensions_loop (i + 1) nrows se'
      end
  end.

(** Returns [(nrows, ncols, err)]. *)
Definition checkColumnsDimensions (se : list (GotaSeries E)) : Z * Z * option error :=
  let ncols := len se in
  if ncols =? 0 then (-1, ncols, Some "no Series given")
  else let '(nrows, err) := checkColumnsDimensions_loop 0 (-1) se in (nrows, ncols, err).

(** [for i, colname := range colnames { df.columns[i].Name = colname }];
    [fixColnames] works in place, so there is one name per column; a
    column without a name in the list would keep its own. *)
Fixpoint setNames (cols : list (GotaSeries E)) (colnames : list string)
  : list (GotaSeries E) :=
  match cols with
  | [] => []
  | c :: cols' =>
      mkGotaSeries (hd (Name c) colnames) (elements c) (Err c)
      :: setNames cols' (tl colnames)
  end.

(** The tail shared by [New], [Select], [Drop], [Mutate] and [RApply]:
    check the dimensions, build the frame, fix the names. *)
Definition buildFrame (cols : list (GotaSeries E)) : GotaDataFrame E :=
  let '(nrows, ncols, err) := checkColumnsDimensions cols in
  match err with
  | Some e => errDataFrame e
  | None =>
      let colnames := fixColnames (map Name cols) in
      mkGotaDataFrame (setNames cols colnames) ncols nrows None
  end.

Definition New (se : list (GotaSeries E)) : GotaDataFrame E :=
  if len se =? 0 then errDataFrame "empty DataFrame"
  else buildFrame (map Copy_series se).

Definition Copy_df (df : GotaDataFrame E) : GotaDataFrame E :=
  let copy := New (columns df) in
  match DfErr df with
  | Some e => mkGotaDataFrame (columns copy) (ncols copy) (nrows copy) (Some e)
  | None => copy
  end.

(** [GotaDataFrame.Subset], with [column.Subset] as a parameter: the
    columns are of the type [series.Series1]. *)
Definition Subset_columns
    (column_Subset : GotaSeries E -> Indexes -> result (GotaSeries E))
    (df : GotaDataFrame E) (indexes : Indexes) : result (GotaDataFrame E) :=
  match DfErr df with
  | Some _ => Ret df
  | None =>
      cols ← rmapM (fun column => column_Subset column indexes) (columns df);
      let '(nrows, ncols, err) := checkColumnsDimensions cols in
      match err with
      | Some e => Ret (errDataFrame e)
      | None => Ret (mkGotaDataFrame cols ncols nrows None)
      end
  end.

(** [GotaDataFrame.Subset] over columns that are [GotaSeries]. *)
Definition Subset_df (df : GotaDataFrame E) (indexes : Indexes)
  : result (GotaDataFrame E) :=
  match DfErr df with
  | Some _ => Ret df
  | None =>
      cols ← rmapM (fun column => Subset column indexes) (columns df);
      let '(nrows, ncols, err) := checkColumnsDimensions cols in
      match err with
      | Some e => Ret (errDataFrame e)
      | None => Ret (mkGotaDataFrame cols ncols nrows None)
      end
  end.

(** [Mutate], on values (the module [shared] has it on the heap). *)
Definition Mutate (df : GotaDataFrame E) (s : GotaSeries E)
  : result (GotaDataFrame E) :=
  match DfErr df with
  | Some _ => Ret df
  | None =>
      if negb (Len s =? nrows df) then Ret (errDataFrame "mutate: wrong dimensions")
      else
        let df_copy := Copy_df df in
        let cols := Columns df_copy in
        let idx := findInStringSlice (Name s) (Names df) in
        cols ← (if negb (idx =? -1)
                then (if idx <? len cols then Ret (<[Z.to_nat idx := s]> cols)
                      else Panic "index out of range")
                else Ret (cols ++ [s])%list);
        Ret (buildFrame cols)
  end.

(** *** Filtering *)

(** The filtering structure [F]. *)
Record F := mkF {
  Colidx : Z;
  Colname : string;
  Comparator_ : Comparator;
  Comparando_ : Comparando E
}.

(** [Aggregation] is an [int] type with the constants [Or] and [And]. *)
Definition Aggregation := Z.
Definition Or : Aggregation := 0.
Definition And : Aggregation := 1.
Definition Aggregation_String (a : Aggregation) : string :=
  if a =? Or then "or" else if a =? And then "and"
  else ("unknown aggragation " ++ pretty a)%string.

(** The conversions of the elements ([Element.Bool], [Element.Type],
    the cast [series.New] applies when elements are appended to a
    column of a given type) are not among the sources: parameters. *)
Variable fromFloat64 : float64 -> T.
Variable elemBool : E -> bool + error.
Variable elemType : E -> Type_.
Variable colType : GotaSeries E -> Type_.
Variable castElem : Type_ -> E -> E.

(** Modelled from the spec: [Bool()] of a Boolean element; a missing
    element has no Boolean value ("invalid coercion"). *)
Definition BoolElementValue_Bool (e : BoolElementValue) : bool + error :=
  if bnan e then inr "can't convert NaN to bool" else inl (bvalue e).

(** [Series.Bool]: the elements as [[]bool], or the first error. *)
Fixpoint Bool_loop {X} (conv : X -> bool + error) (els : list X) : list bool + error :=
  match els with
  | [] => inl []
  | e :: els' =>
      match conv e with
      | inr err => inr err
      | inl val =>
          match Bool_loop conv els' with
          | inr err => inr err
          | inl vals => inl (val :: vals)
          end
      end
  end.

Definition BoolSeries_Err (r : BoolSeries E) : result (option error) :=
  match r with
  | Receiver s => Ret (Err s)
  | BoolColumn b => Ret (Err b)
  | NilSeries => Panic "invalid memory address or nil pointer dereference"
  end.

Definition BoolSeries_Bool (r : BoolSeries E) : result (list bool + error) :=
  match r with
  | Receiver s => Ret (Bool_loop elemBool (elements s))
  | BoolColumn b => Ret (Bool_loop BoolElementValue_Bool (elements b))
  | NilSeries => Panic "invalid memory address or nil pointer dereference"
  end.

(** The first loop of [FilterAggregation]: one comparison per filter;
    [inr] is the error frame returned early. *)
Fixpoint filterResults (df : GotaDataFrame E) (filters : list F)
  : result (list (BoolSeries E) + GotaDataFrame E) :=
  match filters with
  | [] => Ret (inl [])
  | f :: filters' =>
      let idx := if String.eqb (Colname f) "" then Colidx f
                 else findInStringSlice (Colname f) (Names df) in
      if negb (String.eqb (Colname f) "") && (idx <? 0)
      then Ret (inr (errDataFrame "filter: can't find column name"))
      else
        col ← elem_at (columns df) idx;
        res ← Compare fromFloat64 col (Comparator_ f) (Comparando_ f);
        err ← BoolSeries_Err res;
        match err with
        | Some e => Ret (inr (errDataFrame ("filter: " ++ e)))
        | None =>
            rest ← filterResults df filters';
            match rest with
            | inr errdf => Ret (inr errdf)
            | inl compResults => Ret (inl (res :: compResults))
            end
        end
  end.

(** [for j := 0; j < len(res); j++ { switch agg { ... } }]: [||] and
    [&&] read [nextRes[j]] only when the left operand does not decide. *)
Fixpoint combineMasks (agg : Aggregation) (res nextRes : list bool) : result (list bool) :=
  match res with
  | [] => Ret []
  | r :: res' =>
      let next := match nextRes with
                  | n :: _ => Ret n
                  | [] => Panic "index out of range"
                  end in
      v ← (if agg =? Or then (if r then Ret true else next)
           else if agg =? And then (if r then next else Ret false)
           else Panic (Aggregation_String agg));
      vs ← combineMasks agg res' (tl nextRes);
      Ret (v :: vs)
  end.

(** The loop over [compResults[1:]]; [inr] is the error of a [Bool()]. *)
Fixpoint aggregateResults (agg : Aggregation) (res : list bool)
    (compResults : list (BoolSeries E)) : result (list bool + error) :=
  match compResults with
  | [] => Ret (inl res)
  | c :: compResults' =>
      nextRes ← BoolSeries_Bool c;
      match nextRes with
      | inr err => Ret (inr err)
      | inl nextRes =>
          res ← combineMasks agg res nextRes;
          aggregateResults agg res compResults'
      end
  end.

Definition FilterAggregation (df : GotaDataFrame E) (agg : Aggregation)
    (filters : list F) : result (GotaDataFrame E) :=
  match DfErr df with
  | Some _ => Ret df
  | None =>
      r ← filterResults df filters;
      match r with
      | inr errdf => Ret errdf
      | inl [] => Ret (Copy_df df)
      | inl (c0 :: compResults) =>
          res ← BoolSeries_Bool c0;
          match res with
          | inr err => Ret (errDataFrame ("filter: " ++ err))
          | inl res =>
              res ← aggregateResults agg res compResults;
              match res with
              | inr err => Ret (errDataFrame ("filter: " ++ err))
              | inl res => Subset_df df (IdxBools res)
              end
          end
      end
  end.

Definition Filter (df : GotaDataFrame E) (filters : list F) : result (GotaDataFrame E) :=
  FilterAggregation df Or filters.

(** *** RApply *)

Definition Types (df : GotaDataFrame E) : list Type_ := map colType (columns df).

(** The closure [detectType] of [RApply]. *)
Definition detectType (types : list Type_) : result Type_ :=
  let hasStrings := existsb (fun t => match t with String => true | _ => false end) types in
  let hasFloats := existsb (fun t => match t with Float => true | _ => false end) types in
  let hasInts := existsb (fun t => match t with Int => true | _ => false end) types in
  let hasBools := existsb (fun t => match t with Bool => true | _ => false end) types in
  if hasStrings then Ret String
  else if hasBools then Ret Bool
  else if hasFloats then Ret Float
  else if hasInts then Ret Int
  else Panic "type not supported".

(** [series.New(nil, t, "").Empty()] followed by [Append] of the
    given elements. *)
Definition seriesOf (t : Type_) (els : list E) : GotaSeries E :=
  mkGotaSeries "" (map (castElem t) els) None.

(** The row loop; [inr] is the error frame returned early. *)
Fixpoint RApply_rows (f : GotaSeries E -> GotaSeries E) (rowType : Type_)
    (cols : list (GotaSeries E)) (rows : list Z) (rowlen : Z) (acc : list (list E))
  : result (list (list E) * Z + GotaDataFrame E) :=
  match rows with
  | [] => Ret (inl (acc, rowlen))
  | i :: rows' =>
      cells ← rmapM (fun col => Elem col i) cols;
      let row := f (seriesOf rowType cells) in
      match Err row with
      | Some e =>
          Ret (inr (errDataFrame
                 ("error applying function on row " ++ pretty i ++ ": " ++ e)))
      | None =>
          if negb (rowlen =? -1) && negb (rowlen =? Len row)
          then Ret (inr (errDataFrame
                           "error applying function: rows have different lengths"))
          else RApply_rows f rowType cols rows' (Len row) (acc ++ [elements row])%list
      end
  end.

Definition RApply (df : GotaDataFrame E) (f : GotaSeries E -> GotaSeries E)
  : result (GotaDataFrame E) :=
  match DfErr df with
  | Some _ => Ret df
  | None =>
      rowType ← detectType (Types df);
      r ← RApply_rows f rowType (columns df) (seqZ 0 (nrows df)) (-1) [];
      match r with
      | inr errdf => Ret errdf
      | inl (elems, rowlen) =>
          if rowlen <? 0 then Panic "makeslice: len out of range"
          else
            cols ← rmapM (fun j =>
                cells ← rmapM (fun i => row ← elem_at elems i; elem_at row j)
                              (seqZ 0 (nrows df));
                t ← detectType (map elemType cells);
                Ret (seriesOf t cells)) (seqZ 0 rowlen);
            Ret (buildFrame cols)
      end
  end.

(** *** Joins *)

(** [cols[k].Elem(i)] *)
Definition colElem (cols : list (GotaSeries E)) (k i : Z) : result E :=
  c ← elem_at cols k; Elem c i.

(** [newCols = append(newCols, cols[i].Empty())] for the given [i]s. *)
Definition emptyCols (cols : list (GotaSeries E)) (idxs : list Z)
  : result (list (GotaSeries E)) :=
  rmapM (fun i => c ← elem_at cols i; Ret (Empty c)) idxs.

(** One output row: [newCols[ii].Append(elem); ii++] along the row;
    [None] stands for [Append(nil)]. *)
Definition appendRow (newCols : list (GotaSeries E)) (row : list (option E))
  : list (GotaSeries E) :=
  zip_with AppendElem newCols row.

(** The key check at the head of every keyed join: the indices of the
    keys on both sides, and the messages for the keys not found. *)
Definition keyErrors (df b : GotaDataFrame E) (keys : list string) : list string :=
  flat_map (fun key =>
    (if ColIndex df key <? 0
     then ["can't find key " ++ quoted key ++ " on left DataFrame"]%string else [])
    ++ (if ColIndex b key <? 0
        then ["can't find key " ++ quoted key ++ " on right DataFrame"]%string else []))%list
    keys.

Definition notKeys (n : Z) (iKeys : list Z) : list Z :=
  filter (fun i => negb (inIntSlice i iKeys) = true) (seqZ 0 n).

(** [match] for the rows [i] of the left and [j] of the right table:
    both elements of every key are read, then compared with [Eq]. *)
Definition matchKeys (aCols bCols : list (GotaSeries E)) (iKeysA iKeysB : list Z)
    (i j : Z) : result bool :=
  rfoldl (fun (m : bool) '(ka, kb) =>
            aElem ← colElem aCols ka i;
            bElem ← colElem bCols kb j;
            Ret (m && Eq aElem bElem))
         true (zip iKeysA iKeysB).

Definition rowOf (cols : list (GotaSeries E)) (ks : list Z) (i : Z)
  : result (list (option E)) :=
  rmapM (fun k => e ← colElem cols k i; Ret (Some e)) ks.

Definition nils (ks : list Z) : list (option E) := map (fun _ => None) ks.

Section Keyed.
Variables df b : GotaDataFrame E.
Variable keys : list string.

Let aCols := columns df.
Let bCols := Columns b.
Let iKeysA := map (ColIndex df) keys.
Let iKeysB := map (ColIndex b) keys.
Let iNotKeysA := notKeys (ncols df) iKeysA.
Let iNotKeysB := notKeys (NCol b) iKeysB.

(** The head of a keyed join, up to the initial [newCols]; [inr] is
    the error frame returned early.  The joined messages are handed to
    [fmt.Errorf] as its format. *)
Definition joinInit : result (list (GotaSeries E) + GotaDataFrame E) :=
  if len keys =? 0 then Ret (inr (errDataFrame "join keys not specified"))
  else
    let errorArr := keyErrors df b keys in
    if negb (len errorArr =? 0)
    then Ret (inr (errDataFrame (fmt.Errorf (strings_Join errorArr newline))))
    else
      k ← emptyCols aCols iKeysA;
      na ← emptyCols aCols iNotKeysA;
      nb ← emptyCols bCols iNotKeysB;
      Ret (inl (k ++ na ++ nb)%list).

(** The three shapes of an output row. *)
Definition rowMatched (i j : Z) : result (list (option E)) :=
  k ← rowOf aCols iKeysA i;
  na ← rowOf aCols iNotKeysA i;
  nb ← rowOf bCols iNotKeysB j;
  Ret (k ++ na ++ nb)%list.

Definition rowLeftOnly (i : Z) : result (list (option E)) :=
  k ← rowOf aCols iKeysA i;
  na ← rowOf aCols iNotKeysA i;
  Ret (k ++ na ++ nils iNotKeysB)%list.

Definition rowRightOnly (j : Z) : result (list (option E)) :=
  k ← rowOf bCols iKeysB j;
  nb ← rowOf bCols iNotKeysB j;
  Ret (k ++ nils iNotKeysA ++ nb)%list.

Definition matchRows : Z -> Z -> result bool :=
  matchKeys aCols bCols iKeysA iKeysB.

Definition InnerJoin : result (GotaDataFrame E) :=
  init ← joinInit;
  match init with
  | inr errdf => Ret errdf
  | inl newCols =>
      newCols ← rfoldl (fun newCols i =>
        rfoldl (fun newCols j =>
          m ← matchRows i j;
          if m : bool then row ← rowMatched i j; Ret (appendRow newCols row)
          else Ret newCols) newCols (seqZ 0 (NRow b)))
        newCols (seqZ 0 (nrows df));
      Ret (New newCols)
  end.

(** The loop over the left rows shared by [LeftJoin] and
    [OuterJoin]. *)
Definition leftRows (newCols : list (GotaSeries E)) : result (list (GotaSeries E)) :=
  rfoldl (fun newCols i =>
    '(newCols, matched) ← rfoldl (fun '(newCols, matched) j =>
        m ← matchRows i j;
        if m : bool then row ← rowMatched i j; Ret (appendRow newCols row, true)
        else Ret (newCols, matched)) (newCols, false) (seqZ 0 (NRow b));
    if matched : bool then Ret newCols
    else row ← rowLeftOnly i; Ret (appendRow newCols row))
    newCols (seqZ 0 (nrows df)).

Definition LeftJoin : result (GotaDataFrame E) :=
  init ← joinInit;
  match init with
  | inr errdf => Ret errdf
  | inl newCols => newCols ← leftRows newCols; Ret (New newCols)
  end.

(** For each right row: the matching pairs [(i, j)] in [yesmatched]
    and whether there was one. *)
Definition rightScan (j : Z) : result (list (Z * Z) * bool) :=
  rfoldl (fun '(yes, matched) i =>
            m ← matchRows i j;
            if m : bool then Ret ((yes ++ [(i, j)])%list, true) else Ret (yes, matched))
         ([], false) (seqZ 0 (nrows df)).

Definition rightOnlyRows (newCols : list (GotaSeries E)) (nonmatched : list Z)
  : result (list (GotaSeries E)) :=
  rfoldl (fun newCols j => row ← rowRightOnly j; Ret (appendRow newCols row))
         newCols nonmatched.

Definition RightJoin : result (GotaDataFrame E) :=
  init ← joinInit;
  match init with
  | inr errdf => Ret errdf
  | inl newCols =>
      '(yesmatched, nonmatched) ← rfoldl (fun '(yesmatched, nonmatched) j =>
          '(yes, matched) ← rightScan j;
          Ret ((yesmatched ++ yes)%list,
               if matched : bool then nonmatched else (nonmatched ++ [j])%list))
        ([], []) (seqZ 0 (NRow b));
      newCols ← rfoldl (fun newCols '(i, j) =>
          row ← rowMatched i j; Ret (appendRow newCols row)) newCols yesmatched;
      newCols ← rightOnlyRows newCols nonmatched;
      Ret (New newCols)
  end.

Definition OuterJoin : result (GotaDataFrame E) :=
  init ← joinInit;
  match init with
  | inr errdf => Ret errdf
  | inl newCols =>
      newCols ← leftRows newCols;
      newCols ← rfoldl (fun newCols j =>
          '(_, matched) ← rightScan j;
          if matched : bool then Ret newCols
          else row ← rowRightOnly j; Ret (appendRow newCols row))
        newCols (seqZ 0 (NRow b));
      Ret (New newCols)
  end.

Definition CrossJoin : result (GotaDataFrame E) :=
  na ← emptyCols aCols (seqZ 0 (ncols df));
  nb ← emptyCols bCols (seqZ 0 (NCol b));
  newCols ← rfoldl (fun newCols i =>
    rfoldl (fun newCols j =>
      ra ← rowOf aCols (seqZ 0 (ncols df)) i;
      rb ← rowOf bCols (seqZ 0 (NCol b)) j;
      Ret (appendRow newCols (ra ++ rb)%list)) newCols (seqZ 0 (NRow b)))
    (na ++ nb)%list (seqZ 0 (nrows df));
  Ret (New newCols).
End Keyed.

(** *** Selecting and binding columns *)

(** [SelectIndexes] is [interface{}]: the dynamic types
    [parseSelectIndexes] switches on, and anything else. *)
Inductive SelectIndexes : Type :=
| SelInts (idx : list Z)
| SelInt (i : Z)
| SelBools (bools : list bool)
| SelString (name : string)
| SelStrings (names : list string)
| SelSeries (s : GotaSeries E)
| SelOther.

(** The conversions [Element.Int] and [Element.String] behind
    [Series.Int] and [Series.Records] are not among the sources:
    parameters, like [elemBool]. *)
Variable elemInt : E -> Z + error.
Variable elemString : E -> string.

(** [Series.Int]: the elements as [[]int], or the first error. *)
Fixpoint Int_loop (els : list E) : list Z + error :=
  match els with
  | [] => inl []
  | e :: els' =>
      match elemInt e with
      | inr err => inr err
      | inl val =>
          match Int_loop els' with
          | inr err => inr err
          | inl vals => inl (val :: vals)
          end
      end
  end.

(** The case [[]bool] of [parseSelectIndexes]. *)
Definition parseSelectBools (l : Z) (bools : list bool) : list Z + error :=
  if negb (len bools =? l) then inr "indexing error: index dimensions mismatch"
  else inl (mask_positions 0 bools).

(** The case [[]string]: the position of every name, or the error for
    the first name that is not found. *)
Fixpoint parseSelectNames (xs : list string) (colnames : list string) : list Z + error :=
  match xs with
  | [] => inl []
  | s :: xs' =>
      let i := findInStringSlice s colnames in
      if i <? 0
      then inr ("can't select columns: column name " ++ quoted s ++ " not found")%string
      else match parseSelectNames xs' colnames with
           | inr err => inr err
           | inl idx => inl (i :: idx)
           end
  end.

(** [parseSelectIndexes]; the recursive calls of the [Series] case go
    to the [[]bool] and [[]string] cases. *)
Definition parseSelectIndexes (l : Z) (indexes : SelectIndexes) (colnames : list string)
  : list Z + error :=
  match indexes with
  | SelInts idx => inl idx
  | SelInt i => inl [i]
  | SelBools bools => parseSelectBools l bools
  | SelString name =>
      let i := findInStringSlice name colnames in
      if i <? 0
      then inr ("can't select columns: column name " ++ quoted name ++ " not found")%string
      else inl [i]
  | SelStrings names => parseSelectNames names colnames
  | SelSeries s =>
      match Err s with
      | Some err => inr ("indexing error: new values has errors: " ++ err)%string
      | None =>
          if HasNaN s then inr "indexing error: indexes contain NaN"
          else match colType s with
               | Int => Int_loop (elements s)
               | Bool =>
                   match Bool_loop elemBool (elements s) with
                   | inr err => inr ("indexing error: " ++ err)%string
                   | inl bools => parseSelectBools l bools
                   end
               | String => parseSelectNames (map elemString (elements s)) colnames
               | Float => inr "indexing error: unknown indexing mode"
               end
      end
  | SelOther => inr "indexing error: unknown indexing mode"
  end.

(** The loop of [Select]: a copy of the column at every index; [inr]
    is the error frame returned for an index out of range. *)
Fixpoint Select_columns (df : GotaDataFrame E) (idx : list Z)
  : result (list (GotaSeries E) + GotaDataFrame E) :=
  match idx with
  | [] => Ret (inl [])
  | i :: idx' =>
      if (i <? 0) || (i >=? ncols df)
      then Ret (inr (errDataFrame "can't select columns: index out of range"))
      else
        c ← elem_at (columns df) i;
        rest ← Select_columns df idx';
        match rest with
        | inr errdf => Ret (inr errdf)
        | inl cols => Ret (inl (Copy_series c :: cols))
        end
  end.

Definition Select (df : GotaDataFrame E) (indexes : SelectIndexes)
  : result (GotaDataFrame E) :=
  match DfErr df with
  | Some _ => Ret df
  | None =>
      match parseSelectIndexes (ncols df) indexes (Names df) with
      | inr err => Ret (errDataFrame ("can't select columns: " ++ err))
      | inl idx =>
          r ← Select_columns df idx;
          match r with
          | inr errdf => Ret errdf
          | inl cols => Ret (buildFrame cols)
          end
      end
  end.

(** The loop of [Drop]: copies of the columns whose position is not
    listed. *)
Fixpoint Drop_columns (k : Z) (cols : list (GotaSeries E)) (idx : list Z)
  : list (GotaSeries E) :=
  match cols with
  | [] => []
  | col :: cols' =>
      if negb (inIntSlice k idx) then Copy_series col :: Drop_columns (k + 1) cols' idx
      else Drop_columns (k + 1) cols' idx
  end.

Definition Drop (df : GotaDataFrame E) (indexes : SelectIndexes) : GotaDataFrame E :=
  match DfErr df with
  | Some _ => df
  | None =>
      match parseSelectIndexes (ncols df) indexes (Names df) with
      | inr err => errDataFrame ("can't select columns: " ++ err)
      | inl idx => buildFrame (Drop_columns 0 (columns df) idx)
      end
  end.

(** [Rename]: the copy's column at the position of [oldname] gets the
    new name; the names are not made unique again. *)
Definition Rename (df : GotaDataFrame E) (newname oldname : string)
  : result (GotaDataFrame E) :=
  match DfErr df with
  | Some _ => Ret df
  | None =>
      let idx := findInStringSlice oldname (Names df) in
      if idx =? -1 then Ret (errDataFrame "rename: can't find column name")
      else
        let copy := Copy_df df in
        c ← elem_at (Columns copy) idx;
        Ret (mkGotaDataFrame
               (<[Z.to_nat idx := mkGotaSeries newname (elements c) (Err c)]> (columns copy))
               (ncols copy) (nrows copy) (DfErr copy))
  end.

Definition CBind (df dfb : GotaDataFrame E) : GotaDataFrame E :=
  match DfErr df with
  | Some _ => df
  | None =>
      match Error dfb with
      | Some _ => dfb
      | None => New (columns df ++ Columns dfb)
      end
  end.

(** The loop of [RBind] over the names of [df]; [inr] is the error
    frame returned early. *)
Fixpoint RBind_columns (cols : list (GotaSeries E)) (dfb : GotaDataFrame E)
  : result (list (GotaSeries E) + GotaDataFrame E) :=
  match cols with
  | [] => Ret (inl [])
  | originalSeries :: cols' =>
      let idx := findInStringSlice (Name originalSeries) (Names dfb) in
      if idx =? -1 then Ret (inr (errDataFrame "rbind: column names are not compatible"))
      else
        addedSeries ← elem_at (Columns dfb) idx;
        let newSeries := Concat originalSeries addedSeries in
        match Err newSeries with
        | Some err => Ret (inr (errDataFrame ("rbind: " ++ err)))
        | None =>
            rest ← RBind_columns cols' dfb;
            match rest with
            | inr errdf => Ret (inr errdf)
            | inl expanded => Ret (inl (newSeries :: expanded))
            end
        end
  end.

Definition RBind (df dfb : GotaDataFrame E) : result (GotaDataFrame E) :=
  match DfErr df with
  | Some _ => Ret df
  | None =>
      match Error dfb with
      | Some _ => Ret dfb
      | None =>
          r ← RBind_columns (columns df) dfb;
          match r with
          | inr errdf => Ret errdf
          | inl expandedSeries => Ret (New expandedSeries)
          end
      end
  end.

(** [Col]: a copy of the named column, or a column that carries the
    error. *)
Definition Col (df : GotaDataFrame E) (colname : string) : result (GotaSeries E) :=
  match DfErr df with
  | Some err => Ret (mkGotaSeries "" [] (Some err))
  | None =>
      let idx := findInStringSlice colname (Names df) in
      if idx <? 0 then Ret (mkGotaSeries "" [] (Some "unknown column name"))
      else c ← elem_at (columns df) idx; Ret (Copy_series c)
  end.

(** *** Arrange *)

(** The ordering structure [Order] of order.go (the name [Order] is
    taken by the method of the column). *)
Record SortOrder := mkSortOrder {
  OrderColname : string;
  OrderReverse : bool
}.

Definition Sort (colname : string) : SortOrder := mkSortOrder colname false.
Definition RevSort (colname : string) : SortOrder := mkSortOrder colname true.

(** The first key whose column does not exist. *)
Fixpoint Arrange_missing (df : GotaDataFrame E) (order : list SortOrder) : option string :=
  match order with
  | [] => None
  | o :: order' =>
      if ColIndex df (OrderColname o) =? -1 then Some (OrderColname o)
      else Arrange_missing df order'
  end.

(** The sorting loop, from the last key to the first, on [origIdx]
    and [suborder]. *)
Fixpoint Arrange_loop (df : GotaDataFrame E) (rorder : list SortOrder)
    (origIdx suborder : list Z) : result (list Z) :=
  match rorder with
  | [] => Ret origIdx
  | o :: rorder' =>
      let idx := ColIndex df (OrderColname o) in
      col ← elem_at (columns df) idx;
      nextSeries ← Subset col (IdxInts suborder);
      let suborder := Order nextSeries (OrderReverse o) in
      newOrigIdx ← rmapM (fun i => elem_at origIdx i) suborder;
      Arrange_loop df rorder' newOrigIdx suborder
  end.

(** The row positions [Arrange] hands to [Subset]. *)
Definition Arrange_index (df : GotaDataFrame E) (order : list SortOrder) : result (list Z) :=
  let origIdx := seqZ 0 (nrows df) in
  Arrange_loop df (rev order) origIdx origIdx.

Definition Arrange (df : GotaDataFrame E) (order : list SortOrder)
  : result (GotaDataFrame E) :=
  match DfErr df with
  | Some _ => Ret df
  | None =>
      if len order =? 0 then Ret (errDataFrame "rename: no arguments")
      else
        match Arrange_missing df order with
        | Some colname =>
            Ret (errDataFrame ("colname " ++ colname ++ " doesn't exist"))
        | None =>
            origIdx ← Arrange_index df order;
            Subset_df df (IdxInts origIdx)
        end
  end.
End DataFrame.

(** [transposeRecords]: [y[i][j] = x[j][i]] for [i] below the length
    of the first row and [j] below the number of rows; a row shorter
    than the first aborts. *)
Definition transposeRecords {A} (x : list (list A)) : result (list (list A)) :=
  match x with
  | [] => Ret x
  | x0 :: _ =>
      rmapM (fun i => rmapM (fun j => row ← elem_at x j; elem_at row i)
                            (seqZ 0 (len x)))
            (seqZ 0 (len x0))
  end.

End dataframe.

(** ** Shared element storage *)

(** A column value is a small struct that refers to its element
    storage ([elements] is an interface holding a pointer to the
    [ElementsArray]); copying the struct, as a call by value or an
    assignment into a slice of columns does, copies the reference.  Here
    the storage lives in a heap and a column holds a location.  Only the
    operations that [Mutate] and the in-place mutators need are
    repeated on the heap; they do to the stored list what their
    counterparts in [series] and [dataframe] do to the list they hold. *)
Module shared.
Import series.

Definition loc := nat.

Record Series1 := mkSeries1 {
  Name : string;
  elements : loc;
  Err : option error
}.

Record GotaDataFrame := mkGotaDataFrame {
  columns : list Series1;
  ncols : Z;
  nrows : Z;
  DfErr : option error
}.

Definition errDataFrame (err : error) : GotaDataFrame :=
  mkGotaDataFrame [] 0 0 (Some err).

Section Heap.
Context {T E : Type} `{Element T E}.
Variable fixColnames : list string -> list string.

Definition heap := gmap loc (list E).

(** The elements a column refers to. *)
Definition deref (h : heap) (s : Series1) : list E := default [] (h !! elements s).

Definition alloc (h : heap) (els : list E) : loc * heap :=
  let l := fresh (dom h) in (l, <[l := els]> h).

Definition NewSeries (name : string) (values : list T) (h : heap) : Series1 * heap :=
  let '(l, h) := alloc h (NewElements values) in (mkSeries1 name l None, h).

Definition Len (h : heap) (s : Series1) : Z := len (deref h s).

(** [Append]: [AppendElements] extends the array the column refers
    to. *)
Definition Append (s : Series1) (values : list T) (h : heap) : heap :=
  match Err s with
  | Some _ => h
  | None => <[elements s := (deref h s ++ NewElements values)%list]> h
  end.

(** [Set]: [s.elements.Elem(i).Set(...)] writes into the stored
    elements; the error, if any, goes to the receiver. *)
Definition Set_series (s : Series1) (indexes : Indexes) (newvalues : Series1) (h : heap)
  : Series1 * heap :=
  match Err s with
  | Some _ => (s, h)
  | None =>
      match Err newvalues with
      | Some err =>
          (mkSeries1 (Name s) (elements s)
             (Some ("set error: argument has errors: " ++ err)%string), h)
      | None =>
          match parseIndexes (Len h s) indexes with
          | inr err => (mkSeries1 (Name s) (elements s) (Some err), h)
          | inl idx =>
              if negb (len idx =? Len h newvalues)
              then (mkSeries1 (Name s) (elements s) (Some "set error: dimensions mismatch"), h)
              else
                let '(els, err) :=
                  Set_loop (deref h s) (Len h s) (zip idx (deref h newvalues)) in
                (mkSeries1 (Name s) (elements s) err, <[elements s := els]> h)
          end
      end
  end.

(** [Copy]: a new array holding copies of the elements. *)
Definition Copy_series (s : Series1) (h : heap) : Series1 * heap :=
  let '(l, h) := alloc h (map Copy (deref h s)) in (mkSeries1 (Name s) l (Err s), h).

Fixpoint copyAll (se : list Series1) (h : heap) : list Series1 * heap :=
  match se with
  | [] => ([], h)
  | s :: se' =>
      let '(c, h) := Copy_series s h in
      let '(cs, h) := copyAll se' h in
      (c :: cs, h)
  end.

Fixpoint checkColumnsDimensions_loop (h : heap) (i nrows : Z) (se : list Series1)
  : Z * option error :=
  match se with
  | [] => (nrows, None)
  | s :: se' =>
      match Err s with
      | Some e => (nrows, Some ("error on series " ++ pretty i ++ ": " ++ e)%string)
      | None =>
          let nrows := if nrows =? -1 then Len h s else nrows in
          if negb (nrows =? Len h s)
          then (nrows, Some "arguments have different dimensions")
          else checkColumnsDimensions_loop h (i + 1) nrows se'
      end
  end.

Definition checkColumnsDimensions (h : heap) (se : list Series1) : Z * Z * option error :=
  let ncols := len se in
  if ncols =? 0 then (-1, ncols, Some "no Series given")
  else let '(nrows, err) := checkColumnsDimensions_loop h 0 (-1) se in (nrows, ncols, err).

Definition Names (df : GotaDataFrame) : list string := map Name (columns df).

Fixpoint setNames (cols : list Series1) (colnames : list string) : list Series1 :=
  match cols with
  | [] => []
  | c :: cols' =>
      mkSeries1 (hd (Name c) colnames) (elements c) (Err c) :: setNames cols' (tl colnames)
  end.

Definition buildFrame (h : heap) (cols : list Series1) : GotaDataFrame :=
  let '(nrows, ncols, err) := checkColumnsDimensions h cols in
  match err with
  | Some e => errDataFrame e
  | None => mkGotaDataFrame (setNames cols (fixColnames (map Name cols))) ncols nrows None
  end.

Definition New (se : list Series1) (h : heap) : GotaDataFrame * heap :=
  if len se =? 0 then (errDataFrame "empty DataFrame", h)
  else let '(cols, h) := copyAll se h in (buildFrame h cols, h).

Definition Copy_df (df : GotaDataFrame) (h : heap) : GotaDataFrame * heap :=
  let '(copy, h) := New (columns df) h in
  match DfErr df with
  | Some e => (mkGotaDataFrame (columns copy) (ncols copy) (nrows copy) (Some e), h)
  | None => (copy, h)
  end.

(** [Mutate]: the frame is copied, the argument [s] is stored as it
    is. *)
Definition Mutate (df : GotaDataFrame) (s : Series1) (h : heap)
  : result (GotaDataFrame * heap) :=
  match DfErr df with
  | Some _ => Ret (df, h)
  | None =>
      if negb (Len h s =? nrows df) then Ret (errDataFrame "mutate: wrong dimensions", h)
      else
        let '(df_copy, h) := Copy_df df h in
        let cols := columns df_copy in
        let idx := dataframe.findInStringSlice (Name s) (Names df) in
        cols ← (if negb (idx =? -1)
                then (if idx <? len cols then Ret (<[Z.to_nat idx := s]> cols)
                      else Panic "index out of range")
                else Ret (cols ++ [s])%list);
        Ret (buildFrame h cols, h)
  end.

(** What a table holds: the elements of its columns, read through the
    heap. *)
Definition contents (h : heap) (df : GotaDataFrame) : list (list E) :=
  map (deref h) (columns df).
End Heap.

End shared.

(** * Specifications *)

(** The vocabulary of the design document, written from its words; the
    properties below compare it with the code. *)
Module spec.
Import series.

Definition Type_eqb (a b : Type_) : bool :=
  match a, b with
  | String, String | Int, Int | Float, Float | Bool, Bool => true
  | _, _ => false
  end.

(** Type inference (section 4.1): empty and missing-sentinel tokens are
    ignored; a token is Integer if it parses as an integer, else Float
    if it parses as a floating-point number, else Boolean if it is
    exactly "true" or "false", else Text; the column type is the
    highest class present in the order Text > Boolean > Float >
    Integer; with every token ignored, inference fails. *)
Section Inference.
Variables parsesInt parsesFloat : string -> bool.

Definition ignored (tok : string) : bool :=
  String.eqb tok "" || String.eqb tok "NaN".

Definition classify (tok : string) : option Type_ :=
  if ignored tok then None
  else if parsesInt tok then Some Int
  else if parsesFloat tok then Some Float
  else if String.eqb tok "true" || String.eqb tok "false" then Some Bool
  else Some String.

Definition anyClassified (t : Type_) (arr : list string) : bool :=
  existsb (fun tok => match classify tok with
                      | Some t' => Type_eqb t t'
                      | None => false
                      end) arr.

Definition inferType (arr : list string) : option Type_ :=
  if anyClassified String arr then Some String
  else if anyClassified Bool arr then Some Bool
  else if anyClassified Float arr then Some Float
  else if anyClassified Int arr then Some Int
  else None.
End Inference.

(** [Order] (section 4.2): the positions of the present elements,
    stably sorted by value in the requested direction, followed by the
    positions of the missing elements in order of appearance. *)
Section Ordering.
Context {T E : Type} `{Element T E}.

(** The elements paired with their positions, from position [i] on. *)
Fixpoint entries_from (i : Z) (els : list E) : list (indexedElement E) :=
  match els with
  | [] => []
  | e :: els' => mkIndexedElement i e :: entries_from (i + 1) els'
  end.

Definition presentEntries (els : list E) : list (indexedElement E) :=
  List.filter (fun x => negb (IsNA (element x))) (entries_from 0 els).

Definition missingPositions (els : list E) : list Z :=
  map index (List.filter (fun x => IsNA (element x)) (entries_from 0 els)).

(** [a] comes before [b] in the requested direction. *)
Definition before (reverse : bool) (a b : E) : bool :=
  if reverse then Less b a else Less a b.

(** Sorted by value, and stable: [x] may precede [y] when its value
    comes before, or when neither value comes before the other and
    [x] was at the earlier position. *)
Definition stablyBefore (reverse : bool) (x y : indexedElement E) : Prop :=
  before reverse (element x) (element y) = true
  \/ (before reverse (element y) (element x) = false /\ index x < index y).

(** The values are ordered by [Less]: it is asymmetric and
    incomparability is transitive (a strict weak ordering). *)
Definition strictWeakOrder (less : E -> E -> bool) : Prop :=
  (forall a b, less a b = true -> less b a = false)
  /\ (forall a b c, less a b = false -> less b c = false -> less a c = false).

(** The same of the values that satisfy [P] only. *)
Definition strictWeakOrderOn (P : E -> Prop) (less : E -> E -> bool) : Prop :=
  (forall a b, P a -> P b -> less a b = true -> less b a = false)
  /\ (forall a b c, P a -> P b -> P c ->
                    less a b = false -> less b c = false -> less a c = false).

(** [e] is a present element of the column. *)
Definition present (els : list E) (e : E) : Prop := In e els /\ IsNA e = false.

(** The present elements of the column are ordered by [Less]. *)
Definition ordered (els : list E) : Prop := strictWeakOrderOn (present els) Less.

(** [order] is what [Order(reverse)] is to return for the column: the
    positions of the present elements stably sorted, then those of the
    missing elements, together a permutation of all positions. *)
Definition stableOrder (els : list E) (reverse : bool) (order : list Z) : Prop :=
  exists sorted : list (indexedElement E),
    order = (map index sorted ++ missingPositions els)%list
    /\ Permutation sorted (presentEntries els)
    /\ StronglySorted (stablyBefore reverse) sorted
    /\ Permutation order (seqZ 0 (len els)).
End Ordering.

(** Tables (section 3): an error-free table has columns without error
    that all have the table's number of rows. *)
Section Tables.
Context {E : Type}.

Definition wellFormed (df : dataframe.GotaDataFrame E) : Prop :=
  dataframe.DfErr df = None
  /\ dataframe.ncols df = len (dataframe.columns df)
  /\ Forall (fun c => Err c = None /\ len (elements c) = dataframe.nrows df)
            (dataframe.columns df).

(** The inverse of a permutation [p] of the positions [0 .. len p - 1]:
    at [x] it has the position of [x] in [p]. *)
Fixpoint positionOf (i x : Z) (p : list Z) : Z :=
  match p with
  | [] => -1
  | y :: p' => if y =? x then i else positionOf (i + 1) x p'
  end.

Definition inverse (p : list Z) : list Z :=
  map (fun x => positionOf 0 x p) (seqZ 0 (len p)).

(** The keys are column names of the table. *)
Definition hasKeys (df : dataframe.GotaDataFrame E) (keys : list string) : Prop :=
  Forall (fun key => In key (map Name (dataframe.columns df))) keys.
End Tables.

End spec.

(** * Properties *)

Import series dataframe.

(** ** Elements *)

Lemma ElementValue_Eq_true {T} `{SeriesType T} (a b : ElementValue T) :
  ElementValue_Eq a b = true <-> nan a = nan b /\ eqb (value a) (value b) = true.
Proof.
  unfold ElementValue_Eq, ElementValue_IsNA, ElementValue_Val.
  rewrite andb_true_iff, Bool.eqb_true_iff. reflexivity.
Qed.

Lemma ElementValue_Eq_missing_present {T} `{SeriesType T} (a b : ElementValue T) :
  nan a = true -> nan b = false -> ElementValue_Eq a b = false.
Proof.
  intros Ha Hb. unfold ElementValue_Eq, ElementValue_IsNA. rewrite Ha, Hb. reflexivity.
Qed.

(** C2: the generic element compares the missing flags and the values,
    but [BoolElementValue.Eq] compares the values only: a missing Boolean
    element whose stored value is [false] is [Eq] to a present [false]. *)
Theorem BoolElementValue_Eq_ignores_missing :
  (forall b be : BoolElementValue,
      BoolElementValue_Eq b be = Bool.eqb (bvalue b) (bvalue be))
  /\ IsNA (mkBoolElementValue false true) = true
  /\ IsNA (mkBoolElementValue false false) = false
  /\ Eq (mkBoolElementValue false true) (mkBoolElementValue false false) = true.
Proof. repeat split. Qed.

(** ** Set and the missing flag *)

Lemma map_alter_invariant {A B} (g : A -> B) (f : A -> A) :
  (forall a, g (f a) = g a) ->
  forall (n : nat) (l : list A), map g (alter f n l) = map g l.
Proof.
  intros Hf n l. revert n.
  induction l as [|a l IH]; intros [|n]; simpl; try reflexivity.
  - rewrite Hf. reflexivity.
  - f_equal. apply IH.
Qed.

Lemma Set_loop_IsNA {T E} `{Element T E} (set_keeps : forall (e : E) (v : T), IsNA (Set_ e v) = IsNA e)
    (pairs : list (Z * E)) :
  forall (els : list E) (l : Z),
    map IsNA (Set_loop els l pairs).1 = map IsNA els.
Proof.
  induction pairs as [|[i nv] pairs IH]; intros els l; simpl; [reflexivity|].
  destruct ((i <? 0) || (i >=? l)); simpl; [reflexivity|].
  rewrite IH. apply map_alter_invariant. intros a. apply set_keeps.
Qed.

Lemma Set_series_IsNaN {T E} `{Element T E}
    (set_keeps : forall (e : E) (v : T), IsNA (Set_ e v) = IsNA e)
    (s : GotaSeries E) (indexes : Indexes) (newvalues : GotaSeries E) :
  IsNaN (Set_series s indexes newvalues) = IsNaN s.
Proof.
  unfold Set_series, IsNaN, with_Err.
  destruct (Err s); [reflexivity|].
  destruct (series.Error newvalues); [reflexivity|].
  destruct (parseIndexes (Len s) indexes) as [idx|err]; [|reflexivity].
  destruct (negb (len idx =? Len newvalues)); [reflexivity|].
  pose proof (Set_loop_IsNA set_keeps (zip idx (elements newvalues)) (elements s) (Len s)) as Hl.
  destruct (Set_loop (elements s) (Len s) (zip idx (elements newvalues))) as [els err].
  exact Hl.
Qed.

(** C10: [ElementValue.Set] stores the value and keeps the missing
    flag; [BoolElementValue.Set] clears it; so after [Series.Set] on a
    column of generic elements [IsNaN] reports what it reported before,
    whatever the indexes and the new values, a missing position
    included. *)
Theorem Set_keeps_missing_flag {T} `{SeriesType T}
    (s : GotaSeries (ElementValue T)) (indexes : Indexes)
    (newvalues : GotaSeries (ElementValue T)) :
  (forall (ev : ElementValue T) (item : T),
      Val (Set_ ev item) = item /\ IsNA (Set_ ev item) = IsNA ev)
  /\ (forall (b : BoolElementValue) (other : bool),
        Val (Set_ b other) = other /\ IsNA (Set_ b other) = false)
  /\ IsNaN (Set_series s indexes newvalues) = IsNaN s
  /\ (forall i : nat, IsNaN s !! i = Some true ->
        IsNaN (Set_series s indexes newvalues) !! i = Some true).
Proof.
  assert (Hs : IsNaN (Set_series s indexes newvalues) = IsNaN s).
  { apply Set_series_IsNaN. intros e v. reflexivity. }
  repeat split; try assumption.
  intros i Hi. rewrite Hs. exact Hi.
Qed.

(** The write does take place: the missing element at position 1 gets
    the value 7 and is still reported missing. *)
Example Set_on_missing_position :
  let s := mkGotaSeries "x" [mkElementValue 5 false; mkElementValue 0 true] None in
  let r := Set_series s (IdxInt 1) (NewSeries "" [7]) in
  elements r = [mkElementValue 5 false; mkElementValue 7 true]
  /\ Err r = None /\ IsNaN r = [false; true].
Proof. repeat split. Qed.

Lemma Set_keeps_missing_flag_witness :
  let s := mkGotaSeries "x" [mkElementValue 5 false; mkElementValue 0 true] None in
  IsNaN s !! 1%nat = Some true
  /\ IsNaN (Set_series s (IdxInt 1) (NewSeries "" [7])) !! 1%nat = Some true.
Proof.
  intros s. split; [reflexivity|].
  apply (proj2 (proj2 (proj2 (Set_keeps_missing_flag s (IdxInt 1) (NewSeries "" [7]))))).
  reflexivity.
Defined.

(** ** Slice *)

(** Past its guard, [Slice] is [Subset] on the range. *)
Lemma Slice_is_Subset {T E} `{Element T E} (s : GotaSeries E) (j k : Z) :
  Err s = None -> 0 <= j <= k -> k < Len s ->
  Slice s j k = Subset s (IdxInts (seqZ j (k - j))).
Proof.
  intros He Hjk Hk. unfold Slice. rewrite He.
  rewrite Z.gtb_ltb, Z.geb_leb.
  replace (k <? j) with false by (symmetry; apply Z.ltb_ge; lia).
  replace (j <? 0) with false by (symmetry; apply Z.ltb_ge; lia).
  replace (Len s <=? k) with false by (symmetry; apply Z.leb_gt; lia).
  reflexivity.
Qed.

(** The guard rejects [k = Len s]. *)
Lemma Slice_rejects_length {T E} `{Element T E} (s : GotaSeries E) (j : Z) :
  Err s = None ->
  Slice s j (Len s) = Ret (with_Err (Empty s) "slice index out of bounds").
Proof.
  intros He. unfold Slice. rewrite He.
  replace (Len s >=? Len s) with true by (symmetry; rewrite Z.geb_leb; apply Z.leb_refl).
  rewrite !orb_true_r. reflexivity.
Qed.

(** C8: on the column [1, 2, 3], [Slice(0, 3)] returns the error
    "slice index out of bounds" although 3 does not exceed the length,
    while [Subset] on the range [0, 1, 2] returns the three elements;
    [Slice(0, 2)] succeeds and equals [Subset] on [0, 1]. *)
Theorem Slice_full_range_fails :
  let s : GotaSeries (ElementValue Z) := NewSeries "x" [1; 2; 3] in
  Slice s 0 3 = Ret (mkGotaSeries "x" [] (Some "slice index out of bounds"))
  /\ Subset s (IdxInts (seqZ 0 3)) = Ret (NewSeries "x" [1; 2; 3])
  /\ Slice s 0 2 = Subset s (IdxInts (seqZ 0 2))
  /\ Slice s 0 2 = Ret (NewSeries "x" [1; 2]).
Proof. repeat split. Qed.

(** ** Subset and missing elements *)

(** [Subset] rebuilds the elements from their values: none of the
    elements of the result is missing. *)
Lemma Subset_IsNaN {T E} `{Element T E}
    (new_present : forall t : T, IsNA (NewElement t : E) = false)
    (s r : GotaSeries E) (idx : list Z) :
  Err s = None -> Subset s (IdxInts idx) = Ret r ->
  IsNaN r = map (fun _ => false) (elements r).
Proof.
  intros He. unfold Subset. rewrite He. simpl.
  destruct (rmapM _ idx) as [new_t|]; simpl; [|discriminate].
  intros [= <-]. unfold IsNaN, NewElements. simpl.
  rewrite !map_map. apply map_ext. intros t. apply new_present.
Qed.

(** On the column [x = [missing, 5]], [Subset] with [[1, 0]] returns
    [5, 0], both present. *)
Example GotaSeries_Subset_rebuilds_elements :
  let x : GotaSeries (ElementValue Z) :=
    mkGotaSeries "x" [mkElementValue 0 true; mkElementValue 5 false] None in
  IsNaN x = [true; false]
  /\ Subset x (IdxInts [1; 0])
     = Ret (mkGotaSeries "x" [mkElementValue 5 false; mkElementValue 0 false] None).
Proof. split; reflexivity. Qed.

(** ** The error guard *)

Section Guards.
Context {T E : Type} `{Element T E}.
Variable fixColnames : list string -> list string.
Variable missingElement : E.

(** The operations that start with [if df.Err != nil { return df }]
    return the errored frame itself. *)
Lemma guarded_operations_return_receiver (df : GotaDataFrame E) (err : error) :
  DfErr df = Some err ->
  (forall indexes, Subset_df df indexes = Ret df)
  /\ (forall s, Mutate fixColnames df s = Ret df)
  /\ (forall fromFloat64 elemBool agg filters,
        FilterAggregation fixColnames fromFloat64 elemBool df agg filters = Ret df)
  /\ (forall colType elemType castElem f,
        RApply fixColnames elemType colType castElem df f = Ret df).
Proof.
  intros He. unfold Subset_df, Mutate, FilterAggregation, RApply. rewrite He.
  repeat split.
Qed.

(** A frame built as [GotaDataFrame{Err: err}] has no column, so no key
    is found on it. *)
Lemma keyErrors_errDataFrame (err : error) (b : GotaDataFrame E) (keys : list string) :
  keys <> [] -> keyErrors (errDataFrame err) b keys <> [].
Proof.
  destruct keys as [|key keys]; [congruence|]. intros _. simpl. discriminate.
Qed.
End Guards.

(** C1: the joins have no guard on the receiver's error.  On the frame
    [GotaDataFrame{Err: "boom"}] and the error-free table [b] with the
    columns [id] and [y], [CrossJoin] returns an error-free table (the
    two columns of [b], emptied): the error is lost; the keyed joins
    return the fresh error that the key is not found on the left, not
    "boom".  [Subset] on the same frame returns it untouched. *)
Theorem joins_ignore_receiver_error
    (fixColnames : list string -> list string) (missingElement : ElementValue Z) :
  let df : GotaDataFrame (ElementValue Z) := errDataFrame "boom" in
  let b := mkGotaDataFrame [NewSeries "id" [2; 3; 4]; NewSeries "y" [7; 8; 9]] 2 3 None in
  let notfound := errDataFrame ("can't find key " ++ quoted "id" ++ " on left DataFrame") in
  (exists r, CrossJoin fixColnames missingElement df b = Ret r
             /\ DfErr r = None /\ ncols r = 2 /\ nrows r = 0)
  /\ InnerJoin fixColnames missingElement df b ["id"] = Ret notfound
  /\ LeftJoin fixColnames missingElement df b ["id"] = Ret notfound
  /\ RightJoin fixColnames missingElement df b ["id"] = Ret notfound
  /\ OuterJoin fixColnames missingElement df b ["id"] = Ret notfound
  /\ DfErr notfound <> DfErr df
  /\ Subset_df df (IdxInts [0]) = Ret df.
Proof.
  intros df b notfound. split; [|repeat split; discriminate].
  eexists. split; [reflexivity|]. repeat split.
Qed.

(** ** Mutate and the caller's column *)

(** Whenever [Mutate] returns an error-free table, one of its columns
    refers to the very storage of the argument. *)
Lemma Mutate_stores_argument {T E} `{Element T E} (fixColnames : list string -> list string)
    (df df' : shared.GotaDataFrame) (s : shared.Series1) (h h' : shared.heap) :
  shared.Mutate fixColnames df s h = Ret (df', h') ->
  shared.DfErr df = None -> shared.DfErr df' = None ->
  exists c, In c (shared.columns df') /\ shared.elements c = shared.elements s.
Proof.
  unfold shared.Mutate. intros Hm Hdf Hdf'. rewrite Hdf in Hm.
  destruct (negb _) in Hm; [injection Hm as <- <-; discriminate|].
  destruct (shared.Copy_df fixColnames df h) as [df_copy h1].
  set (idx := findInStringSlice (shared.Name s) (shared.Names df)) in *.
  assert (Hin : forall cols, In s cols ->
            shared.DfErr (shared.buildFrame fixColnames h1 cols) = None ->
            exists c, In c (shared.columns (shared.buildFrame fixColnames h1 cols))
                      /\ shared.elements c = shared.elements s).
  { intros cols Hs. unfold shared.buildFrame.
    destruct (shared.checkColumnsDimensions h1 cols) as [[nr nc] [e|]]; simpl; [discriminate|].
    intros _. generalize (fixColnames (map shared.Name cols)). revert Hs.
    induction cols as [|c cols IH]; simpl; [tauto|].
    intros [->|Hs] names.
    - eexists. split; [left; reflexivity|reflexivity].
    - destruct (IH Hs (tl names)) as (c' & Hc' & Hel). exists c'. auto. }
  destruct (negb (idx =? -1)) eqn:Hidx.
  - destruct (idx <? len (shared.columns df_copy)) eqn:Hlt; simpl in Hm; [|discriminate].
    injection Hm as <- <-. apply Hin; [|assumption].
    apply list_elem_of_In, list_elem_of_lookup. exists (Z.to_nat idx).
    apply list_lookup_insert_eq.
    apply negb_true_iff, Z.eqb_neq in Hidx. apply Z.ltb_lt in Hlt. unfold len in Hlt.
    assert (0 <= idx).
    { assert (Hg : forall l i, 0 <= i ->
                findInStringSlice_from i (shared.Name s) l = -1
                \/ 0 <= findInStringSlice_from i (shared.Name s) l).
      { induction l as [|a l IH]; intros i Hi; simpl; [auto|].
        destruct (String.eqb a (shared.Name s)); [auto|]. apply IH. lia. }
      specialize (Hg (shared.Names df) 0 (Z.le_refl 0)).
      fold (findInStringSlice (shared.Name s) (shared.Names df)) in Hg.
      fold idx in Hg. lia. }
    lia.
  - simpl in Hm. injection Hm as <- <-. apply Hin; [|assumption].
    apply in_or_app. right. left. reflexivity.
Qed.

(** C9: the table [a = [1, 2]] and the caller's column [b = [3, 4]].
    After [df.Mutate(b)], setting position 0 of the caller's column to 9
    changes the returned table, and so does appending 5 to it, because
    [Mutate] stores the argument without copying it; a write to the
    column [a] the table was built from leaves the returned table
    unchanged, since the receiver is copied. *)
Theorem Mutate_shares_storage (fixColnames : list string -> list string) :
  let present := map (fun v : Z => mkElementValue v false) in
  let h0 : shared.heap := ∅ in
  let '(a, h0) := shared.NewSeries "a" [1; 2] h0 in
  let df := shared.mkGotaDataFrame [a] 1 2 None in
  let '(b, h0) := shared.NewSeries "b" [3; 4] h0 in
  let '(nine, h0) := shared.NewSeries "" [9] h0 in
  exists df' h1,
    shared.Mutate fixColnames df b h0 = Ret (df', h1)
    /\ shared.DfErr df' = None
    /\ shared.contents h1 df' = [present [1; 2]; present [3; 4]]
    /\ shared.contents (shared.Set_series b (IdxInt 0) nine h1).2 df'
       = [present [1; 2]; present [9; 4]]
    /\ shared.contents (shared.Append b [5] h1) df'
       = [present [1; 2]; present [3; 4; 5]]
    /\ shared.contents (shared.Set_series a (IdxInt 0) nine h1).2 df'
       = [present [1; 2]; present [3; 4]].
Proof.
  vm_compute. do 2 eexists. repeat split.
Qed.

(** ** Type inference *)

Section InferenceFacts.
Variables Atoi_ok ParseFloat_ok : string -> bool.

Lemma findType_loop_flags (arr : list string) :
  forall fl : typeFlags,
    let any := spec.anyClassified Atoi_ok ParseFloat_ok in
    findType_loop Atoi_ok ParseFloat_ok arr fl
    = mkTypeFlags (hasFloats fl || any Float arr) (hasInts fl || any Int arr)
                  (hasBools fl || any Bool arr) (hasStrings fl || any String arr).
Proof.
  induction arr as [|str arr IH]; intros [f i b s]; simpl.
  - rewrite !orb_false_r. reflexivity.
  - unfold spec.classify, spec.ignored.
    destruct (String.eqb str "" || String.eqb str "NaN"); simpl.
    { rewrite IH. reflexivity. }
    destruct (Atoi_ok str); simpl.
    { rewrite IH. simpl. rewrite orb_true_r. reflexivity. }
    destruct (ParseFloat_ok str); simpl.
    { rewrite IH. simpl. rewrite orb_true_r. reflexivity. }
    destruct (String.eqb str "true" || String.eqb str "false"); simpl;
      rewrite IH; simpl; rewrite orb_true_r; reflexivity.
Qed.

Lemma findType_inferType (arr : list string) :
  findType Atoi_ok ParseFloat_ok arr
  = match spec.inferType Atoi_ok ParseFloat_ok arr with
    | Some t => (t, None)
    | None => (String, Some "couldn't detect type")
    end.
Proof.
  unfold findType, spec.inferType. rewrite findType_loop_flags. simpl.
  destruct (spec.anyClassified _ _ String arr); [reflexivity|].
  destruct (spec.anyClassified _ _ Bool arr); [reflexivity|].
  destruct (spec.anyClassified _ _ Float arr); [reflexivity|].
  destruct (spec.anyClassified _ _ Int arr); reflexivity.
Qed.

Lemma classify_ignored (tok : string) :
  spec.classify Atoi_ok ParseFloat_ok tok = None <-> spec.ignored tok = true.
Proof.
  unfold spec.classify. destruct (spec.ignored tok); [tauto|].
  destruct (Atoi_ok tok); [split; discriminate|].
  destruct (ParseFloat_ok tok); [split; discriminate|].
  destruct (String.eqb tok "true" || String.eqb tok "false"); split; discriminate.
Qed.

Lemma anyClassified_cons (t : Type_) (tok : string) (arr : list string) :
  spec.anyClassified Atoi_ok ParseFloat_ok t (tok :: arr)
  = match spec.classify Atoi_ok ParseFloat_ok tok with
    | Some t' => spec.Type_eqb t t'
    | None => false
    end || spec.anyClassified Atoi_ok ParseFloat_ok t arr.
Proof. reflexivity. Qed.

Lemma none_classified (arr : list string) :
  (forall t, spec.anyClassified Atoi_ok ParseFloat_ok t arr = false)
  <-> forallb spec.ignored arr = true.
Proof.
  induction arr as [|tok arr IH]; [simpl; tauto|].
  cbn [forallb]. rewrite andb_true_iff, <- IH, <- classify_ignored. split.
  - intros Hall. split.
    + destruct (spec.classify Atoi_ok ParseFloat_ok tok) as [t0|] eqn:Hc; [|reflexivity].
      specialize (Hall t0). rewrite anyClassified_cons, Hc in Hall.
      destruct t0; discriminate.
    + intros t. specialize (Hall t). rewrite anyClassified_cons in Hall.
      apply orb_false_iff in Hall. tauto.
  - intros [Hc Hall] t. rewrite anyClassified_cons, Hc. apply Hall.
Qed.

(** Inference fails exactly when every token is ignored. *)
Lemma inferType_None (arr : list string) :
  spec.inferType Atoi_ok ParseFloat_ok arr = None
  <-> forallb spec.ignored arr = true.
Proof.
  rewrite <- none_classified. unfold spec.inferType. split.
  - intros Hn t.
    destruct (spec.anyClassified _ _ String arr) eqn:Hs; [discriminate|].
    destruct (spec.anyClassified _ _ Bool arr) eqn:Hb; [discriminate|].
    destruct (spec.anyClassified _ _ Float arr) eqn:Hf; [discriminate|].
    destruct (spec.anyClassified _ _ Int arr) eqn:Hi; [discriminate|].
    destruct t; assumption.
  - intros Hall. rewrite !Hall. reflexivity.
Qed.
End InferenceFacts.

(** C5: for any outcome of the two parsers, [findType] returns the type
    the rule of the design document gives (ignored tokens, the
    classification order Integer, Float, Boolean, Text, the priority
    Text > Boolean > Float > Integer whatever the frequencies), and an
    error exactly when every token is ignored; with the decimal syntax
    of [strconv] the five scenarios come out as stated. *)
Theorem findType_follows_priority :
  (forall (Atoi_ok ParseFloat_ok : string -> bool) (arr : list string),
      findType Atoi_ok ParseFloat_ok arr
      = match spec.inferType Atoi_ok ParseFloat_ok arr with
        | Some t => (t, None)
        | None => (String, Some "couldn't detect type")
        end)
  /\ (forall (Atoi_ok ParseFloat_ok : string -> bool) (arr : list string),
        (findType Atoi_ok ParseFloat_ok arr).2 <> None
        <-> forallb spec.ignored arr = true)
  /\ findType strconv.Atoi_ok strconv.ParseFloat_ok ["1"; "2"; "3"] = (Int, None)
  /\ findType strconv.Atoi_ok strconv.ParseFloat_ok ["1"; "2.5"] = (Float, None)
  /\ findType strconv.Atoi_ok strconv.ParseFloat_ok ["true"; "false"] = (Bool, None)
  /\ findType strconv.Atoi_ok strconv.ParseFloat_ok ["1"; "a"] = (String, None)
  /\ findType strconv.Atoi_ok strconv.ParseFloat_ok ["NaN"; ""]
     = (String, Some "couldn't detect type").
Proof.
  split; [exact findType_inferType|].
  split; [|repeat split].
  intros Atoi_ok ParseFloat_ok arr. rewrite findType_inferType.
  rewrite <- (inferType_None Atoi_ok ParseFloat_ok).
  destruct (spec.inferType Atoi_ok ParseFloat_ok arr); simpl; split;
    try discriminate; try reflexivity; intros Hn; exfalso; apply Hn; reflexivity.
Qed.

(** Frequency does not matter: one text token among many integers. *)
Example findType_one_text_token :
  findType strconv.Atoi_ok strconv.ParseFloat_ok ["1"; "2"; "3"; "4"; "x"; "5"; "-6"; "+7"]
  = (String, None)
  /\ findType strconv.Atoi_ok strconv.ParseFloat_ok ["1e3"; "7"; ".5"; "-Inf"; "NaN"] = (Float, None)
  /\ findType strconv.Atoi_ok strconv.ParseFloat_ok ["True"] = (String, None).
Proof. repeat split. Qed.

(** ** Order *)

Section StableSortFacts.
Context {A : Type} (less : A -> A -> bool) (key : A -> Z) (dom : A -> Prop).
Hypothesis less_asym : forall a b, dom a -> dom b -> less a b = true -> less b a = false.
Hypothesis less_negtrans :
  forall a b c, dom a -> dom b -> dom c ->
                less a b = false -> less b c = false -> less a c = false.

(** By value, then by key. *)
Definition lexBefore (a b : A) : Prop :=
  less a b = true \/ (less b a = false /\ key a < key b).

Lemma less_trans a b c :
  dom a -> dom b -> dom c -> less a b = true -> less b c = true -> less a c = true.
Proof.
  intros Ha Hb Hc Hab Hbc. destruct (less a c) eqn:Hac; [reflexivity|].
  pose proof (less_negtrans a c b Ha Hc Hb Hac (less_asym _ _ Hb Hc Hbc)) as Hn.
  congruence.
Qed.

Lemma sift_Permutation x rprefix : sift less x rprefix ≡ₚ x :: rprefix.
Proof.
  induction rprefix as [|y rp IH]; simpl; [reflexivity|].
  destruct (less x y); [|reflexivity].
  rewrite IH. apply perm_swap.
Qed.

(** One step of the insertion: the entry [x], whose key is above
    every key of the prefix, lands behind the entries it is not [less]
    than. *)
Lemma sift_sorted x rprefix :
  dom x -> Forall dom rprefix ->
  StronglySorted (flip lexBefore) rprefix ->
  Forall (fun y => key y < key x) rprefix ->
  StronglySorted (flip lexBefore) (sift less x rprefix).
Proof.
  intros Hdx.
  induction rprefix as [|y rp IH]; simpl; intros Hd Hs Hk.
  - repeat constructor.
  - apply StronglySorted_cons in Hs as [Hy Hs].
    apply Forall_cons in Hk as [Hyx Hk].
    apply Forall_cons in Hd as [Hdy Hd].
    destruct (less x y) eqn:Hxy.
    + apply StronglySorted_cons. split; [|apply IH; assumption].
      rewrite (sift_Permutation x rp). constructor; [|exact Hy].
      left. exact Hxy.
    + apply StronglySorted_cons. split; [|apply StronglySorted_cons; auto].
      constructor; [right; split; assumption|].
      rewrite Forall_forall in Hy, Hk, Hd |- *. intros z Hz.
      right. split; [|apply Hk, Hz].
      destruct (Hy z Hz) as [Hzy | [Hyz _]].
      * destruct (less x z) eqn:Hxz; [|reflexivity].
        rewrite (less_trans x z y Hdx (Hd z Hz) Hdy Hxz Hzy) in Hxy. discriminate.
      * apply (less_negtrans x y z); auto.
Qed.

Lemma fold_sift_Permutation data :
  forall rprefix,
    fold_left (fun rp x => sift less x rp) data rprefix ≡ₚ rev data ++ rprefix.
Proof.
  induction data as [|x data IH]; intros rp; simpl; [reflexivity|].
  rewrite IH, sift_Permutation, <- app_assoc. simpl.
  reflexivity.
Qed.

Lemma fold_sift_sorted data :
  forall rprefix,
    Forall dom rprefix -> Forall dom data ->
    StronglySorted (flip lexBefore) rprefix ->
    StronglySorted (fun a b => key a < key b) data ->
    (forall y x, y ∈ rprefix -> x ∈ data -> key y < key x) ->
    StronglySorted (flip lexBefore) (fold_left (fun rp x => sift less x rp) data rprefix).
Proof.
  induction data as [|x data IH]; intros rp Hdr Hdd Hs Hd Hlt; simpl; [exact Hs|].
  apply StronglySorted_cons in Hd as [Hx Hd].
  apply Forall_cons in Hdd as [Hdx Hdd].
  apply IH; [| exact Hdd | | exact Hd |].
  - rewrite sift_Permutation. constructor; assumption.
  - apply sift_sorted; [exact Hdx|exact Hdr|exact Hs|].
    apply Forall_forall. intros y Hy. apply Hlt; [exact Hy|left].
  - intros y z Hy Hz. rewrite sift_Permutation in Hy.
    apply elem_of_cons in Hy as [-> | Hy].
    + rewrite Forall_forall in Hx. apply Hx, Hz.
    + apply Hlt; [exact Hy|right; exact Hz].
Qed.

Lemma StronglySorted_flip_rev (R : relation A) l :
  StronglySorted (flip R) l -> StronglySorted R (rev l).
Proof.
  induction l as [|a l IH]; simpl; intros Hs; [constructor|].
  apply StronglySorted_cons in Hs as [Ha Hs].
  apply StronglySorted_app_2; [| apply IH, Hs | repeat constructor].
  intros x1 x2 H1 H2. apply list_elem_of_singleton in H2 as ->.
  rewrite Forall_forall in Ha. apply Ha.
  apply list_elem_of_In, in_rev, list_elem_of_In in H1. exact H1.
Qed.

Lemma sort_Stable_Permutation data : sort_Stable less data ≡ₚ data.
Proof.
  unfold sort_Stable. rewrite <- Permutation_rev, fold_sift_Permutation, app_nil_r.
  symmetry. apply Permutation_rev.
Qed.

(** Entries that come in the order of their keys leave sorted by
    value, entries of equivalent value in the order of their keys. *)
Lemma sort_Stable_sorted data :
  Forall dom data ->
  StronglySorted (fun a b => key a < key b) data ->
  StronglySorted lexBefore (sort_Stable less data).
Proof.
  intros Hdom Hd. apply StronglySorted_flip_rev, fold_sift_sorted.
  - constructor.
  - exact Hdom.
  - constructor.
  - exact Hd.
  - intros y x Hy. inversion Hy.
Qed.
End StableSortFacts.

Section OrderFacts.
Context {T E : Type} `{Element T E}.

Lemma Order_split_entries (els : list E) :
  forall i,
    Order_split i els
    = (List.filter (fun x => negb (IsNA (element x))) (spec.entries_from i els),
       map index (List.filter (fun x => IsNA (element x)) (spec.entries_from i els))).
Proof.
  induction els as [|e els IH]; intros i; simpl; [reflexivity|].
  rewrite IH. destruct (IsNA e); reflexivity.
Qed.

Lemma entries_from_index (els : list E) :
  forall i, map index (spec.entries_from i els) = seqZ i (len els).
Proof.
  induction els as [|e els IH]; intros i; simpl; [reflexivity|].
  rewrite IH. unfold len. simpl length.
  rewrite (seqZ_cons i (Z.of_nat (S (length els)))) by lia.
  do 2 f_equal; lia.
Qed.

Lemma entries_from_bounds (els : list E) :
  forall i x, x ∈ spec.entries_from i els -> i <= index x.
Proof.
  induction els as [|e els IH]; intros i x Hx; simpl in Hx.
  - inversion Hx.
  - apply elem_of_cons in Hx as [-> | Hx]; simpl; [lia|].
    apply IH in Hx. lia.
Qed.

Lemma entries_from_In (els : list E) :
  forall i x, In x (spec.entries_from i els) -> In (element x) els.
Proof.
  induction els as [|e els IH]; intros i x Hx; simpl in Hx; [contradiction|].
  destruct Hx as [<- | Hx]; [left; reflexivity|right; apply (IH _ _ Hx)].
Qed.

Lemma entries_from_increasing (els : list E) :
  forall i, StronglySorted (fun a b => index a < index b) (spec.entries_from i els).
Proof.
  induction els as [|e els IH]; intros i; simpl; constructor; [apply IH|].
  apply Forall_forall. intros x Hx. apply entries_from_bounds in Hx. simpl. lia.
Qed.

Lemma StronglySorted_filter {A} (R : relation A) (p : A -> bool) (l : list A) :
  StronglySorted R l -> StronglySorted R (List.filter p l).
Proof.
  induction 1 as [|a l Hs IH Ha]; simpl; [constructor|].
  destruct (p a); [|exact IH].
  constructor; [exact IH|].
  rewrite Forall_forall in Ha |- *. intros x Hx.
  apply Ha. apply list_elem_of_In, filter_In in Hx as [Hx _].
  apply list_elem_of_In, Hx.
Qed.

Lemma filter_split_Permutation {A} (p : A -> bool) (l : list A) :
  (List.filter (fun x => negb (p x)) l ++ List.filter p l)%list ≡ₚ l.
Proof.
  induction l as [|a l IH]; simpl; [reflexivity|].
  destruct (p a); simpl.
  - rewrite <- Permutation_middle, IH. reflexivity.
  - rewrite IH. reflexivity.
Qed.

Lemma presentEntries_present (els : list E) :
  Forall (fun x => spec.present els (element x)) (spec.presentEntries els).
Proof.
  apply Forall_forall. intros x Hx. unfold spec.presentEntries in Hx.
  apply list_elem_of_In, filter_In in Hx as [Hx Hna]. split.
  - apply (entries_from_In _ _ _ Hx).
  - apply negb_true_iff, Hna.
Qed.

Lemma before_ordered (els : list E) (reverse : bool) :
  spec.ordered els ->
  spec.strictWeakOrderOn (spec.present els) (spec.before reverse).
Proof.
  intros [Hasym Hneg]. destruct reverse; simpl; split; eauto.
Qed.

Lemma strictWeakOrder_ordered (els : list E) :
  spec.strictWeakOrder (Less (E := E)) -> spec.ordered els.
Proof.
  intros [Hasym Hneg]. split; eauto.
Qed.

(** The comparison [Order] hands to [sort.Stable] is [before] on the
    entries' elements. *)
Lemma Order_sorts_with_before (s : GotaSeries E) (reverse : bool) :
  Order s reverse
  = (map index (sort_Stable (fun x y => spec.before reverse (element x) (element y))
                            (spec.presentEntries (elements s)))
     ++ spec.missingPositions (elements s))%list.
Proof.
  unfold Order. rewrite Order_split_entries.
  unfold spec.presentEntries, spec.missingPositions. destruct reverse; reflexivity.
Qed.

Lemma Order_spec (s : GotaSeries E) (reverse : bool) :
  spec.ordered (elements s) ->
  spec.stableOrder (elements s) reverse (Order s reverse).
Proof.
  intros Hord. destruct (before_ordered _ reverse Hord) as [Hasym Hneg].
  set (less := fun x y : indexedElement E => spec.before reverse (element x) (element y)).
  exists (sort_Stable less (spec.presentEntries (elements s))).
  split; [apply Order_sorts_with_before|].
  split; [apply sort_Stable_Permutation|].
  split.
  - apply (sort_Stable_sorted less index
             (fun x => spec.present (elements s) (element x))).
    + intros a b. apply Hasym.
    + intros a b c. apply Hneg.
    + apply presentEntries_present.
    + apply StronglySorted_filter, entries_from_increasing.
  - rewrite Order_sorts_with_before. fold less.
    rewrite (sort_Stable_Permutation less).
    unfold spec.presentEntries, spec.missingPositions.
    rewrite <- map_app, filter_split_Permutation.
    rewrite entries_from_index. reflexivity.
Qed.
End OrderFacts.

Definition col_3_1_2_missing : GotaSeries (ElementValue Z) :=
  mkGotaSeries "x" [mkElementValue 3 false; mkElementValue 1 false;
                    mkElementValue 2 false; mkElementValue 0 true] None.

Lemma int_Less_strictWeakOrder :
  spec.strictWeakOrder (Less (E := ElementValue Z)).
Proof.
  split; simpl; unfold ElementValue_Less, ElementValue_Val; simpl.
  - intros a b Hab. apply Z.ltb_lt in Hab. apply Z.ltb_ge. lia.
  - intros a b c Hab Hbc. apply Z.ltb_ge in Hab, Hbc. apply Z.ltb_ge. lia.
Qed.

(** The byte-wise order of strings is a strict weak ordering. *)
Lemma string_compare_cotrans (a b c : string) :
  String.compare a c = Lt -> String.compare a b = Lt \/ String.compare b c = Lt.
Proof.
  revert b c. induction a as [|ca a IH]; intros [|cb b] [|cc c]; simpl; auto; try discriminate.
  unfold Ascii.compare.
  destruct (N.compare_spec (N_of_ascii ca) (N_of_ascii cc)) as [Hac|Hac|Hac];
    destruct (N.compare_spec (N_of_ascii ca) (N_of_ascii cb)) as [Hab|Hab|Hab];
    destruct (N.compare_spec (N_of_ascii cb) (N_of_ascii cc)) as [Hbc|Hbc|Hbc];
    auto; try discriminate; try lia.
Qed.

Lemma string_Less_strictWeakOrder :
  spec.strictWeakOrder (Less (E := ElementValue string)).
Proof.
  split; simpl; unfold ElementValue_Less, ElementValue_Val; simpl; unfold String.ltb.
  - intros a b. rewrite (String.compare_antisym (value b) (value a)).
    destruct (String.compare (value a) (value b)); simpl; congruence.
  - intros a b c Hab Hbc.
    destruct (String.compare (value a) (value c)) eqn:Hac; try reflexivity.
    destruct (string_compare_cotrans _ (value b) _ Hac) as [H1|H1];
      rewrite H1 in *; discriminate.
Qed.

Lemma bool_Less_strictWeakOrder :
  spec.strictWeakOrder (Less (E := BoolElementValue)).
Proof.
  split; simpl; unfold BoolElementValue_Less, BoolElementValue_Val.
  - intros [[] ?] [[] ?]; simpl; congruence.
  - intros [[] ?] [[] ?] [[] ?]; simpl; congruence.
Qed.

(** The IEEE comparison [<] on the values other than NaN is the
    lexicographic order of these keys: the sign class first, then the
    exponent and the mantissa, both negated below zero. *)
Definition float64_key (f : float64) : Z * Z * Z :=
  match f with
  | S754_zero _ | S754_nan => (0, 0, 0)
  | S754_infinity s => (if s then -2 else 2, 0, 0)
  | S754_finite s m e => if s then (-1, - e, - Z.pos m) else (1, e, Z.pos m)
  end.

Definition keyBefore (a b : Z * Z * Z) : Prop :=
  let '(a1, a2, a3) := a in
  let '(b1, b2, b3) := b in
  a1 < b1 \/ (a1 = b1 /\ (a2 < b2 \/ (a2 = b2 /\ a3 < b3))).

Lemma SFltb_key (a b : float64) :
  a <> S754_nan -> b <> S754_nan ->
  (SFltb a b = true <-> keyBefore (float64_key a) (float64_key b)).
Proof.
  intros Ha Hb. unfold SFltb, SFcompare.
  destruct a as [sa|sa| |sa ma ea], b as [sb|sb| |sb mb eb]; try congruence;
    repeat match goal with s : bool |- _ => destruct s end; simpl;
    try (split; [discriminate|lia]); try (split; [lia|reflexivity]);
    try (split; [reflexivity|lia]).
  - change (Pos.compare_cont Datatypes.Eq ma mb) with (Pos.compare ma mb).
    destruct (Z.compare_spec ea eb) as [He|He|He];
      [subst; destruct (Pos.compare_spec ma mb) as [Hm|Hm|Hm]; simpl|..];
      split; intros Hlt; try discriminate; try reflexivity; try lia.
  - change (Pos.compare_cont Datatypes.Eq ma mb) with (Pos.compare ma mb).
    destruct (Z.compare_spec ea eb) as [He|He|He];
      [subst; destruct (Pos.compare_spec ma mb) as [Hm|Hm|Hm]; simpl|..];
      split; intros Hlt; try discriminate; try reflexivity; try lia.
Qed.

(** A Float column without a NaN value among its present elements is
    ordered by [Less]. *)
Lemma float_Less_ordered (els : list (ElementValue float64)) :
  Forall (fun e => IsNA e = false -> value e <> S754_nan) els ->
  spec.ordered els.
Proof.
  intros Hnan.
  assert (Hv : forall e, spec.present els e -> value e <> S754_nan).
  { intros e [Hin Hna]. apply (proj1 (Forall_forall _ _) Hnan e); [|exact Hna].
    apply list_elem_of_In, Hin. }
  split; simpl; unfold ElementValue_Less, ElementValue_Val; simpl.
  - intros a b Pa Pb Hab.
    apply (SFltb_key _ _ (Hv a Pa) (Hv b Pb)) in Hab.
    destruct (SFltb (value b) (value a)) eqn:Hba; [|reflexivity].
    apply (SFltb_key _ _ (Hv b Pb) (Hv a Pa)) in Hba.
    destruct (float64_key (value a)) as [[a1 a2] a3],
             (float64_key (value b)) as [[b1 b2] b3]. simpl in *. lia.
  - intros a b c Pa Pb Pc Hab Hbc.
    destruct (SFltb (value a) (value c)) eqn:Hac; [|reflexivity].
    apply (SFltb_key _ _ (Hv a Pa) (Hv c Pc)) in Hac.
    assert (Hab' : ~ keyBefore (float64_key (value a)) (float64_key (value b))).
    { intros Hk. apply (SFltb_key _ _ (Hv a Pa) (Hv b Pb)) in Hk. congruence. }
    assert (Hbc' : ~ keyBefore (float64_key (value b)) (float64_key (value c))).
    { intros Hk. apply (SFltb_key _ _ (Hv b Pb) (Hv c Pc)) in Hk. congruence. }
    destruct (float64_key (value a)) as [[a1 a2] a3],
             (float64_key (value b)) as [[b1 b2] b3],
             (float64_key (value c)) as [[c1 c2] c3]. simpl in *. lia.
Qed.

Definition float64_two : float64 := S754_finite false 4503599627370496 (-51).

(** The column [NewSeries] builds from [2.0, NaN, 1.0]: three present
    elements, the second with a NaN value. *)
Definition col_2_NaN_1 : GotaSeries (ElementValue float64) :=
  NewSeries "x" [float64_two; S754_nan; float64_one].

(** C6, a column that [Order] does not sort: in the Float column [2.0, NaN, 1.0]
    no element is missing and [Less] is false of every pair with the
    NaN, so the insertion sort [sort.Stable] runs on three entries
    moves nothing: [Order(false)] is [0, 1, 2], with 2.0 before 1.0. *)
Lemma Order_float_NaN_not_sorted :
  Order col_2_NaN_1 false = [0; 1; 2]
  /\ IsNaN col_2_NaN_1 = [false; false; false]
  /\ ~ spec.stableOrder (elements col_2_NaN_1) false (Order col_2_NaN_1 false).
Proof.
  split; [reflexivity|]. split; [reflexivity|].
  intros (sorted & Hord & Hperm & Hsorted & _).
  change (Order col_2_NaN_1 false) with [0; 1; 2] in Hord.
  change (spec.missingPositions (elements col_2_NaN_1)) with (@nil Z) in Hord.
  rewrite app_nil_r in Hord.
  destruct sorted as [|a [|b [|c [|d rest]]]]; try discriminate.
  injection Hord as Ha Hb Hc.
  assert (Hin : forall x, x ∈ [a; b; c] ->
                  x ∈ spec.presentEntries (elements col_2_NaN_1)).
  { intros x Hx. rewrite <- Hperm. exact Hx. }
  apply StronglySorted_cons in Hsorted as [Hac _].
  apply Forall_cons in Hac as [_ Hac]. apply Forall_cons in Hac as [Hac _].
  assert (Ha' : a = mkIndexedElement 0 (mkElementValue float64_two false)).
  { specialize (Hin a ltac:(left)). vm_compute in Hin.
    repeat (apply elem_of_cons in Hin as [Hin|Hin]; [subst a; simpl in Ha; try discriminate Ha; try reflexivity|]).
    inversion Hin. }
  assert (Hc' : c = mkIndexedElement 2 (mkElementValue float64_one false)).
  { specialize (Hin c ltac:(right; right; left)). vm_compute in Hin.
    repeat (apply elem_of_cons in Hin as [Hin|Hin]; [subst c; simpl in Hc; try discriminate Hc; try reflexivity|]).
    inversion Hin. }
  subst a c. unfold spec.stablyBefore in Hac. vm_compute in Hac.
  destruct Hac as [Hac | [Hac _]]; discriminate.
Qed.

(** C6: in a column whose present elements [Less] orders (a strict
    weak ordering on them), [Order(reverse)] is the positions of the
    present elements, sorted by value in the requested direction with
    equivalent values in their original order, followed by the
    positions of the missing elements in order of appearance, and it is
    a permutation of all positions.  Every Integer, Text and Boolean
    column is such a column, and so is every Float column that has no
    NaN value among its present elements.  On [3, 1, 2, missing]
    [Order(false)] returns [1, 2, 0, 3]. *)
Theorem Order_stably_sorted_missing_last :
  (forall (T E : Type) (elt : Element T E) (s : GotaSeries E) (reverse : bool),
      spec.ordered (elements s) ->
      spec.stableOrder (elements s) reverse (Order s reverse))
  /\ (forall (s : GotaSeries (ElementValue Z)) (reverse : bool),
         spec.stableOrder (elements s) reverse (Order s reverse))
  /\ (forall (s : GotaSeries (ElementValue string)) (reverse : bool),
         spec.stableOrder (elements s) reverse (Order s reverse))
  /\ (forall (s : GotaSeries BoolElementValue) (reverse : bool),
         spec.stableOrder (elements s) reverse (Order s reverse))
  /\ (forall (s : GotaSeries (ElementValue float64)) (reverse : bool),
         Forall (fun e => IsNA e = false -> value e <> S754_nan) (elements s) ->
         spec.stableOrder (elements s) reverse (Order s reverse))
  /\ Order col_3_1_2_missing false = [1; 2; 0; 3].
Proof.
  split; [intros T E elt s reverse; apply Order_spec|].
  split; [intros s reverse;
          apply Order_spec, strictWeakOrder_ordered, int_Less_strictWeakOrder|].
  split; [intros s reverse;
          apply Order_spec, strictWeakOrder_ordered, string_Less_strictWeakOrder|].
  split; [intros s reverse;
          apply Order_spec, strictWeakOrder_ordered, bool_Less_strictWeakOrder|].
  split; [|reflexivity].
  intros s reverse Hnan. apply Order_spec, float_Less_ordered, Hnan.
Qed.

Lemma Order_stably_sorted_missing_last_witness :
  let s : GotaSeries (ElementValue float64) :=
    mkGotaSeries "x" [mkElementValue float64_two false; mkElementValue S754_nan true;
                      mkElementValue float64_one false; mkElementValue float64_one false]
                 None in
  Forall (fun e => IsNA e = false -> value e <> S754_nan) (elements s)
  /\ spec.ordered (elements s)
  /\ spec.stableOrder (elements s) true (Order s true)
  /\ spec.stableOrder (elements s) false (Order s false)
  /\ Order s false = [2; 3; 0; 1]
  /\ Order s true = [0; 2; 3; 1].
Proof.
  intros s.
  assert (Hnan : Forall (fun e : ElementValue float64 =>
                           IsNA e = false -> value e <> S754_nan) (elements s)).
  { repeat (constructor; [simpl; unfold float64_two, float64_one; intros; congruence|]).
    constructor. }
  split; [exact Hnan|].
  split; [apply float_Less_ordered, Hnan|].
  destruct Order_stably_sorted_missing_last as (Hgen & _ & _ & _ & Hfloat & _).
  split; [apply (Hgen _ _ _ s true), float_Less_ordered, Hnan|].
  split; [apply (Hfloat s false), Hnan|].
  split; reflexivity.
Defined.

(** Equal values keep their order in both directions; the missing
    element stays last. *)
Example Order_ties :
  let s : GotaSeries (ElementValue Z) :=
    mkGotaSeries "x" [mkElementValue 2 false; mkElementValue 1 false; mkElementValue 0 true;
                      mkElementValue 2 false; mkElementValue 1 false] None in
  Order s false = [1; 4; 0; 3; 2] /\ Order s true = [0; 3; 1; 4; 2].
Proof. split; reflexivity. Qed.

(** ** Joins *)

Section ResultFacts.
Context {A B : Type}.

Lemma bind_Ret (a : A) (k : A -> result B) : (Ret a ≫= k) = k a.
Proof. reflexivity. Qed.

Lemma elem_at_in_range (l : list A) (i : Z) :
  0 <= i < len l -> exists a, elem_at l i = Ret a /\ a ∈ l.
Proof.
  intros Hi. unfold elem_at, len in *.
  replace (i <? 0) with false by (symmetry; apply Z.ltb_ge; lia).
  destruct (l !! Z.to_nat i) as [a|] eqn:Hl.
  - exists a. split; [reflexivity|]. eapply list_elem_of_lookup_2, Hl.
  - apply lookup_ge_None in Hl. lia.
Qed.

Lemma rmapM_returns (f : A -> result B) (P : B -> Prop) (l : list A) :
  (forall a, a ∈ l -> exists b, f a = Ret b /\ P b) ->
  exists bs, rmapM f l = Ret bs /\ length bs = length l /\ Forall P bs.
Proof.
  induction l as [|a l IH]; intros Hf; simpl.
  - exists []. repeat split. constructor.
  - destruct (Hf a) as (b & Hb & HP); [left|].
    destruct IH as (bs & Hbs & Hlen & HPs); [intros; apply Hf; right; assumption|].
    rewrite Hb. simpl. rewrite Hbs. simpl.
    exists (b :: bs). repeat split; [simpl; lia|constructor; assumption].
Qed.
End ResultFacts.

Lemma findInStringSlice_from_range (str : string) (s : list string) :
  forall i, findInStringSlice_from i str s = -1
            \/ i <= findInStringSlice_from i str s < i + len s.
Proof.
  unfold len. induction s as [|e s IH]; intros i; simpl; [left; reflexivity|].
  destruct (String.eqb e str); [right; lia|].
  destruct (IH (i + 1)) as [-> | Hr]; [left; reflexivity|right; lia].
Qed.

Lemma findInStringSlice_from_found (str : string) (s : list string) :
  forall i, 0 <= i -> In str s -> 0 <= findInStringSlice_from i str s.
Proof.
  induction s as [|e s IH]; intros i Hi Hin; simpl; [destruct Hin|].
  destruct (String.eqb e str) eqn:He; [lia|].
  destruct Hin as [-> | Hin]; [rewrite String.eqb_refl in He; discriminate|].
  apply IH; [lia|assumption].
Qed.

Section JoinFacts.
Context {T E : Type} `{Element T E}.
Variable fixColnames : list string -> list string.
Variable missingElement : E.

(** Columns without error, all of [n] elements. *)
Definition uniform (n : Z) (cols : list (GotaSeries E)) : Prop :=
  Forall (fun c => Err c = None /\ len (elements c) = n) cols.

Lemma ColIndex_range (df : GotaDataFrame E) (key : string) :
  In key (Names df) -> 0 <= ColIndex df key < len (columns df).
Proof.
  intros Hin. unfold ColIndex, findInStringSlice.
  pose proof (findInStringSlice_from_found key (Names df) 0 (Z.le_refl 0) Hin) as Hf.
  destruct (findInStringSlice_from_range key (Names df) 0) as [Hr | Hr]; [lia|].
  unfold Names, len in *. rewrite length_map in Hr. lia.
Qed.

Lemma notKeys_range (n : Z) (iKeys : list Z) (i : Z) :
  i ∈ notKeys n iKeys -> 0 <= i < n.
Proof.
  unfold notKeys. intros Hi. apply list_elem_of_filter in Hi as [_ Hi].
  apply elem_of_seqZ in Hi. lia.
Qed.

Lemma emptyCols_returns (cols : list (GotaSeries E)) (idxs : list Z) :
  (forall i, i ∈ idxs -> 0 <= i < len cols) ->
  exists l, emptyCols cols idxs = Ret l /\ length l = length idxs /\ uniform 0 l.
Proof.
  intros Hr. apply rmapM_returns. intros i Hi.
  destruct (elem_at_in_range cols i (Hr i Hi)) as (c & Hc & _).
  rewrite Hc. simpl. eexists. split; [reflexivity|]. split; reflexivity.
Qed.

Lemma colElem_returns (n : Z) (cols : list (GotaSeries E)) (k i : Z) :
  uniform n cols -> 0 <= k < len cols -> 0 <= i < n ->
  exists e, colElem cols k i = Ret e.
Proof.
  intros Hu Hk Hi. unfold colElem.
  destruct (elem_at_in_range cols k Hk) as (c & Hc & Hin).
  rewrite Hc. simpl. unfold uniform in Hu. rewrite Forall_forall in Hu.
  destruct (Hu c Hin) as [_ Hlen].
  destruct (elem_at_in_range (elements c) i) as (e & He & _); [lia|].
  exists e. exact He.
Qed.

Lemma rowOf_returns (n : Z) (cols : list (GotaSeries E)) (ks : list Z) (i : Z) :
  uniform n cols -> (forall k, k ∈ ks -> 0 <= k < len cols) -> 0 <= i < n ->
  exists row, rowOf cols ks i = Ret row /\ length row = length ks.
Proof.
  intros Hu Hks Hi.
  destruct (rmapM_returns (fun k => e ← colElem cols k i; Ret (Some e)) (fun _ => True) ks)
    as (row & Hrow & Hlen & _).
  - intros k Hk. destruct (colElem_returns n cols k i Hu (Hks k Hk) Hi) as (e & He).
    rewrite He. simpl. eexists. split; [reflexivity|exact I].
  - exists row. split; assumption.
Qed.

Lemma matchKeys_returns (na nb : Z) (aCols bCols : list (GotaSeries E))
    (iKeysA iKeysB : list Z) (i j : Z) :
  uniform na aCols -> uniform nb bCols ->
  (forall k, k ∈ iKeysA -> 0 <= k < len aCols) ->
  (forall k, k ∈ iKeysB -> 0 <= k < len bCols) ->
  0 <= i < na -> 0 <= j < nb ->
  exists m, matchKeys aCols bCols iKeysA iKeysB i j = Ret m.
Proof.
  intros Hua Hub Ha Hb Hi Hj. unfold matchKeys. generalize true.
  revert iKeysB Hb. induction iKeysA as [|ka iKeysA IH]; intros iKeysB Hb m0.
  - simpl. eexists. reflexivity.
  - destruct iKeysB as [|kb iKeysB]; [simpl; eexists; reflexivity|].
    simpl.
    destruct (colElem_returns na aCols ka i Hua) as (ea & Hea); [apply Ha; left|assumption|].
    destruct (colElem_returns nb bCols kb j Hub) as (eb & Heb); [apply Hb; left|assumption|].
    rewrite Hea. simpl. rewrite Heb. simpl.
    apply IH; intros k Hk; [apply Ha|apply Hb]; right; assumption.
Qed.

Lemma appendRow_uniform (n : Z) (newCols : list (GotaSeries E)) (row : list (option E)) :
  uniform n newCols -> length row = length newCols ->
  uniform (n + 1) (appendRow missingElement newCols row)
  /\ length (appendRow missingElement newCols row) = length newCols.
Proof.
  unfold appendRow, uniform. revert row.
  induction newCols as [|c newCols IH]; intros row Hu Hlen.
  - destruct row; [|discriminate]. split; [constructor|reflexivity].
  - destruct row as [|el row]; [discriminate|].
    apply Forall_cons in Hu as [[Hc Hn] Hu].
    destruct (IH row Hu) as [IHu IHl]; [simpl in Hlen; lia|].
    simpl. split; [|lia].
    constructor; [|exact IHu].
    unfold AppendElem. rewrite Hc. simpl. split; [reflexivity|].
    unfold len in *. rewrite length_app. simpl. lia.
Qed.

Lemma Copy_series_uniform (n : Z) (cols : list (GotaSeries E)) :
  uniform n cols -> uniform n (map Copy_series cols).
Proof.
  unfold uniform. intros Hu. apply Forall_map. simpl.
  eapply Forall_impl; [exact Hu|]. simpl.
  intros c [He Hl]. split; [exact He|]. unfold len in *. rewrite length_map. exact Hl.
Qed.

Lemma checkColumnsDimensions_loop_uniform (n : Z) (cols : list (GotaSeries E)) :
  uniform n cols ->
  forall i, checkColumnsDimensions_loop i n cols = (n, None).
Proof.
  induction 1 as [|c cols [He Hl] Hu IH]; intros i; simpl; [reflexivity|].
  rewrite He. unfold Len. rewrite Hl.
  assert (Hn : n <> -1) by (unfold len in Hl; lia).
  apply Z.eqb_neq in Hn. rewrite Hn, Z.eqb_refl. simpl. apply IH.
Qed.

(** [New] on columns without error and of one length builds an
    error-free table of that many rows. *)
Lemma New_uniform (n : Z) (cols : list (GotaSeries E)) :
  uniform n cols -> cols <> [] ->
  DfErr (New fixColnames cols) = None
  /\ nrows (New fixColnames cols) = n
  /\ ncols (New fixColnames cols) = len cols.
Proof.
  intros Hu Hne. unfold New.
  assert (Hlen : (len cols =? 0) = false).
  { apply Z.eqb_neq. unfold len. destruct cols; [congruence|simpl; lia]. }
  rewrite Hlen. apply Copy_series_uniform in Hu.
  unfold buildFrame, checkColumnsDimensions.
  replace (len (map Copy_series cols)) with (len cols)
    by (unfold len; rewrite length_map; reflexivity).
  rewrite Hlen.
  destruct (map Copy_series cols) as [|c cs] eqn:Hm; [destruct cols; [congruence|discriminate]|].
  pose proof Hu as Hu'. apply Forall_cons in Hu' as [[He Hl] Hcs].
  cbn [checkColumnsDimensions_loop]. rewrite He. simpl.
  unfold Len. rewrite Hl, Z.eqb_refl. simpl.
  rewrite (checkColumnsDimensions_loop_uniform n cs Hcs). simpl. repeat split.
Qed.
End JoinFacts.

Section LeftJoinFacts.
Context {T E : Type} `{Element T E}.
Variable fixColnames : list string -> list string.
Variable missingElement : E.
Variables df b : GotaDataFrame E.
Variable keys : list string.

Hypothesis df_wf : spec.wellFormed df.
Hypothesis b_wf : spec.wellFormed b.
Hypothesis keys_given : keys <> [].
Hypothesis df_keys : spec.hasKeys df keys.
Hypothesis b_keys : spec.hasKeys b keys.

Let iKeysA := map (ColIndex df) keys.
Let iKeysB := map (ColIndex b) keys.
Let iNotKeysA := notKeys (ncols df) iKeysA.
Let iNotKeysB := notKeys (NCol b) iKeysB.
Let width := (length iKeysA + length iNotKeysA + length iNotKeysB)%nat.

(** Row [i] of the left table matches row [j] of the right one. *)
Definition rowsMatch (i j : Z) : bool :=
  match matchRows df b keys i j with
  | Ret true => true
  | _ => false
  end.

Definition matchCount (i : Z) (js : list Z) : Z :=
  len (List.filter (rowsMatch i) js).

(** The number of output rows a left row contributes. *)
Definition rowsFor (i : Z) : Z := Z.max 1 (matchCount i (seqZ 0 (NRow b))).

Fixpoint rowsTotal (is_ : list Z) : Z :=
  match is_ with
  | [] => 0
  | i :: is' => rowsFor i + rowsTotal is'
  end.

Lemma df_uniform : uniform (nrows df) (columns df).
Proof. apply df_wf. Qed.
Lemma b_uniform : uniform (nrows b) (columns b).
Proof. apply b_wf. Qed.

Lemma iKeysA_range k : k ∈ iKeysA -> 0 <= k < len (columns df).
Proof.
  unfold iKeysA. intros Hk. apply list_elem_of_In, in_map_iff in Hk as (key & <- & Hkey).
  apply ColIndex_range. unfold spec.hasKeys in df_keys.
  rewrite Forall_forall in df_keys. apply df_keys, list_elem_of_In, Hkey.
Qed.

Lemma iKeysB_range k : k ∈ iKeysB -> 0 <= k < len (columns b).
Proof.
  unfold iKeysB. intros Hk. apply list_elem_of_In, in_map_iff in Hk as (key & <- & Hkey).
  apply ColIndex_range. unfold spec.hasKeys in b_keys.
  rewrite Forall_forall in b_keys. apply b_keys, list_elem_of_In, Hkey.
Qed.

Lemma iNotKeysA_range k : k ∈ iNotKeysA -> 0 <= k < len (columns df).
Proof.
  intros Hk. apply notKeys_range in Hk.
  destruct df_wf as (_ & Hn & _). lia.
Qed.

Lemma iNotKeysB_range k : k ∈ iNotKeysB -> 0 <= k < len (columns b).
Proof.
  intros Hk. apply notKeys_range in Hk.
  destruct b_wf as (_ & Hn & _). unfold NCol in Hk. lia.
Qed.

Lemma keyErrors_none : keyErrors df b keys = [].
Proof.
  unfold keyErrors. unfold spec.hasKeys in df_keys, b_keys.
  clear keys_given iKeysA iKeysB iNotKeysA iNotKeysB width.
  induction keys as [|key ks IH]; [reflexivity|].
  apply Forall_cons in df_keys as [Ha Has]. apply Forall_cons in b_keys as [Hb Hbs].
  simpl. rewrite (IH Has Hbs).
  pose proof (ColIndex_range df key Ha) as Hra.
  pose proof (ColIndex_range b key Hb) as Hrb.
  replace (ColIndex df key <? 0) with false by (symmetry; apply Z.ltb_ge; lia).
  replace (ColIndex b key <? 0) with false by (symmetry; apply Z.ltb_ge; lia).
  reflexivity.
Qed.

Lemma joinInit_returns :
  exists newCols, joinInit df b keys = Ret (inl newCols)
                  /\ length newCols = width /\ uniform 0 newCols.
Proof.
  unfold joinInit. rewrite keyErrors_none.
  assert (Hk : (len keys =? 0) = false).
  { apply Z.eqb_neq. unfold len. destruct keys; [congruence|simpl; lia]. }
  rewrite Hk. simpl.
  destruct (emptyCols_returns (columns df) iKeysA iKeysA_range) as (k & Hk1 & Hk2 & Hk3).
  destruct (emptyCols_returns (columns df) iNotKeysA iNotKeysA_range) as (na & Hn1 & Hn2 & Hn3).
  destruct (emptyCols_returns (columns b) iNotKeysB iNotKeysB_range) as (nb & Hb1 & Hb2 & Hb3).
  fold iKeysA iKeysB iNotKeysA. unfold Columns. fold iNotKeysB.
  rewrite Hk1. simpl. rewrite Hn1. simpl. rewrite Hb1. simpl.
  eexists. split; [reflexivity|]. split.
  - rewrite !length_app. unfold width. lia.
  - unfold uniform in *. rewrite !Forall_app. auto.
Qed.

Lemma matchRows_returns (i j : Z) :
  0 <= i < nrows df -> 0 <= j < nrows b ->
  exists m, matchRows df b keys i j = Ret m.
Proof.
  intros Hi Hj. unfold matchRows.
  apply (matchKeys_returns (nrows df) (nrows b));
    auto using df_uniform, b_uniform, iKeysA_range, iKeysB_range.
Qed.

Lemma rowMatched_returns (i j : Z) :
  0 <= i < nrows df -> 0 <= j < nrows b ->
  exists row, rowMatched df b keys i j = Ret row /\ length row = width.
Proof.
  intros Hi Hj. unfold rowMatched.
  destruct (rowOf_returns _ _ iKeysA i df_uniform iKeysA_range Hi) as (k & Hk & Hkl).
  destruct (rowOf_returns _ _ iNotKeysA i df_uniform iNotKeysA_range Hi) as (na & Hn & Hnl).
  destruct (rowOf_returns _ _ iNotKeysB j b_uniform iNotKeysB_range Hj) as (nb & Hb & Hbl).
  fold iKeysA iKeysB iNotKeysA. unfold Columns. fold iNotKeysB.
  rewrite Hk. simpl. rewrite Hn. simpl. rewrite Hb. simpl.
  eexists. split; [reflexivity|]. rewrite !length_app. unfold width. lia.
Qed.

Lemma rowLeftOnly_returns (i : Z) :
  0 <= i < nrows df ->
  exists row, rowLeftOnly df b keys i = Ret row /\ length row = width.
Proof.
  intros Hi. unfold rowLeftOnly.
  destruct (rowOf_returns _ _ iKeysA i df_uniform iKeysA_range Hi) as (k & Hk & Hkl).
  destruct (rowOf_returns _ _ iNotKeysA i df_uniform iNotKeysA_range Hi) as (na & Hn & Hnl).
  fold iKeysA iKeysB iNotKeysA iNotKeysB.
  rewrite Hk. simpl. rewrite Hn. simpl.
  eexists. split; [reflexivity|].
  rewrite !length_app. unfold nils. rewrite length_map. unfold width. lia.
Qed.

Lemma matchCount_cons (i j : Z) (js : list Z) :
  matchCount i (j :: js) = (if rowsMatch i j then 1 else 0) + matchCount i js.
Proof.
  unfold matchCount, len. simpl. destruct (rowsMatch i j); simpl length; lia.
Qed.

Lemma matchCount_nonneg (i : Z) (js : list Z) : 0 <= matchCount i js.
Proof. unfold matchCount, len. lia. Qed.

(** The loop over the right rows for the left row [i]: one output
    row per match. *)
Lemma leftInner_returns (i : Z) (js : list Z) :
  0 <= i < nrows df -> (forall j, j ∈ js -> 0 <= j < nrows b) ->
  forall (n : Z) (newCols : list (GotaSeries E)) (matched : bool),
    uniform n newCols -> length newCols = width ->
    exists cols',
      rfoldl (fun '(newCols, matched) j =>
                m ← matchRows df b keys i j;
                if m : bool
                then row ← rowMatched df b keys i j;
                     Ret (appendRow missingElement newCols row, true)
                else Ret (newCols, matched)) (newCols, matched) js
      = Ret (cols', matched || (0 <? matchCount i js))
      /\ uniform (n + matchCount i js) cols' /\ length cols' = width.
Proof.
  intros Hi. induction js as [|j js IH]; intros Hjs n newCols matched Hu Hl.
  - exists newCols. simpl. rewrite orb_false_r, Z.add_0_r. auto.
  - assert (Hj : 0 <= j < nrows b) by (apply Hjs; left).
    assert (Hjs' : forall j', j' ∈ js -> 0 <= j' < nrows b)
      by (intros; apply Hjs; right; assumption).
    rewrite matchCount_cons. pose proof (matchCount_nonneg i js) as Hnn.
    destruct (matchRows_returns i j Hi Hj) as (m & Hm).
    assert (Hrm : rowsMatch i j = m)
      by (unfold rowsMatch; rewrite Hm; destruct m; reflexivity).
    rewrite Hrm. cbn [rfoldl]. rewrite Hm, bind_Ret.
    destruct m.
    + destruct (rowMatched_returns i j Hi Hj) as (row & Hrow & Hrl).
      rewrite Hrow, !bind_Ret.
      destruct (appendRow_uniform missingElement n newCols row Hu) as [Hu' Hl']; [lia|].
      destruct (IH Hjs' (n + 1) _ true Hu') as (cols' & Hr & Hu'' & Hl''); [lia|].
      exists cols'. rewrite Hr. split; [|split].
      * replace (0 <? 1 + matchCount i js) with true by (symmetry; apply Z.ltb_lt; lia).
        rewrite orb_true_r. reflexivity.
      * replace (n + (1 + matchCount i js)) with (n + 1 + matchCount i js) by lia. exact Hu''.
      * exact Hl''.
    + destruct (IH Hjs' n newCols matched Hu Hl) as (cols' & Hr & Hu' & Hl').
      exists cols'. rewrite ?bind_Ret, Hr, !Z.add_0_l. auto.
Qed.

Lemma leftRows_returns (is_ : list Z) :
  (forall i, i ∈ is_ -> 0 <= i < nrows df) ->
  forall (n : Z) (newCols : list (GotaSeries E)),
    uniform n newCols -> length newCols = width ->
    exists cols',
      rfoldl (fun newCols i =>
        '(newCols, matched) ← rfoldl (fun '(newCols, matched) j =>
            m ← matchRows df b keys i j;
            if m : bool
            then row ← rowMatched df b keys i j;
                 Ret (appendRow missingElement newCols row, true)
            else Ret (newCols, matched)) (newCols, false) (seqZ 0 (NRow b));
        if matched : bool then Ret newCols
        else row ← rowLeftOnly df b keys i; Ret (appendRow missingElement newCols row))
        newCols is_
      = Ret cols'
      /\ uniform (n + rowsTotal is_) cols' /\ length cols' = width.
Proof.
  induction is_ as [|i is_ IH]; intros His n newCols Hu Hl.
  - exists newCols. simpl. rewrite Z.add_0_r. auto.
  - assert (Hi : 0 <= i < nrows df) by (apply His; left).
    assert (His' : forall i', i' ∈ is_ -> 0 <= i' < nrows df)
      by (intros; apply His; right; assumption).
    destruct (leftInner_returns i (seqZ 0 (NRow b)) Hi) with (n := n) (newCols := newCols)
      (matched := false) as (cols1 & Hr1 & Hu1 & Hl1); [|assumption|assumption|].
    { intros j Hj. apply elem_of_seqZ in Hj. unfold NRow in Hj. lia. }
    cbn [rfoldl]. rewrite Hr1, bind_Ret, orb_false_l.
    pose proof (matchCount_nonneg i (seqZ 0 (NRow b))) as Hnn.
    cbn [rowsTotal]. unfold rowsFor.
    destruct (0 <? matchCount i (seqZ 0 (NRow b))) eqn:Hpos.
    + apply Z.ltb_lt in Hpos. rewrite bind_Ret.
      destruct (IH His' _ cols1 Hu1 Hl1) as (cols' & Hr & Hu' & Hl').
      exists cols'. rewrite Hr. split; [reflexivity|]. split; [|exact Hl'].
      replace (n + (Z.max 1 (matchCount i (seqZ 0 (NRow b))) + rowsTotal is_))
        with (n + matchCount i (seqZ 0 (NRow b)) + rowsTotal is_) by lia.
      exact Hu'.
    + apply Z.ltb_ge in Hpos.
      destruct (rowLeftOnly_returns i Hi) as (row & Hrow & Hrl).
      rewrite Hrow, !bind_Ret.
      destruct (appendRow_uniform missingElement _ cols1 row Hu1) as [Hu2 Hl2]; [lia|].
      destruct (IH His' _ _ Hu2) as (cols' & Hr & Hu' & Hl'); [lia|].
      exists cols'. rewrite Hr. split; [reflexivity|]. split; [|exact Hl'].
      replace (n + (Z.max 1 (matchCount i (seqZ 0 (NRow b))) + rowsTotal is_))
        with (n + matchCount i (seqZ 0 (NRow b)) + 1 + rowsTotal is_) by lia.
      exact Hu'.
Qed.

Lemma rowsTotal_lower (is_ : list Z) : len is_ <= rowsTotal is_.
Proof.
  unfold len. induction is_ as [|i is_ IH]; simpl; [lia|].
  unfold rowsFor at 1. lia.
Qed.

Lemma rowsTotal_exact (is_ : list Z) :
  (forall i, i ∈ is_ -> matchCount i (seqZ 0 (NRow b)) <= 1) ->
  rowsTotal is_ = len is_.
Proof.
  unfold len. induction is_ as [|i is_ IH]; intros Hm; simpl; [reflexivity|].
  rewrite IH by (intros; apply Hm; right; assumption).
  unfold rowsFor. specialize (Hm i ltac:(left)). lia.
Qed.

Lemma nrows_nonneg : 0 <= nrows df.
Proof.
  destruct keys as [|key ks] eqn:Hk; [congruence|].
  unfold spec.hasKeys in df_keys. apply Forall_cons in df_keys as [Hkey _].
  destruct (columns df) as [|c cs] eqn:Hc; [destruct Hkey|].
  pose proof df_uniform as Hu. rewrite Hc in Hu.
  apply Forall_cons in Hu as [[_ Hl] _]. unfold len in Hl. lia.
Qed.

(** [LeftJoin] returns an error-free table with one row per match
    and one row for every left row without a match. *)
Lemma LeftJoin_returns :
  exists r, LeftJoin fixColnames missingElement df b keys = Ret r
            /\ DfErr r = None
            /\ NRow r = rowsTotal (seqZ 0 (nrows df)).
Proof.
  unfold LeftJoin.
  destruct joinInit_returns as (newCols & Hinit & Hlen & Hu).
  rewrite Hinit, bind_Ret.
  destruct (leftRows_returns (seqZ 0 (nrows df))) with (n := 0) (newCols := newCols)
    as (cols' & Hr & Hu' & Hl'); [|assumption|assumption|].
  { intros i Hi. apply elem_of_seqZ in Hi. lia. }
  unfold leftRows. rewrite Hr, bind_Ret.
  destruct (New_uniform fixColnames _ cols' Hu') as (He & Hn & _).
  { intros ->. simpl in Hl'. unfold width, iKeysA in Hl'.
    rewrite length_map in Hl'. destruct keys; [congruence|simpl in Hl'; lia]. }
  eexists. split; [reflexivity|]. split; [exact He|].
  unfold NRow. rewrite Hn. lia.
Qed.
End LeftJoinFacts.

Lemma filter_at_most_one {A} (p : A -> bool) (l : list A) :
  NoDup l ->
  (forall x y, x ∈ l -> y ∈ l -> p x = true -> p y = true -> x = y) ->
  (length (List.filter p l) <= 1)%nat.
Proof.
  induction 1 as [|a l Hna Hnd IH]; intros Huniq; simpl; [lia|].
  destruct (p a) eqn:Hpa.
  - assert (Hnone : List.filter p l = []).
    { destruct (List.filter p l) as [|y ys] eqn:Hf; [reflexivity|exfalso].
      assert (Hy : In y (List.filter p l)) by (rewrite Hf; left; reflexivity).
      apply filter_In in Hy as [Hy Hpy]. apply list_elem_of_In in Hy.
      apply Hna. rewrite (Huniq a y); [exact Hy|left|right; exact Hy|exact Hpa|exact Hpy]. }
    rewrite Hnone. simpl. lia.
  - apply IH. intros x y Hx Hy. apply Huniq; right; assumption.
Qed.

(** C7 (as amended): for well-formed tables [A] and [B] and a non-empty
    list of keys present in both, [LeftJoin] returns an error-free table
    with at least [A.NRow()] rows (each left row contributes at least
    one output row), and with exactly [A.NRow()] rows whenever no row
    of [A] matches more than one row of [B] on the keys. *)
Theorem LeftJoin_row_count {T E : Type} `{Element T E}
    (fixColnames : list string -> list string) (missingElement : E)
    (A B : GotaDataFrame E) (keys : list string) :
  spec.wellFormed A -> spec.wellFormed B ->
  keys <> [] -> spec.hasKeys A keys -> spec.hasKeys B keys ->
  exists r,
    LeftJoin fixColnames missingElement A B keys = Ret r
    /\ DfErr r = None
    /\ NRow A <= NRow r
    /\ ((forall i j1 j2,
            0 <= i < NRow A -> 0 <= j1 < NRow B -> 0 <= j2 < NRow B ->
            matchRows A B keys i j1 = Ret true ->
            matchRows A B keys i j2 = Ret true -> j1 = j2) ->
        NRow r = NRow A).
Proof.
  intros HA HB Hkeys HkA HkB.
  destruct (LeftJoin_returns fixColnames missingElement A B keys HA HB Hkeys HkA HkB)
    as (r & Hr & He & Hn).
  assert (Hnn : 0 <= nrows A) by (eapply nrows_nonneg; eassumption).
  assert (Hlen : len (seqZ 0 (nrows A)) = nrows A).
  { unfold len. rewrite length_seqZ. lia. }
  exists r. split; [exact Hr|]. split; [exact He|]. split.
  - rewrite Hn. unfold NRow at 1. rewrite <- Hlen at 1. apply rowsTotal_lower.
  - intros Huniq. rewrite Hn, rowsTotal_exact; [exact Hlen|].
    intros i Hi. apply elem_of_seqZ in Hi.
    unfold matchCount, len.
    assert (Hone : (length (List.filter (rowsMatch A B keys i) (seqZ 0 (NRow B))) <= 1)%nat);
      [|lia].
    apply filter_at_most_one; [apply NoDup_seqZ|].
    intros j1 j2 Hj1 Hj2 Hm1 Hm2. apply elem_of_seqZ in Hj1, Hj2.
    unfold rowsMatch in Hm1, Hm2.
    apply (Huniq i j1 j2); unfold NRow in *; try lia.
    + destruct (matchRows A B keys i j1) as [[|]|]; congruence.
    + destruct (matchRows A B keys i j2) as [[|]|]; congruence.
Qed.

Definition tableA : GotaDataFrame (ElementValue Z) :=
  mkGotaDataFrame [NewSeries "id" [1; 2; 3]; NewSeries "x" [10; 20; 30]] 2 3 None.
Definition tableB : GotaDataFrame (ElementValue Z) :=
  mkGotaDataFrame [NewSeries "id" [2; 3; 4]; NewSeries "y" [7; 8; 9]] 2 3 None.

Lemma LeftJoin_row_count_witness :
  exists r,
    LeftJoin (fun names => names) (mkElementValue 0 true) tableA tableB ["id"] = Ret r
    /\ DfErr r = None /\ NRow tableA <= NRow r /\ NRow r = NRow tableA.
Proof.
  destruct (LeftJoin_row_count (fun names => names) (mkElementValue 0 true)
              tableA tableB ["id"]) as (r & Hr & He & Hle & Heq).
  - repeat split. repeat constructor.
  - repeat split. repeat constructor.
  - discriminate.
  - repeat constructor.
  - repeat constructor.
  - exists r. repeat split; try assumption. apply Heq.
    intros i j1 j2 Hi Hj1 Hj2. unfold NRow, tableA, tableB in Hi, Hj1, Hj2. simpl in Hi, Hj1, Hj2.
    assert (Hi' : i = 0 \/ i = 1 \/ i = 2) by lia.
    assert (Hj1' : j1 = 0 \/ j1 = 1 \/ j1 = 2) by lia.
    assert (Hj2' : j2 = 0 \/ j2 = 1 \/ j2 = 2) by lia.
    destruct Hi' as [-> | [-> | ->]]; destruct Hj1' as [-> | [-> | ->]];
      destruct Hj2' as [-> | [-> | ->]]; vm_compute; intros; congruence.
Defined.

(** C7: the table [A] with the single row [id = 1], so without
    duplicate rows per key, and the table [B] with the rows [id = 1]
    twice: [LeftJoin(A, B, "id")] has two rows, not one. *)
Lemma LeftJoin_duplicate_right_rows :
  spec.wellFormed (mkGotaDataFrame [NewSeries "id" [1] : GotaSeries (ElementValue Z)] 1 1 None)
  /\ spec.wellFormed (mkGotaDataFrame [NewSeries "id" [1; 1] : GotaSeries (ElementValue Z)] 1 2 None)
  /\ forall fixColnames missingElement,
      exists r,
        LeftJoin fixColnames missingElement
          (mkGotaDataFrame [NewSeries "id" [1] : GotaSeries (ElementValue Z)] 1 1 None)
          (mkGotaDataFrame [NewSeries "id" [1; 1]] 1 2 None) ["id"] = Ret r
        /\ DfErr r = None /\ NRow r = 2
        /\ NRow r <> NRow (mkGotaDataFrame [NewSeries "id" [1] : GotaSeries (ElementValue Z)] 1 1 None).
Proof.
  split; [repeat split; repeat constructor|].
  split; [repeat split; repeat constructor|].
  intros fixColnames missingElement. eexists. split; [reflexivity|].
  repeat split. discriminate.
Qed.

(** * Further properties *)

(** ** Subset *)

Section SubsetFacts.
Context {T E : Type} `{Element T E}.

Lemma elem_at_lookup {A} (l : list A) (i : Z) (a : A) :
  elem_at l i = Ret a <-> 0 <= i /\ l !! Z.to_nat i = Some a.
Proof.
  unfold elem_at. destruct (i <? 0) eqn:Hi.
  - apply Z.ltb_lt in Hi. split; [discriminate|lia].
  - apply Z.ltb_ge in Hi. destruct (l !! Z.to_nat i) as [b|]; split.
    + intros [= ->]. auto.
    + intros [_ [= ->]]. reflexivity.
    + discriminate.
    + intros [_ Hn]. discriminate.
Qed.

Lemma elem_at_panics {A} (l : list A) (i : Z) :
  i < 0 \/ len l <= i -> elem_at l i = Panic "index out of range".
Proof.
  unfold elem_at, len. intros Hi. destruct (i <? 0) eqn:Hlt; [reflexivity|].
  apply Z.ltb_ge in Hlt.
  destruct (l !! Z.to_nat i) eqn:Hl; [|reflexivity].
  apply lookup_lt_Some in Hl. lia.
Qed.

(** The values [Subset] reads, position by position. *)
Lemma Subset_values_returns (els : list E) (idx : list Z) :
  Forall (fun i => 0 <= i < len els) idx ->
  exists vals,
    rmapM (fun index => e ← elem_at els index; Ret (Val e)) idx = Ret vals
    /\ length vals = length idx
    /\ forall (k : nat) (i : Z), idx !! k = Some i ->
         exists e, els !! Z.to_nat i = Some e /\ vals !! k = Some (Val e).
Proof.
  induction 1 as [|i idx Hi Hidx IH]; simpl.
  - exists []. repeat split. intros k i Hk. discriminate.
  - destruct (elem_at_in_range els i Hi) as (e & He & _).
    destruct IH as (vals & Hv & Hl & Hvals).
    rewrite He, bind_Ret, bind_Ret, Hv, bind_Ret.
    exists (Val e :: vals). split; [reflexivity|]. split; [simpl; lia|].
    intros [|k] i' Hk; simpl in Hk.
    + injection Hk as <-. exists e. split; [|reflexivity].
      apply elem_at_lookup in He. tauto.
    + apply Hvals, Hk.
Qed.

Lemma Subset_values_panics (els : list E) (idx : list Z) :
  Exists (fun i => i < 0 \/ len els <= i) idx ->
  rmapM (fun index => e ← elem_at els index; Ret (Val e)) idx = Panic "index out of range".
Proof.
  induction 1 as [i idx Hi | i idx Hex IH]; simpl.
  - rewrite (elem_at_panics els i Hi). reflexivity.
  - rewrite IH. destruct (elem_at els i) as [e|msg] eqn:He; [reflexivity|].
    unfold elem_at in He. destruct (i <? 0); [injection He as <-; reflexivity|].
    destruct (els !! Z.to_nat i); [discriminate|injection He as <-; reflexivity].
Qed.

(** What [Subset] returns for positions in range. *)
Lemma Subset_returns (s : GotaSeries E) (idx : list Z) :
  Err s = None ->
  Forall (fun i => 0 <= i < Len s) idx ->
  exists r,
    Subset s (IdxInts idx) = Ret r
    /\ Name r = Name s /\ Err r = None /\ Len r = len idx
    /\ forall (k : nat) (i : Z), idx !! k = Some i ->
         exists e, elements s !! Z.to_nat i = Some e
                   /\ elements r !! k = Some (NewElement (Val e)).
Proof.
  intros He Hidx. unfold Subset. rewrite He. simpl.
  destruct (Subset_values_returns (elements s) idx Hidx) as (vals & Hv & Hl & Hvals).
  rewrite Hv, bind_Ret. eexists. split; [reflexivity|]. simpl.
  repeat split.
  - unfold Len, len, NewElements. simpl. rewrite length_map. lia.
  - intros k i Hk. destruct (Hvals k i Hk) as (e & Hel & Hvk).
    exists e. split; [exact Hel|].
    unfold NewElements. change (map NewElement vals) with (NewElement <$> vals).
    rewrite list_lookup_fmap, Hvk. reflexivity.
Qed.

(** X1: on an error-free column, [Subset] with positions that are all
    in range returns an error-free column of the same name with one
    element per position, in the order of the positions, holding the
    value stored there. *)
Theorem Subset_in_range (s : GotaSeries E) (idx : list Z) :
  Err s = None ->
  Forall (fun i => 0 <= i < Len s) idx ->
  exists r,
    Subset s (IdxInts idx) = Ret r
    /\ Name r = Name s /\ Err r = None /\ Len r = len idx
    /\ forall (k : nat) (i : Z), idx !! k = Some i ->
         exists e, elements s !! Z.to_nat i = Some e
                   /\ elements r !! k = Some (NewElement (Val e)).
Proof. exact (Subset_returns s idx). Qed.

(** X2: [Subset] performs no bounds check: a position below zero or
    past the last element aborts with an index panic instead of setting
    the column's error. *)
Theorem Subset_out_of_range_panics (s : GotaSeries E) (idx : list Z) :
  Err s = None ->
  Exists (fun i => i < 0 \/ Len s <= i) idx ->
  Subset s (IdxInts idx) = Panic "index out of range".
Proof.
  intros He Hex. unfold Subset. rewrite He. simpl.
  rewrite (Subset_values_panics (elements s) idx Hex). reflexivity.
Qed.
End SubsetFacts.

Lemma Subset_in_range_witness :
  let s : GotaSeries (ElementValue Z) := NewSeries "x" [10; 20; 30] in
  exists r,
    Subset s (IdxInts [2; 0; 2]) = Ret r
    /\ Name r = "x" /\ Err r = None /\ Len r = 3
    /\ forall (k : nat) (i : Z), [2; 0; 2] !! k = Some i ->
         exists e, elements s !! Z.to_nat i = Some e
                   /\ elements r !! k = Some (NewElement (Val e)).
Proof.
  intros s. apply (Subset_in_range s [2; 0; 2]); [reflexivity|].
  repeat constructor; unfold Len, len; simpl; lia.
Defined.

Lemma Subset_out_of_range_panics_witness :
  Subset (NewSeries "x" [10; 20; 30] : GotaSeries (ElementValue Z)) (IdxInts [0; 3])
  = Panic "index out of range".
Proof.
  apply Subset_out_of_range_panics; [reflexivity|].
  right. left. right. unfold Len, len. simpl. lia.
Defined.

Section MaskFacts.
Context {T E : Type} `{Element T E}.

Lemma elem_at_middle {A} (pre : list A) (a : A) (post : list A) :
  elem_at (pre ++ a :: post) (len pre) = Ret a.
Proof.
  apply elem_at_lookup. unfold len. split; [lia|].
  rewrite Nat2Z.id. apply list_lookup_middle. reflexivity.
Qed.

Lemma mask_values (bools : list bool) :
  forall (els pre : list E),
    length bools = length els ->
    rmapM (fun index => e ← elem_at (pre ++ els) index; Ret (Val e))
          (mask_positions (len pre) bools)
    = Ret (map (fun be => Val be.2) (List.filter fst (combine bools els))).
Proof.
  induction bools as [|b bools IH]; intros [|e els] pre Hlen; try discriminate; simpl.
  - reflexivity.
  - assert (Hpre : len pre + 1 = len (pre ++ [e])).
    { unfold len. rewrite length_app. simpl. lia. }
    assert (Happ : (pre ++ e :: els = (pre ++ [e]) ++ els)%list).
    { rewrite <- app_assoc. reflexivity. }
    specialize (IH els (pre ++ [e])%list ltac:(simpl in Hlen; lia)).
    rewrite <- Hpre, <- Happ in IH.
    destruct b; simpl.
    + rewrite elem_at_middle, bind_Ret, bind_Ret, IH. reflexivity.
    + exact IH.
Qed.

(** X3: [Subset] with a Boolean mask on an error-free column.  A mask
    whose length differs from the column's sets the error "index
    dimensions mismatch" on the column and leaves its elements alone; a
    mask of the right length never aborts and returns the values at the
    positions marked [true], in order. *)
Theorem Subset_mask (s : GotaSeries E) (bools : list bool) :
  Err s = None ->
  (len bools <> Len s ->
   Subset s (IdxBools bools)
   = Ret (mkGotaSeries (Name s) (elements s)
            (Some "indexing error: index dimensions mismatch")))
  /\ (len bools = Len s ->
      Subset s (IdxBools bools)
      = Ret (mkGotaSeries (Name s)
               (map (fun be => NewElement (Val be.2))
                    (List.filter fst (combine bools (elements s))))
               None)).
Proof.
  intros He. unfold Subset. rewrite He. simpl. split; intros Hlen.
  - apply Z.eqb_neq in Hlen. rewrite Hlen. reflexivity.
  - pose proof Hlen as Hlen'. apply Z.eqb_eq in Hlen'. rewrite Hlen'. simpl.
    assert (Hl : length bools = length (elements s)) by (unfold Len, len in Hlen; lia).
    pose proof (mask_values bools (elements s) [] Hl) as Hm.
    unfold len in Hm. simpl in Hm. change (Z.of_nat 0) with 0 in Hm. rewrite Hm.
    rewrite bind_Ret. unfold NewElements. rewrite map_map. reflexivity.
Qed.
End MaskFacts.

Lemma Subset_mask_witness :
  let s : GotaSeries (ElementValue Z) := NewSeries "x" [10; 20; 30] in
  Subset s (IdxBools [true; false])
  = Ret (mkGotaSeries "x" (elements s) (Some "indexing error: index dimensions mismatch"))
  /\ Subset s (IdxBools [true; false; true]) = Ret (NewSeries "x" [10; 30]).
Proof.
  intros s. split.
  - apply (proj1 (Subset_mask s [true; false] eq_refl)). discriminate.
  - etransitivity; [apply (proj2 (Subset_mask s [true; false; true] eq_refl))|];
      reflexivity.
Defined.

(** ** Slice *)

(** X4: on an error-free column [Slice(j, k)] returns an empty column
    carrying "slice index out of bounds" when [j > k], [j < 0] or
    [k >= Len]; otherwise it returns the [k - j] values at the positions
    [j, ..., k - 1], in order. *)
Theorem Slice_spec {T E : Type} `{Element T E} (s : GotaSeries E) (j k : Z) :
  Err s = None ->
  (j > k \/ j < 0 \/ k >= Len s ->
   Slice s j k = Ret (mkGotaSeries (Name s) [] (Some "slice index out of bounds")))
  /\ (0 <= j <= k -> k < Len s ->
      exists r,
        Slice s j k = Ret r
        /\ Name r = Name s /\ Err r = None /\ Len r = k - j
        /\ forall n : nat, Z.of_nat n < k - j ->
             exists e, elements s !! (Z.to_nat j + n)%nat = Some e
                       /\ elements r !! n = Some (NewElement (Val e))).
Proof.
  intros He. split.
  - intros Hbad. unfold Slice. rewrite He.
    rewrite Z.gtb_ltb, Z.geb_leb.
    destruct (k <? j) eqn:H1; [reflexivity|].
    destruct (j <? 0) eqn:H2; [reflexivity|].
    destruct (Len s <=? k) eqn:H3; [reflexivity|].
    apply Z.ltb_ge in H1, H2. apply Z.leb_gt in H3. lia.
  - intros Hjk Hk. rewrite (Slice_is_Subset s j k He Hjk Hk).
    destruct (Subset_returns s (seqZ j (k - j)) He) as (r & Hr & Hn & Her & Hl & Hel).
    { apply Forall_forall. intros i Hi. apply elem_of_seqZ in Hi. lia. }
    exists r. split; [exact Hr|]. split; [exact Hn|]. split; [exact Her|]. split.
    + rewrite Hl. unfold len. rewrite length_seqZ. lia.
    + intros n Hlt.
      destruct (Hel n (j + Z.of_nat n)) as (e & He1 & He2).
      { apply lookup_seqZ. lia. }
      exists e. split; [|exact He2].
      replace (Z.to_nat j + n)%nat with (Z.to_nat (j + Z.of_nat n)) by lia. exact He1.
Qed.

Lemma Slice_spec_witness :
  let s : GotaSeries (ElementValue Z) := NewSeries "x" [10; 20; 30] in
  Slice s 2 1 = Ret (mkGotaSeries "x" [] (Some "slice index out of bounds"))
  /\ exists r,
      Slice s 1 2 = Ret r
      /\ Name r = "x" /\ Err r = None /\ Len r = 1
      /\ forall n : nat, Z.of_nat n < 2 - 1 ->
           exists e, elements s !! (Z.to_nat 1 + n)%nat = Some e
                     /\ elements r !! n = Some (NewElement (Val e)).
Proof.
  intros s. split.
  - apply (proj1 (Slice_spec s 2 1 eq_refl)). left. lia.
  - apply (proj2 (Slice_spec s 1 2 eq_refl)); [lia|]. unfold Len, len. simpl. lia.
Defined.

(** ** Concat *)

Section ConcatFacts.
Context {T : Type} `{SeriesType T}.

Lemma ElementValue_Copy_id (ev : ElementValue T) : Copy ev = ev.
Proof. destruct ev. reflexivity. Qed.

Lemma map_Copy_id (els : list (ElementValue T)) : map Copy els = els.
Proof.
  induction els as [|e els IH]; [reflexivity|].
  cbn [map]. rewrite IH. f_equal. apply ElementValue_Copy_id.
Qed.

Lemma Concat_elements (s x : GotaSeries (ElementValue T)) :
  Err s = None -> Err x = None ->
  Concat s x = mkGotaSeries (Name s) (elements s ++ elements x) None.
Proof.
  intros Hs Hx. unfold Concat, series.Error, Copy_series. rewrite Hs, Hx. simpl.
  rewrite map_Copy_id. reflexivity.
Qed.

(** X5: [Concat] on columns of generic elements.  An errored receiver
    is returned as it is and an errored argument puts the wrapped error
    on the receiver.  On error-free columns the result holds the
    elements of both in order, values and missing flags unchanged (in
    contrast to [Subset]), so lengths add up, the empty column is a left
    and right identity, and [Concat] is associative. *)
Theorem Concat_spec (s x y : GotaSeries (ElementValue T)) :
  (forall e, Err s = Some e -> Concat s x = s)
  /\ (forall e, Err s = None -> Err x = Some e ->
        Concat s x
        = mkGotaSeries (Name s) (elements s)
            (Some ("concat error: argument has errors: " ++ e)%string))
  /\ (Err s = None -> Err x = None ->
      Err (Concat s x) = None
      /\ elements (Concat s x) = (elements s ++ elements x)%list
      /\ Len (Concat s x) = Len s + Len x
      /\ IsNaN (Concat s x) = (IsNaN s ++ IsNaN x)%list
      /\ Concat (Empty s) s = s
      /\ Concat s (Empty x) = s
      /\ (Err y = None -> Concat (Concat s x) y = Concat s (Concat x y))).
Proof.
  split; [|split].
  - intros e He. unfold Concat. rewrite He. reflexivity.
  - intros e Hs Hx. unfold Concat, series.Error. rewrite Hs, Hx. reflexivity.
  - intros Hs Hx. rewrite (Concat_elements s x Hs Hx). simpl.
    split; [reflexivity|]. split; [reflexivity|]. split.
    { unfold Len, len. simpl. rewrite length_app. lia. }
    split.
    { unfold IsNaN. simpl. apply map_app. }
    split.
    { rewrite Concat_elements by (assumption || reflexivity).
      destruct s as [n els e]. simpl in *. subst e. reflexivity. }
    split.
    { rewrite Concat_elements by (assumption || reflexivity). simpl.
      rewrite app_nil_r. destruct s as [n els e]. simpl in *. subst e. reflexivity. }
    intros Hy.
    rewrite (Concat_elements x y Hx Hy).
    rewrite !Concat_elements by first [assumption | reflexivity]. simpl.
    rewrite app_assoc. reflexivity.
Qed.
End ConcatFacts.

Lemma Concat_spec_witness :
  let s : GotaSeries (ElementValue Z) :=
    mkGotaSeries "a" [mkElementValue 1 false; mkElementValue 0 true] None in
  let x : GotaSeries (ElementValue Z) := NewSeries "b" [5] in
  let bad : GotaSeries (ElementValue Z) := mkGotaSeries "c" [] (Some "boom") in
  Concat bad x = bad
  /\ Err (Concat s bad) = Some "concat error: argument has errors: boom"
  /\ IsNaN (Concat s x) = [false; true; false]
  /\ Concat (Concat s x) x = Concat s (Concat x x).
Proof.
  intros s x bad.
  destruct (Concat_spec bad x x) as (Hbad & _).
  destruct (Concat_spec s bad x) as (_ & Harg & _).
  destruct (Concat_spec s x x) as (_ & _ & Hok).
  destruct (Hok eq_refl eq_refl) as (_ & _ & _ & Hnan & _ & _ & Hassoc).
  split; [apply (Hbad "boom"); reflexivity|].
  split; [rewrite (Harg "boom"); reflexivity|].
  split; [rewrite Hnan; reflexivity|].
  apply Hassoc. reflexivity.
Defined.

(** ** Set *)

Section SetFacts.
Context {T E : Type} `{Element T E}.

Lemma Set_loop_in_range (pairs : list (Z * E)) :
  forall els : list E,
    Forall (fun p => 0 <= p.1 < len els) pairs ->
    NoDup (map fst pairs) ->
    exists els',
      Set_loop els (len els) pairs = (els', None)
      /\ length els' = length els
      /\ (forall i nv, (i, nv) ∈ pairs ->
            exists e, els !! Z.to_nat i = Some e
                      /\ els' !! Z.to_nat i = Some (Set_ e (Val nv)))
      /\ (forall j : nat, (forall i, i ∈ map fst pairs -> Z.to_nat i <> j) ->
            els' !! j = els !! j).
Proof.
  induction pairs as [|[i nv] pairs IH]; intros els Hr Hnd; simpl.
  - exists els. repeat split; try reflexivity. intros i nv Hin. inversion Hin.
  - apply Forall_cons in Hr as [Hi Hr]. simpl in Hi.
    apply NoDup_cons in Hnd as [Hni Hnd].
    replace (i <? 0) with false by (symmetry; apply Z.ltb_ge; lia).
    replace (i >=? len els) with false
      by (symmetry; rewrite Z.geb_leb; apply Z.leb_gt; lia).
    simpl.
    set (els1 := alter (fun e => Set_ e (Val nv)) (Z.to_nat i) els).
    assert (Hlen1 : len els1 = len els).
    { unfold len, els1. rewrite length_alter. reflexivity. }
    destruct (IH els1) as (els' & Hloop & Hlen & Hset & Hkeep); [|exact Hnd|].
    { rewrite Hlen1. exact Hr. }
    rewrite Hlen1 in Hloop. exists els'. split; [exact Hloop|]. split.
    { rewrite Hlen. unfold els1. apply length_alter. }
    split.
    + intros i' nv' Hin. apply elem_of_cons in Hin as [[= -> ->] | Hin].
      * destruct (els !! Z.to_nat i) as [e|] eqn:He.
        -- exists e. split; [reflexivity|].
           rewrite Hkeep.
           ++ unfold els1. rewrite list_lookup_alter_eq, He. reflexivity.
           ++ intros i2 Hi2 Heq. apply Hni.
              assert (i2 = i); [|subst; exact Hi2].
              apply list_elem_of_fmap in Hi2 as ([i3 nv3] & -> & Hp).
              rewrite Forall_forall in Hr. specialize (Hr _ Hp). simpl in *. lia.
        -- apply lookup_ge_None in He. unfold len in Hi. lia.
      * destruct (Hset i' nv' Hin) as (e1 & He1 & He').
        assert (Hne : Z.to_nat i <> Z.to_nat i').
        { intros Heq. apply Hni.
          assert (i = i'); [|subst; apply list_elem_of_fmap; exists (i', nv'); auto].
          rewrite Forall_forall in Hr. specialize (Hr _ Hin). simpl in *. lia. }
        unfold els1 in He1. rewrite list_lookup_alter_ne in He1 by exact Hne.
        exists e1. split; assumption.
    + intros j Hj. rewrite Hkeep.
      * unfold els1. apply list_lookup_alter_ne. apply Hj. left.
      * intros i2 Hi2. apply Hj. right. exact Hi2.
Qed.

(** The loop stops at the first position out of range; what it wrote
    before stays. *)
Lemma Set_loop_stops (pre : list (Z * E)) (i : Z) (nv : E) (post : list (Z * E)) :
  forall (els : list E) (l : Z),
    (Set_loop els l pre).2 = None ->
    i < 0 \/ i >= l ->
    Set_loop els l (pre ++ (i, nv) :: post)
    = ((Set_loop els l pre).1, Some "set error: index out of range").
Proof.
  induction pre as [|[i0 nv0] pre IH]; intros els l Hpre Hi; simpl in *.
  - replace ((i <? 0) || (i >=? l)) with true; [reflexivity|].
    symmetry. apply orb_true_iff. rewrite Z.ltb_lt, Z.geb_leb, Z.leb_le. lia.
  - destruct ((i0 <? 0) || (i0 >=? l)); [discriminate|]. apply IH; assumption.
Qed.

Lemma Set_loop_no_error (pairs : list (Z * E)) :
  forall (els : list E) (l : Z),
    Forall (fun p => 0 <= p.1 < l) pairs -> (Set_loop els l pairs).2 = None.
Proof.
  induction pairs as [|[i nv] pairs IH]; intros els l Hr; simpl; [reflexivity|].
  apply Forall_cons in Hr as [Hi Hr]. simpl in Hi.
  replace (i <? 0) with false by (symmetry; apply Z.ltb_ge; lia).
  replace (i >=? l) with false by (symmetry; rewrite Z.geb_leb; apply Z.leb_gt; lia).
  simpl. apply IH, Hr.
Qed.

(** X6: [Set] with distinct positions that are all in range, and as
    many new values as positions, on error-free columns: the column
    keeps its name and length and gets no error; the element at each
    listed position is the old element after its own [Set] with the
    corresponding new value, and every other element is untouched. *)
Theorem Set_in_range (s newvalues : GotaSeries E) (idx : list Z) :
  Err s = None -> Err newvalues = None ->
  Forall (fun i => 0 <= i < Len s) idx -> NoDup idx ->
  len idx = Len newvalues ->
  let r := Set_series s (IdxInts idx) newvalues in
  Err r = None /\ Name r = Name s /\ Len r = Len s
  /\ (forall (k : nat) (i : Z) (n : E),
        idx !! k = Some i -> elements newvalues !! k = Some n ->
        exists e, elements s !! Z.to_nat i = Some e
                  /\ elements r !! Z.to_nat i = Some (Set_ e (Val n)))
  /\ (forall j : nat, (forall i, i ∈ idx -> Z.to_nat i <> j) ->
        elements r !! j = elements s !! j).
Proof.
  intros Hs Hn Hr Hnd Hlen r. subst r.
  unfold Set_series, series.Error. rewrite Hs, Hn. simpl.
  apply Z.eqb_eq in Hlen as Hlen'. rewrite Hlen'. simpl.
  assert (Hl : length idx = length (elements newvalues)) by (unfold Len, len in Hlen; lia).
  assert (Hfst : map fst (zip idx (elements newvalues)) = idx).
  { change (map fst ?l) with (fst <$> l). apply fst_zip. lia. }
  destruct (Set_loop_in_range (zip idx (elements newvalues)) (elements s))
    as (els' & Hloop & Hlen2 & Hset & Hkeep).
  { apply Forall_forall. intros [i n] Hin. simpl.
    rewrite Forall_forall in Hr. apply Hr.
    rewrite <- Hfst. apply list_elem_of_fmap. exists (i, n). auto. }
  { rewrite Hfst. exact Hnd. }
  fold (Len s) in Hloop. rewrite Hloop. simpl.
  split; [reflexivity|]. split; [reflexivity|]. split.
  { unfold Len, len. simpl. rewrite Hlen2. reflexivity. }
  split.
  - intros k i n Hk Hnk. apply Hset.
    apply (list_elem_of_lookup_2 _ k).
    rewrite lookup_zip_with, Hk. simpl. rewrite Hnk. reflexivity.
  - intros j Hj. apply Hkeep. rewrite Hfst. exact Hj.
Qed.

(** X7: [Set] is not atomic.  When the positions [pre] are in range
    and the next one is not, the column comes back with the error "set
    error: index out of range" and with the elements at [pre] already
    overwritten, exactly as a [Set] of [pre] alone leaves them. *)
Theorem Set_stops_at_first_bad_position (s : GotaSeries E) (name : string)
    (pre post : list Z) (i : Z) (npre npost : list E) (n : E) :
  Err s = None ->
  Forall (fun p => 0 <= p < Len s) pre ->
  i < 0 \/ i >= Len s ->
  length npre = length pre -> length npost = length post ->
  Set_series s (IdxInts (pre ++ i :: post))
             (mkGotaSeries name (npre ++ n :: npost) None)
  = mkGotaSeries (Name s)
      (elements (Set_series s (IdxInts pre) (mkGotaSeries name npre None)))
      (Some "set error: index out of range").
Proof.
  intros Hs Hpre Hi Hl1 Hl2.
  unfold Set_series, series.Error. rewrite Hs. simpl.
  replace (len (pre ++ i :: post) =? Len (mkGotaSeries name (npre ++ n :: npost) None))
    with true
    by (symmetry; apply Z.eqb_eq; unfold Len, len; simpl; rewrite !length_app; simpl; lia).
  replace (len pre =? Len (mkGotaSeries name npre None)) with true
    by (symmetry; apply Z.eqb_eq; unfold Len, len; simpl; lia).
  simpl.
  assert (Hzip : zip (pre ++ i :: post) (npre ++ n :: npost)
                 = (zip pre npre ++ (i, n) :: zip post npost)%list).
  { rewrite zip_with_app by lia. reflexivity. }
  rewrite Hzip.
  assert (Hok : (Set_loop (elements s) (Len s) (zip pre npre)).2 = None).
  { apply Set_loop_no_error. apply Forall_forall. intros [p e] Hin. simpl.
    rewrite Forall_forall in Hpre. apply Hpre.
    apply (list_elem_of_fmap_2 fst) in Hin. simpl in Hin.
    rewrite fst_zip in Hin by lia. exact Hin. }
  rewrite (Set_loop_stops (zip pre npre) i n (zip post npost) _ _ Hok Hi).
  destruct (Set_loop (elements s) (Len s) (zip pre npre)) as [els err]. reflexivity.
Qed.
End SetFacts.

Lemma Set_in_range_witness :
  let s : GotaSeries (ElementValue Z) :=
    mkGotaSeries "x" [mkElementValue 1 false; mkElementValue 0 true; mkElementValue 3 false]
                 None in
  let r := Set_series s (IdxInts [2; 0]) (NewSeries "" [30; 10]) in
  Err r = None /\ Len r = 3
  /\ elements r !! 1%nat = elements s !! 1%nat.
Proof.
  intros s r.
  destruct (Set_in_range s (NewSeries "" [30; 10]) [2; 0]) as (He & _ & Hl & _ & Hkeep).
  - reflexivity.
  - reflexivity.
  - repeat constructor; unfold Len, len; simpl; lia.
  - apply NoDup_cons. split; [|apply NoDup_singleton].
    intros Hin. apply list_elem_of_singleton in Hin. discriminate.
  - reflexivity.
  - split; [exact He|]. split; [exact Hl|]. apply Hkeep.
    intros i Hi. apply elem_of_cons in Hi as [-> | Hi]; [discriminate|].
    apply list_elem_of_singleton in Hi as ->. discriminate.
Defined.

Lemma Set_stops_at_first_bad_position_witness :
  let s : GotaSeries (ElementValue Z) := NewSeries "x" [1; 2; 3] in
  Set_series s (IdxInts [0; 7; 1]) (NewSeries "" [10; 70; 20])
  = mkGotaSeries "x" [mkElementValue 10 false; mkElementValue 2 false; mkElementValue 3 false]
                 (Some "set error: index out of range").
Proof.
  intros s.
  etransitivity;
    [apply (Set_stops_at_first_bad_position s "" [0] [1] 7
              [mkElementValue 10 false] [mkElementValue 20 false] (mkElementValue 70 false))|].
  - reflexivity.
  - repeat constructor; unfold Len, len; simpl; lia.
  - right. unfold Len, len. simpl. lia.
  - reflexivity.
  - reflexivity.
  - reflexivity.
Defined.

(** ** Order without an ordering *)

Lemma Order_positions {T E : Type} `{Element T E} (s : GotaSeries E) (reverse : bool) :
  Order s reverse ≡ₚ seqZ 0 (Len s).
Proof.
  rewrite Order_sorts_with_before, sort_Stable_Permutation.
  unfold spec.presentEntries, spec.missingPositions.
  rewrite <- map_app, filter_split_Permutation, entries_from_index. reflexivity.
Qed.

(** X8: whatever the element's [Less] does (a float column may hold
    NaN payloads, which no order ranks), [Order] returns every position
    of the column exactly once. *)
Theorem Order_is_permutation {T E : Type} `{Element T E}
    (s : GotaSeries E) (reverse : bool) :
  Order s reverse ≡ₚ seqZ 0 (Len s)
  /\ length (Order s reverse) = length (elements s)
  /\ NoDup (Order s reverse).
Proof.
  pose proof (Order_positions s reverse) as Hp.
  split; [exact Hp|]. split.
  - rewrite Hp, length_seqZ. unfold Len, len. lia.
  - rewrite Hp. apply NoDup_seqZ.
Qed.

(** ** Compare with a number *)

Section CompareFacts.
Context {T E : Type} `{Element T E}.
Variable fromFloat64 : float64 -> T.

(** The six comparators [compareElements] knows. *)
Definition knownComparator (c : Comparator) : bool :=
  match c with
  | CompEq | CompNeq | CompGreater | CompGreaterEq | CompLess | CompLessEq => true
  | _ => false
  end.

Lemma compareElements_known (a : E) (b : float64) (c : Comparator) :
  knownComparator c = true -> exists r, compareElements fromFloat64 a b c = inl r.
Proof. destruct c; simpl; intros Hc; try discriminate; eexists; reflexivity. Qed.

Lemma compareElements_unknown (a : E) (b : float64) (c : Comparator) :
  knownComparator c = false -> exists err, compareElements fromFloat64 a b c = inr err.
Proof. destruct c; simpl; intros Hc; try discriminate; eexists; reflexivity. Qed.

Lemma compareToNumber_bools_known (c : Comparator) (f : float64) (els : list E) (name : string) :
  knownComparator c = true ->
  exists bools,
    compareToNumber_bools fromFloat64 (mkGotaSeries name els None) c f = Ret bools
    /\ Forall2 (fun e b => compareElements fromFloat64 e f c = inl b) els bools.
Proof.
  intros Hc. unfold compareToNumber_bools. simpl.
  induction els as [|e els (bools & Hb & Hall)]; simpl.
  - exists []. split; [reflexivity|constructor].
  - destruct (compareElements_known e f c Hc) as (r & Hr).
    rewrite Hr, bind_Ret, Hb, bind_Ret.
    exists (r :: bools). split; [reflexivity|constructor; assumption].
Qed.

(** X9: [Compare] of an error-free column with a [float64] operand
    runs the loop of [compareToNumber].  With one of the six comparators
    the loop completes and computes one Boolean per element, the
    comparison of that element with the operand.  With any other
    comparator [Compare] aborts as soon as the column has an element;
    on a column without elements the loop does nothing. *)
Theorem Compare_with_float (s : GotaSeries E) (c : Comparator) (f : float64) :
  Err s = None ->
  (knownComparator c = true ->
   exists bools,
     compareToNumber_bools fromFloat64 s c f = Ret bools
     /\ Forall2 (fun e b => compareElements fromFloat64 e f c = inl b) (elements s) bools
     /\ len bools = Len s)
  /\ (knownComparator c = false ->
      (elements s <> [] ->
       Compare fromFloat64 s c (CFloat64 f)
       = Panic "comparando is not a comparison function of type func(el Element) bool")
      /\ (elements s = [] -> compareToNumber_bools fromFloat64 s c f = Ret [])).
Proof.
  intros He. destruct s as [name els err]. simpl in He. subst err. split.
  - intros Hc. destruct (compareToNumber_bools_known c f els name Hc) as (bools & Hb & Hall).
    exists bools. split; [exact Hb|]. split; [exact Hall|].
    unfold Len, len. simpl. apply Forall2_length in Hall. lia.
  - intros Hc. split.
    + simpl. destruct els as [|e els]; [congruence|]. intros _.
      unfold Compare, compareToNumber, compareToNumber_bools. simpl.
      destruct (compareElements_unknown e f c Hc) as (msg & Hm). rewrite Hm. reflexivity.
    + simpl. intros ->. reflexivity.
Qed.
End CompareFacts.

Lemma Compare_with_float_witness :
  let s : GotaSeries (ElementValue float64) := NewSeries "x" [float64_zero; float64_one] in
  (exists bools,
      compareToNumber_bools (fun v => v) s CompLess float64_one = Ret bools
      /\ Forall2 (fun e b => compareElements (fun v => v) e float64_one CompLess = inl b)
                 (elements s) bools
      /\ len bools = Len s)
  /\ Compare (fun v => v) s CompIn (CFloat64 float64_one)
     = Panic "comparando is not a comparison function of type func(el Element) bool".
Proof.
  intros s.
  destruct (Compare_with_float (fun v => v) s CompLess float64_one eq_refl) as [Hknown _].
  destruct (Compare_with_float (fun v => v) s CompIn float64_one eq_refl) as [_ Hunknown].
  split; [apply Hknown; reflexivity|].
  apply (proj1 (Hunknown eq_refl)). discriminate.
Defined.

Example Compare_less_than_one :
  Compare (fun v => v) (NewSeries "x" [float64_zero; float64_one] : GotaSeries (ElementValue float64))
          CompLess (CFloat64 float64_one)
  = Ret (BoolColumn (NewSeries "x" [true; false])).
Proof. reflexivity. Qed.

(** ** Looking up a column name *)

Lemma findInStringSlice_from_spec (str : string) (s : list string) :
  forall i, 0 <= i ->
    let r := findInStringSlice_from i str s in
    (r = -1 <-> ~ In str s)
    /\ (r <> -1 ->
        i <= r < i + len s
        /\ s !! Z.to_nat (r - i) = Some str
        /\ forall k : nat, (k < Z.to_nat (r - i))%nat -> s !! k <> Some str).
Proof.
  unfold len. induction s as [|e s IH]; intros i Hi; simpl.
  - split; [tauto|congruence].
  - destruct (String.eqb_spec e str) as [->|Hne].
    + split; [split; [lia|tauto]|]. intros _.
      replace (i - i) with 0 by lia. simpl. repeat split; try lia.
    + specialize (IH (i + 1) ltac:(lia)). simpl in IH. destruct IH as [IH1 IH2].
      split.
      * rewrite IH1. split; [intros Hn [Heq|Hin]; [congruence|tauto]|tauto].
      * intros Hr. destruct (IH2 Hr) as (Hb & Hl & Hfirst).
        split; [lia|].
        replace (Z.to_nat (findInStringSlice_from (i + 1) str s - i))
          with (S (Z.to_nat (findInStringSlice_from (i + 1) str s - (i + 1)))) by lia.
        split; [exact Hl|].
        intros [|k] Hk; simpl; [congruence|]. apply Hfirst. lia.
Qed.

(** X10: [findInStringSlice] returns -1 exactly when the name is not in
    the list, and otherwise the position of its first occurrence. *)
Theorem findInStringSlice_spec (str : string) (s : list string) :
  (findInStringSlice str s = -1 <-> ~ In str s)
  /\ (findInStringSlice str s <> -1 ->
      0 <= findInStringSlice str s < len s
      /\ s !! Z.to_nat (findInStringSlice str s) = Some str
      /\ forall k : nat, (k < Z.to_nat (findInStringSlice str s))%nat -> s !! k <> Some str).
Proof.
  pose proof (findInStringSlice_from_spec str s 0 (Z.le_refl 0)) as [H1 H2]. simpl in H2.
  split; [exact H1|]. intros Hr. specialize (H2 Hr).
  rewrite Z.sub_0_r in H2. exact H2.
Qed.

Lemma findInStringSlice_spec_witness :
  findInStringSlice "b" ["a"; "b"; "c"; "b"] <> -1
  /\ ["a"; "b"; "c"; "b"] !! Z.to_nat (findInStringSlice "b" ["a"; "b"; "c"; "b"]) = Some "b"
  /\ findInStringSlice "z" ["a"; "b"] = -1.
Proof.
  assert (Hf : findInStringSlice "b" ["a"; "b"; "c"; "b"] <> -1) by discriminate.
  split; [exact Hf|]. split.
  - apply (proj2 (findInStringSlice_spec "b" ["a"; "b"; "c"; "b"]) Hf).
  - apply (proj1 (findInStringSlice_spec "z" ["a"; "b"])).
    intros [Hin|[Hin|[]]]; discriminate.
Defined.

(** ** Building a table *)

Section NewFacts.
Context {T E : Type} `{Element T E}.
Variable fixColnames : list string -> list string.

Lemma checkColumnsDimensions_loop_ok (cols : list (GotaSeries E)) :
  forall i nr n,
    checkColumnsDimensions_loop i nr cols = (n, None) ->
    (nr <> -1 -> n = nr) /\ (cols <> [] -> uniform n cols).
Proof.
  induction cols as [|c cols IH]; intros i nr n Hc; simpl in Hc.
  - injection Hc as <-. split; [reflexivity|congruence].
  - destruct (Err c) eqn:He; [discriminate|].
    set (nr' := if nr =? -1 then Len c else nr) in *.
    destruct (negb (nr' =? Len c)) eqn:Hneq; [discriminate|].
    apply negb_false_iff, Z.eqb_eq in Hneq.
    assert (Hnr' : nr' <> -1) by (rewrite Hneq; unfold Len, len; lia).
    destruct (IH _ _ _ Hc) as [Hsame Hu]. specialize (Hsame Hnr'). subst n.
    split.
    + intros Hnr. unfold nr'. apply Z.eqb_neq in Hnr. rewrite Hnr. reflexivity.
    + intros _. constructor; [split; [exact He|symmetry; exact Hneq]|].
      destruct cols as [|c' cols']; [constructor|]. apply Hu. discriminate.
Qed.

Lemma setNames_elements (cols : list (GotaSeries E)) :
  forall names,
    map elements (setNames cols names) = map elements cols
    /\ map Err (setNames cols names) = map Err cols
    /\ length (setNames cols names) = length cols.
Proof.
  induction cols as [|c cols IH]; intros names; simpl; [auto|].
  destruct (IH (tl names)) as (H1 & H2 & H3). rewrite H1, H2, H3. auto.
Qed.

Lemma uniform_setNames (n : Z) (cols : list (GotaSeries E)) (names : list string) :
  uniform n cols -> uniform n (setNames cols names).
Proof.
  unfold uniform. revert names.
  induction cols as [|c cols IH]; intros names Hu; simpl; [constructor|].
  apply Forall_cons in Hu as [Hc Hu]. constructor; [exact Hc|]. apply IH, Hu.
Qed.

(** X11: [New] returns an error-free table exactly when it is given at
    least one column, every column is error-free and all have the same
    length; the table then has that many rows, one column per argument
    holding copies of its elements, and satisfies the table invariant.
    Without columns the error is "empty DataFrame". *)
Theorem New_succeeds_iff (cols : list (GotaSeries E)) :
  (DfErr (New fixColnames cols) = None <-> cols <> [] /\ exists n, uniform n cols)
  /\ (forall n, cols <> [] -> uniform n cols ->
        spec.wellFormed (New fixColnames cols)
        /\ nrows (New fixColnames cols) = n
        /\ ncols (New fixColnames cols) = len cols
        /\ map elements (columns (New fixColnames cols))
           = map (fun c => map Copy (elements c)) cols)
  /\ New fixColnames [] = errDataFrame "empty DataFrame".
Proof.
  assert (Hok : forall n, cols <> [] -> uniform n cols ->
            New fixColnames cols
            = mkGotaDataFrame
                (setNames (map Copy_series cols) (fixColnames (map Name (map Copy_series cols))))
                (len cols) n None).
  { intros n Hne Hu. unfold New.
    assert (Hlen : (len cols =? 0) = false).
    { apply Z.eqb_neq. unfold len. destruct cols; [congruence|simpl; lia]. }
    rewrite Hlen. apply Copy_series_uniform in Hu.
    unfold buildFrame, checkColumnsDimensions.
    replace (len (map Copy_series cols)) with (len cols)
      by (unfold len; rewrite length_map; reflexivity).
    rewrite Hlen.
    destruct (map Copy_series cols) as [|c cs] eqn:Hm;
      [destruct cols; [congruence|discriminate]|].
    pose proof Hu as Hu'. apply Forall_cons in Hu' as [[He Hl] Hcs].
    cbn [checkColumnsDimensions_loop]. rewrite He. simpl.
    unfold Len. rewrite Hl, Z.eqb_refl. simpl.
    rewrite (checkColumnsDimensions_loop_uniform n cs Hcs). reflexivity. }
  split; [|split].
  - split.
    + intros He. unfold New in He.
      destruct (len cols =? 0) eqn:Hlen; [discriminate|].
      apply Z.eqb_neq in Hlen.
      assert (Hne : cols <> []) by (intros ->; apply Hlen; reflexivity).
      split; [exact Hne|].
      unfold buildFrame, checkColumnsDimensions in He.
      destruct (len (map Copy_series cols) =? 0); [discriminate|].
      destruct (checkColumnsDimensions_loop 0 (-1) (map Copy_series cols)) as [n [e|]] eqn:Hc;
        [discriminate|].
      apply checkColumnsDimensions_loop_ok in Hc as [_ Hu].
      exists n. specialize (Hu ltac:(destruct cols; [congruence|discriminate])).
      unfold uniform in *. rewrite Forall_map in Hu.
      eapply Forall_impl; [exact Hu|]. simpl.
      intros c [Hec Hl]. split; [exact Hec|]. unfold len in *. rewrite length_map in Hl. exact Hl.
    + intros [Hne [n Hu]]. rewrite (Hok n Hne Hu). reflexivity.
  - intros n Hne Hu. rewrite (Hok n Hne Hu). simpl.
    pose proof (setNames_elements (map Copy_series cols)
                  (fixColnames (map Name (map Copy_series cols)))) as (Hel & Her & Hlen).
    split; [|split; [reflexivity|split; [reflexivity|]]].
    + split; [reflexivity|]. split.
      * simpl. unfold len. rewrite Hlen, length_map. reflexivity.
      * simpl. apply uniform_setNames, Copy_series_uniform, Hu.
    + rewrite Hel, map_map. reflexivity.
  - reflexivity.
Qed.
End NewFacts.

Lemma New_succeeds_iff_witness :
  let cols : list (GotaSeries (ElementValue Z)) := [NewSeries "a" [1; 2]; NewSeries "b" [3; 4]] in
  DfErr (New (fun names => names) cols) = None
  /\ spec.wellFormed (New (fun names => names) cols)
  /\ nrows (New (fun names => names) cols) = 2
  /\ DfErr (New (fun names => names)
              [NewSeries "a" [1; 2]; NewSeries "b" [3] : GotaSeries (ElementValue Z)]) <> None.
Proof.
  intros cols.
  assert (Hu : uniform 2 cols) by (repeat constructor).
  assert (Hne : cols <> []) by discriminate.
  destruct (New_succeeds_iff (fun names => names) cols) as (Hiff & Hwf & _).
  destruct (Hwf 2 Hne Hu) as (Hw & Hn & _).
  split; [apply Hiff; split; [exact Hne|exists 2; exact Hu]|].
  split; [exact Hw|]. split; [exact Hn|].
  intros Hnone.
  apply (proj1 (New_succeeds_iff (fun names => names) _)) in Hnone as [_ [n Hun]].
  apply Forall_cons in Hun as [[_ H1] Hun]. apply Forall_cons in Hun as [[_ H2] _].
  unfold len in *. simpl in *. lia.
Defined.

(** ** Subsetting a table *)

Lemma rmapM_Forall2 {A B} (f : A -> result B) (l : list A) (bs : list B) :
  rmapM f l = Ret bs <-> Forall2 (fun a b => f a = Ret b) l bs.
Proof.
  revert bs. induction l as [|a l IH]; intros bs; simpl.
  - split; [intros [= <-]; constructor|intros Hf; inversion Hf; reflexivity].
  - split.
    + destruct (f a) as [b|] eqn:Hb; [|discriminate]. rewrite bind_Ret.
      destruct (rmapM f l) as [bs'|] eqn:Hbs; [|discriminate]. rewrite bind_Ret.
      intros [= <-]. constructor; [exact Hb|]. apply IH. reflexivity.
    + intros Hf. inversion Hf as [|a' b l' bs' Hb Hrest]; subst.
      apply IH in Hrest. rewrite Hb, bind_Ret, Hrest. reflexivity.
Qed.

Section SubsetDfFacts.
Context {T E : Type} `{Element T E}.

Lemma Subset_names (idx : list Z) (l l' : list (GotaSeries E)) :
  Forall2 (fun c c' => Subset c (IdxInts idx) = Ret c') l l' ->
  map Name l' = map Name l.
Proof.
  induction 1 as [|a b l l' Hab Hrest IH]; [reflexivity|].
  simpl. rewrite IH. f_equal.
  unfold Subset in Hab. destruct (Err a); [injection Hab as <-; reflexivity|].
  simpl in Hab. destruct (rmapM _ idx); [|discriminate].
  injection Hab as <-. reflexivity.
Qed.

(** What [Subset] of a table returns for row positions in range. *)
Lemma Subset_df_returns (df : GotaDataFrame E) (idx : list Z) :
  spec.wellFormed df -> columns df <> [] ->
  Forall (fun i => 0 <= i < nrows df) idx ->
  exists r,
    Subset_df df (IdxInts idx) = Ret r
    /\ spec.wellFormed r
    /\ nrows r = len idx /\ ncols r = ncols df /\ Names r = Names df
    /\ Forall2 (fun c c' => Subset c (IdxInts idx) = Ret c') (columns df) (columns r).
Proof.
  intros (He & Hnc & Hu) Hne Hidx. unfold Subset_df. rewrite He.
  destruct (rmapM_returns (fun column => Subset column (IdxInts idx))
              (fun c' => Err c' = None /\ len (elements c') = len idx) (columns df))
    as (cols & Hcols & Hlen & Hall).
  { intros c Hc. rewrite Forall_forall in Hu. destruct (Hu c Hc) as [Hec Hlc].
    destruct (Subset_returns c idx Hec) as (r & Hr & _ & Her & Hlr & _).
    { eapply Forall_impl; [exact Hidx|]. simpl. intros i Hi. unfold Len. lia. }
    exists r. split; [exact Hr|]. split; [exact Her|exact Hlr]. }
  rewrite Hcols, bind_Ret.
  assert (Hcne : cols <> []).
  { intros ->. destruct (columns df); [congruence|discriminate]. }
  unfold checkColumnsDimensions.
  assert (Hl0 : (len cols =? 0) = false).
  { apply Z.eqb_neq. unfold len. destruct cols; [congruence|simpl; lia]. }
  rewrite Hl0.
  destruct cols as [|c cs]; [congruence|].
  pose proof Hall as Hall'. apply Forall_cons in Hall' as [[Hec Hlc] Hcs].
  cbn [checkColumnsDimensions_loop]. rewrite Hec. simpl. unfold Len. rewrite Hlc, Z.eqb_refl.
  simpl. rewrite (checkColumnsDimensions_loop_uniform (len idx) cs Hcs).
  eexists. split; [reflexivity|]. simpl.
  apply rmapM_Forall2 in Hcols.
  split; [|split; [reflexivity|split; [|split; [|exact Hcols]]]].
  + split; [reflexivity|]. split; [reflexivity|exact Hall].
  + rewrite Hnc. unfold len. rewrite Hlen. reflexivity.
  + change (map Name (c :: cs) = map Name (columns df)).
    apply (Subset_names idx). exact Hcols.
Qed.

(** X12: [Subset] of a well-formed table with at least one column, on
    row positions that are all in range, returns a well-formed table
    with one row per position, the same number of columns and the same
    column names, each column being the [Subset] of the original one.
    On an error-free table without columns it returns the error "no
    Series given". *)
Theorem Subset_df_in_range (df : GotaDataFrame E) (idx : list Z) :
  (spec.wellFormed df -> columns df <> [] ->
   Forall (fun i => 0 <= i < nrows df) idx ->
   exists r,
     Subset_df df (IdxInts idx) = Ret r
     /\ spec.wellFormed r
     /\ nrows r = len idx /\ ncols r = ncols df /\ Names r = Names df
     /\ Forall2 (fun c c' => Subset c (IdxInts idx) = Ret c') (columns df) (columns r))
  /\ (DfErr df = None -> columns df = [] ->
      Subset_df df (IdxInts idx) = Ret (errDataFrame "no Series given")).
Proof.
  split.
  - apply Subset_df_returns.
  - intros He Hc. unfold Subset_df. rewrite He, Hc. reflexivity.
Qed.
End SubsetDfFacts.

Lemma Subset_df_in_range_witness :
  exists r,
    Subset_df tableA (IdxInts [2; 0]) = Ret r
    /\ spec.wellFormed r
    /\ nrows r = 2 /\ ncols r = 2 /\ Names r = ["id"; "x"].
Proof.
  destruct (proj1 (Subset_df_in_range tableA [2; 0])) as (r & Hr & Hw & Hn & Hc & Hnames & _).
  - repeat split. repeat constructor.
  - discriminate.
  - repeat constructor; simpl; lia.
  - exists r. repeat split; try assumption; apply Hw.
Defined.

(** ** Subsetting with a permutation and its inverse *)

Lemma positionOf_lookup (x : Z) (p : list Z) :
  x ∈ p ->
  forall o, exists i : nat, spec.positionOf o x p = o + Z.of_nat i /\ p !! i = Some x.
Proof.
  induction p as [|y p IH]; intros Hx o; [inversion Hx|].
  simpl. destruct (y =? x) eqn:Hyx.
  - apply Z.eqb_eq in Hyx as ->. exists 0%nat. split; [lia|reflexivity].
  - apply elem_of_cons in Hx as [-> | Hx]; [rewrite Z.eqb_refl in Hyx; discriminate|].
    destruct (IH Hx (o + 1)) as (i & Hi & Hp). exists (S i). split; [lia|exact Hp].
Qed.

Section PickFacts.
Context {A : Type}.

(** The elements at the positions [idx], when all are in range. *)
Definition pick (els : list A) (idx : list Z) : option (list A) :=
  mapM (fun i => if i <? 0 then None else els !! Z.to_nat i) idx.

Lemma pick_in_range (els : list A) (idx : list Z) :
  Forall (fun i => 0 <= i < len els) idx ->
  exists l, pick els idx = Some l
            /\ Forall2 (fun i y => els !! Z.to_nat i = Some y) idx l.
Proof.
  induction 1 as [|i idx Hi Hidx (l & Hl & Hall)].
  - exists []. split; [reflexivity|constructor].
  - destruct (els !! Z.to_nat i) as [y|] eqn:Hy.
    + exists (y :: l). split; [|constructor; assumption].
      unfold pick in *. cbn [mapM]. 
      replace (i <? 0) with false by (symmetry; apply Z.ltb_ge; lia).
      rewrite Hy. simpl. rewrite Hl. reflexivity.
    + apply lookup_ge_None in Hy. unfold len in Hi. lia.
Qed.

(** Picking with a permutation of the positions and then with its
    inverse gives the list back. *)
Lemma pick_inverse (els l : list A) (p : list Z) :
  p ≡ₚ seqZ 0 (len els) ->
  Forall2 (fun i y => els !! Z.to_nat i = Some y) p l ->
  pick l (spec.inverse p) = Some els.
Proof.
  intros Hp Hl. unfold pick. apply mapM_Some. unfold spec.inverse.
  apply Forall2_fmap_l.
  assert (Hlen : len p = len els).
  { unfold len. rewrite (Permutation_length Hp), length_seqZ. unfold len. lia. }
  rewrite Hlen.
  apply Forall2_same_length_lookup_2.
  - rewrite length_seqZ. unfold len. lia.
  - intros k x y Hx Hy. apply lookup_seqZ in Hx as [Hx Hk].
    rewrite Z.add_0_l in Hx. subst x. unfold compose. cbv beta.
    assert (Hin : Z.of_nat k ∈ p).
    { rewrite Hp. apply elem_of_seqZ. lia. }
    destruct (positionOf_lookup _ _ Hin 0) as (i & Hi & Hpi). rewrite Hi.
    replace (0 + Z.of_nat i <? 0) with false by (symmetry; apply Z.ltb_ge; lia).
    replace (Z.to_nat (0 + Z.of_nat i)) with i by lia.
    destruct (Forall2_lookup_l _ _ _ _ _ Hl Hpi) as (y' & Hy' & Hel).
    rewrite Nat2Z.id in Hel. congruence.
Qed.
End PickFacts.

Section SubsetRoundTrip.
Context {T E : Type} `{Element T E}.
Variable outOfRange : error.

Lemma checkColumnsDimensions_uniform (n : Z) (cols : list (GotaSeries E)) :
  uniform n cols -> cols <> [] ->
  checkColumnsDimensions cols = (n, len cols, None).
Proof.
  intros Hu Hne. unfold checkColumnsDimensions.
  assert (Hl0 : (len cols =? 0) = false).
  { apply Z.eqb_neq. unfold len. destruct cols; [congruence|simpl; lia]. }
  rewrite Hl0. destruct cols as [|c cs]; [congruence|].
  pose proof Hu as Hu'. apply Forall_cons in Hu' as [[Hec Hlc] Hcs].
  cbn [checkColumnsDimensions_loop]. rewrite Hec. simpl. unfold Len.
  rewrite Hlc, Z.eqb_refl. simpl.
  rewrite (checkColumnsDimensions_loop_uniform n cs Hcs). reflexivity.
Qed.

(** One column: the elements come back, each as it was. *)
Lemma Series1_Subset_round_trip (c : GotaSeries E) (p : list Z) :
  Err c = None -> p ≡ₚ seqZ 0 (len (elements c)) ->
  exists c1,
    Series1_Subset outOfRange c (IdxInts p) = Ret c1
    /\ Err c1 = None /\ len (elements c1) = len (elements c)
    /\ pick (elements c) p = Some (elements c1)
    /\ Series1_Subset outOfRange c1 (IdxInts (spec.inverse p)) = Ret c.
Proof.
  intros He Hp.
  destruct (pick_in_range (elements c) p) as (l & Hl & Hall).
  { apply Forall_forall. intros i Hi. rewrite Hp in Hi. apply elem_of_seqZ in Hi. lia. }
  exists (mkGotaSeries (Name c) l None).
  unfold Series1_Subset. rewrite He. cbn [parseIndexes Err elements Name].
  unfold pick in Hl. rewrite Hl.
  split; [reflexivity|]. split; [reflexivity|].
  split.
  { unfold len. rewrite <- (Forall2_length _ _ _ Hall), (Permutation_length Hp), length_seqZ.
    unfold len. lia. }
  split; [exact Hl|].
  pose proof (pick_inverse _ _ _ Hp Hall) as Hinv. unfold pick in Hinv. rewrite Hinv.
  destruct c as [name els err]. simpl in *. subst err. reflexivity.
Qed.

Lemma columns_round_trip (n : Z) (p : list Z) (cols : list (GotaSeries E)) :
  uniform n cols -> p ≡ₚ seqZ 0 n ->
  exists cols1,
    rmapM (fun column => Series1_Subset outOfRange column (IdxInts p)) cols = Ret cols1
    /\ uniform n cols1 /\ length cols1 = length cols
    /\ rmapM (fun column => Series1_Subset outOfRange column (IdxInts (spec.inverse p)))
             cols1
       = Ret cols.
Proof.
  intros Hu Hp. induction Hu as [|c cols [He Hn] Hu (cols1 & H1 & Hu1 & Hl1 & H2)].
  - exists []. repeat split. constructor.
  - destruct (Series1_Subset_round_trip c p He) as (c1 & Hc1 & He1 & Hn1 & _ & Hback).
    { rewrite Hn. exact Hp. }
    exists (c1 :: cols1). cbn [rmapM]. rewrite Hc1, bind_Ret, H1, bind_Ret.
    split; [reflexivity|]. split; [constructor; [split; [exact He1|lia]|exact Hu1]|].
    split; [simpl; lia|].
    rewrite Hback, bind_Ret, H2, bind_Ret. reflexivity.
Qed.

(** C3: for a table that carries an error, or that is well formed and
    has at least one column, and a permutation [p] of its row
    positions, [Subset(p)] followed by [Subset(inverse(p))] returns the
    table itself: the same columns with the same elements, missing
    flags included.  The [Subset] of the columns is the one of the
    specification. *)
Theorem Subset_permutation_round_trip (df : GotaDataFrame E) (p : list Z) :
  DfErr df <> None \/ (spec.wellFormed df /\ columns df <> []) ->
  p ≡ₚ seqZ 0 (nrows df) ->
  (t' ← Subset_columns (Series1_Subset outOfRange) df (IdxInts p);
   Subset_columns (Series1_Subset outOfRange) t' (IdxInts (spec.inverse p)))
  = Ret df.
Proof.
  intros [Herr | [(He & Hnc & Hu) Hne]] Hp.
  - unfold Subset_columns. destruct (DfErr df) eqn:Hd; [|congruence].
    rewrite bind_Ret, Hd. reflexivity.
  - destruct (columns_round_trip (nrows df) p (columns df) Hu Hp)
      as (cols1 & H1 & Hu1 & Hl1 & H2).
    assert (Hne1 : cols1 <> []).
    { intros ->. destruct (columns df); [congruence|discriminate]. }
    unfold Subset_columns at 2. rewrite He, H1, bind_Ret.
    rewrite (checkColumnsDimensions_uniform _ _ Hu1 Hne1), bind_Ret.
    unfold Subset_columns. cbn [DfErr columns]. rewrite H2, bind_Ret.
    rewrite (checkColumnsDimensions_uniform _ _ Hu Hne), <- Hnc.
    destruct df as [cols nc nr err]. simpl in *. subst err. reflexivity.
Qed.

(** A table that carries no error and has no column: [Subset] returns
    the error "no Series given", with the columns of the specification
    and with those of the sources alike. *)
Lemma Subset_without_columns_fails (df : GotaDataFrame E) (indexes : Indexes) :
  DfErr df = None -> columns df = [] ->
  Subset_columns (Series1_Subset outOfRange) df indexes = Ret (errDataFrame "no Series given")
  /\ Subset_df df indexes = Ret (errDataFrame "no Series given").
Proof.
  intros He Hc. unfold Subset_columns, Subset_df. rewrite He, Hc. split; reflexivity.
Qed.
End SubsetRoundTrip.

Lemma Subset_permutation_round_trip_witness :
  let x := mkGotaSeries "x" [mkElementValue 0 true; mkElementValue 5 false;
                             mkElementValue 7 false] None in
  let y := mkGotaSeries "y" [mkElementValue 1 false; mkElementValue 0 true;
                             mkElementValue 0 true] None in
  let t : GotaDataFrame (ElementValue Z) := mkGotaDataFrame [x; y] 2 3 None in
  let Subset1 := Subset_columns (Series1_Subset "index out of range") in
  spec.inverse [2; 0; 1] = [1; 2; 0]
  /\ Subset1 t (IdxInts [2; 0; 1])
     = Ret (mkGotaDataFrame
              [mkGotaSeries "x" [mkElementValue 7 false; mkElementValue 0 true;
                                 mkElementValue 5 false] None;
               mkGotaSeries "y" [mkElementValue 0 true; mkElementValue 1 false;
                                 mkElementValue 0 true] None] 2 3 None)
  /\ (t' ← Subset1 t (IdxInts [2; 0; 1]); Subset1 t' (IdxInts (spec.inverse [2; 0; 1])))
     = Ret t.
Proof.
  intros x y t Subset1. split; [reflexivity|]. split; [reflexivity|].
  apply (Subset_permutation_round_trip "index out of range" t [2; 0; 1]).
  - right. split; [|discriminate]. repeat split. repeat constructor.
  - change (seqZ 0 (nrows t)) with [0; 1; 2].
    transitivity [0; 2; 1]; [apply perm_swap|apply perm_skip, perm_swap].
Defined.

(** C3, a table for which the round trip fails: the table without
    columns and without error has no rows, the empty list is the one
    permutation of its positions, and [Subset] returns the error "no
    Series given" of [checkColumnsDimensions], not the table. *)
Lemma Subset_of_table_without_columns :
  let t : GotaDataFrame (ElementValue Z) := mkGotaDataFrame [] 0 0 None in
  let p : list Z := [] in
  let Subset1 := Subset_columns (Series1_Subset "index out of range") in
  spec.wellFormed t
  /\ p ≡ₚ seqZ 0 (nrows t)
  /\ Subset1 t (IdxInts p) = Ret (errDataFrame "no Series given")
  /\ Subset_df t (IdxInts p) = Ret (errDataFrame "no Series given")
  /\ (t' ← Subset1 t (IdxInts p); Subset1 t' (IdxInts (spec.inverse p))) <> Ret t.
Proof.
  repeat split; try constructor. discriminate.
Qed.

(** ** Panics *)

Section Panics.
Context {T E : Type} `{Element T E}.
Variable fixColnames : list string -> list string.
Variable fromFloat64 : float64 -> T.
Variable elemBool : E -> bool + error.
Variable elemType : E -> Type_.
Variable colType : GotaSeries E -> Type_.
Variable castElem : Type_ -> E -> E.

Let FilterAggregation := FilterAggregation fixColnames fromFloat64 elemBool.
Let RApply := RApply fixColnames elemType colType castElem.

(** The operand is a [float64] or a [bool]. *)
Definition numeric (x : Comparando E) : bool :=
  match x with
  | CFloat64 _ | CBool _ => true
  | _ => false
  end.

(** The filter finds its column: an index within the columns when it
    has no name, else a name among the column names. *)
Definition resolves (df : GotaDataFrame E) (f : F (E := E)) : bool :=
  if String.eqb (Colname f) "" then (0 <=? Colidx f) && (Colidx f <? len (columns df))
  else 0 <=? findInStringSlice (Colname f) (Names df).

(** The filter compares a column of the table with a number or a bool
    by one of the six comparators. *)
Definition comparing (df : GotaDataFrame E) (f : F (E := E)) : bool :=
  resolves df f && numeric (Comparando_ f) && knownComparator (Comparator_ f).

(** A comparison result: a Boolean column of [n] present elements. *)
Definition maskOf (n : Z) (r : BoolSeries E) : Prop :=
  exists name bools,
    r = BoolColumn (mkGotaSeries name (NewElements bools) None) /\ len bools = n.

Lemma combineMasks_unknown_aggregation (agg : Aggregation) (r : bool)
    (res nextRes : list bool) :
  agg <> Or -> agg <> And ->
  combineMasks agg (r :: res) nextRes = Panic (Aggregation_String agg).
Proof.
  intros Hor Hand. simpl.
  apply Z.eqb_neq in Hor, Hand. rewrite Hor, Hand. reflexivity.
Qed.

Lemma combineMasks_known_aggregation (agg : Aggregation) (res : list bool) :
  agg = Or \/ agg = And ->
  forall nextRes, (length res <= length nextRes)%nat ->
  exists out, combineMasks agg res nextRes = Ret out /\ length out = length res.
Proof.
  intros Hagg. induction res as [|r res IH]; intros nextRes Hlen.
  - exists []. split; reflexivity.
  - destruct nextRes as [|n nextRes]; [simpl in Hlen; lia|].
    destruct (IH nextRes) as (out & Hout & Hl); [simpl in Hlen; lia|].
    simpl. simpl in Hout.
    destruct Hagg as [-> | ->]; simpl; destruct r; simpl; rewrite Hout; simpl;
      eexists; (split; [reflexivity|simpl; lia]).
Qed.

Lemma detectType_cons (t : Type_) (types : list Type_) :
  returns (detectType (t :: types)).
Proof.
  unfold detectType, returns.
  destruct t; simpl;
    repeat match goal with
           | |- context [existsb ?f types] => destruct (existsb f types); simpl
           end; eexists; reflexivity.
Qed.

(** *** Compare *)

Lemma Compare_numeric (s : GotaSeries E) (c : Comparator) (x : Comparando E) :
  Err s = None -> numeric x = true -> knownComparator c = true ->
  exists bools,
    Compare fromFloat64 s c x
    = Ret (BoolColumn (mkGotaSeries (Name s) (NewElements bools) None))
    /\ len bools = Len s.
Proof.
  intros He Hx Hc. destruct s as [name els err]. simpl in He. subst err.
  assert (Hnum : forall f, exists bools,
             compareToNumber fromFloat64 (mkGotaSeries name els None) c f
             = Ret (BoolColumn (mkGotaSeries name (NewElements bools) None))
             /\ len bools = len els).
  { intros f.
    destruct (compareToNumber_bools_known fromFloat64 c f els name Hc) as (bools & Hb & Hall).
    exists bools. unfold compareToNumber. rewrite Hb, bind_Ret.
    split; [reflexivity|]. unfold len. apply Forall2_length in Hall. lia. }
  destruct x as [i|f|b|str|x|]; try discriminate; unfold Compare; simpl.
  - apply Hnum.
  - destruct b; apply Hnum.
Qed.

Lemma Compare_unknown_comparator (s : GotaSeries E) (c : Comparator) (x : Comparando E) :
  Err s = None -> numeric x = true -> knownComparator c = false ->
  (elements s = [] ->
   Compare fromFloat64 s c x = Ret (BoolColumn (mkGotaSeries (Name s) [] None)))
  /\ (elements s <> [] ->
      Compare fromFloat64 s c x
      = Panic "comparando is not a comparison function of type func(el Element) bool").
Proof.
  intros He Hx Hc. destruct s as [name els err]. simpl in He. subst err. simpl.
  split.
  - intros ->. destruct x as [i|f|b|str|x|]; try discriminate; [reflexivity|].
    destruct b; reflexivity.
  - destruct els as [|e els]; [congruence|]. intros _.
    assert (Hnum : forall f,
               compareToNumber fromFloat64 (mkGotaSeries name (e :: els) None) c f
               = Panic "comparando is not a comparison function of type func(el Element) bool").
    { intros f. unfold compareToNumber, compareToNumber_bools. simpl.
      destruct (compareElements_unknown fromFloat64 e f c Hc) as (msg & Hm).
      rewrite Hm. reflexivity. }
    destruct x as [i|f|b|str|x|]; try discriminate; unfold Compare; simpl.
    + apply Hnum.
    + destruct b; apply Hnum.
Qed.

(** *** FilterAggregation *)

Lemma Bool_loop_present (bools : list bool) :
  Bool_loop BoolElementValue_Bool (NewElements bools) = inl bools.
Proof.
  induction bools as [|b bools IH]; [reflexivity|].
  simpl. simpl in IH. rewrite IH. reflexivity.
Qed.

Lemma maskOf_Err (n : Z) (r : BoolSeries E) : maskOf n r -> BoolSeries_Err r = Ret None.
Proof. intros (name & bools & -> & _). reflexivity. Qed.

Lemma maskOf_Bool (n : Z) (r : BoolSeries E) :
  maskOf n r -> exists bools, BoolSeries_Bool elemBool r = Ret (inl bools) /\ len bools = n.
Proof.
  intros (name & bools & -> & Hn). exists bools. split; [|exact Hn].
  simpl. rewrite Bool_loop_present. reflexivity.
Qed.

Lemma resolves_column (df : GotaDataFrame E) (f : F (E := E)) :
  resolves df f = true ->
  let idx := if String.eqb (Colname f) "" then Colidx f
             else findInStringSlice (Colname f) (Names df) in
  (negb (String.eqb (Colname f) "") && (idx <? 0) = false)
  /\ exists col, elem_at (columns df) idx = Ret col /\ col ∈ columns df.
Proof.
  unfold resolves. intros Hr. cbv zeta.
  destruct (String.eqb (Colname f) "") eqn:Hname; simpl.
  - split; [reflexivity|]. apply elem_at_in_range. lia.
  - apply Z.leb_le in Hr. split; [apply Z.ltb_ge; exact Hr|].
    apply elem_at_in_range. unfold findInStringSlice in *.
    destruct (findInStringSlice_from_range (Colname f) (Names df) 0) as [Hm | Hm]; [lia|].
    unfold Names, len in *. rewrite length_map in Hm. lia.
Qed.

(** One round of the first loop on a comparing filter: the comparison
    result is a Boolean column of as many elements as the table has
    rows, and the loop goes on. *)
Lemma filterResults_step (df : GotaDataFrame E) (f : F (E := E)) :
  spec.wellFormed df -> comparing df f = true ->
  exists r,
    maskOf (nrows df) r
    /\ forall filters,
        filterResults fromFloat64 df (f :: filters)
        = (rest ← filterResults fromFloat64 df filters;
           match rest with
           | inr errdf => Ret (inr errdf)
           | inl compResults => Ret (inl (r :: compResults))
           end).
Proof.
  intros (_ & _ & Hu) Hf. unfold comparing in Hf.
  apply andb_true_iff in Hf as [Hf Hknown]. apply andb_true_iff in Hf as [Hres Hnum].
  destruct (resolves_column df f Hres) as (Hguard & col & Hcol & Hin).
  destruct (proj1 (Forall_forall _ _) Hu col Hin) as [Hec Hlc].
  destruct (Compare_numeric col _ _ Hec Hnum Hknown) as (bools & Hb & Hlen).
  exists (BoolColumn (mkGotaSeries (Name col) (NewElements bools) None)). split.
  - exists (Name col), bools. split; [reflexivity|]. unfold Len in Hlen. lia.
  - intros filters. cbn [filterResults]. cbv zeta. rewrite Hguard, Hcol, bind_Ret.
    rewrite Hb, bind_Ret. reflexivity.
Qed.

Lemma filterResults_comparing (df : GotaDataFrame E) (filters : list (F (E := E))) :
  spec.wellFormed df -> forallb (comparing df) filters = true ->
  exists rs,
    filterResults fromFloat64 df filters = Ret (inl rs)
    /\ Forall (maskOf (nrows df)) rs /\ length rs = length filters.
Proof.
  intros Hwf. induction filters as [|f filters IH]; intros Hall.
  - exists []. repeat split. constructor.
  - simpl in Hall. apply andb_true_iff in Hall as [Hf Hall].
    destruct (IH Hall) as (rs & Hrs & Hmask & Hlen).
    destruct (filterResults_step df f Hwf Hf) as (r & Hr & Hstep).
    exists (r :: rs). rewrite Hstep, Hrs, bind_Ret.
    split; [reflexivity|]. split; [constructor; assumption|simpl; lia].
Qed.

(** A filter that names an unknown column ends the first loop with the
    error, after any number of comparing filters. *)
Lemma filterResults_unknown_column (df : GotaDataFrame E)
    (pre : list (F (E := E))) (f : F (E := E)) (post : list (F (E := E))) :
  spec.wellFormed df -> forallb (comparing df) pre = true ->
  Colname f <> "" -> findInStringSlice (Colname f) (Names df) < 0 ->
  filterResults fromFloat64 df (pre ++ f :: post)
  = Ret (inr (errDataFrame "filter: can't find column name")).
Proof.
  intros Hwf Hpre Hname Hidx. induction pre as [|g pre IH].
  - simpl. apply String.eqb_neq in Hname. rewrite Hname. simpl.
    apply Z.ltb_lt in Hidx. rewrite Hidx. reflexivity.
  - simpl in Hpre. apply andb_true_iff in Hpre as [Hg Hpre].
    destruct (filterResults_step df g Hwf Hg) as (r & _ & Hstep).
    rewrite <- app_comm_cons, Hstep, (IH Hpre), bind_Ret. reflexivity.
Qed.

Lemma combineMasks_returns (agg : Aggregation) (res nextRes : list bool) :
  agg = Or \/ agg = And \/ res = [] ->
  (length res <= length nextRes)%nat ->
  exists out, combineMasks agg res nextRes = Ret out /\ length out = length res.
Proof.
  intros [Hagg | [Hagg | ->]] Hlen.
  - apply combineMasks_known_aggregation; auto.
  - apply combineMasks_known_aggregation; auto.
  - exists []. split; reflexivity.
Qed.

Lemma aggregateResults_returns (agg : Aggregation) (n : Z) (rs : list (BoolSeries E)) :
  agg = Or \/ agg = And \/ n = 0 ->
  Forall (maskOf n) rs ->
  forall res, len res = n ->
    exists out, aggregateResults elemBool agg res rs = Ret (inl out) /\ len out = n.
Proof.
  intros Hagg Hrs. induction Hrs as [|c rs Hc Hrs IH]; intros res Hres.
  - exists res. split; [reflexivity|exact Hres].
  - destruct (maskOf_Bool n c Hc) as (nextRes & Hnext & Hn).
    destruct (combineMasks_returns agg res nextRes) as (out & Hout & Hlen).
    { destruct Hagg as [Hagg | [Hagg | Hagg]]; auto.
      right. right. subst n. unfold len in Hres. destruct res; [reflexivity|simpl in Hres; lia]. }
    { unfold len in *. lia. }
    destruct (IH out) as (out' & Hout' & Hlen'); [unfold len in *; lia|].
    exists out'. cbn [aggregateResults]. rewrite Hnext, bind_Ret, Hout, bind_Ret.
    split; [exact Hout'|exact Hlen'].
Qed.

Lemma filter_mask_length {A} (bools : list bool) :
  forall els : list A,
    length bools = length els ->
    length (List.filter fst (combine bools els)) = length (List.filter id bools).
Proof.
  induction bools as [|b bools IH]; intros [|e els] Hlen; try discriminate; [reflexivity|].
  simpl. destruct b; simpl; rewrite IH by (simpl in Hlen; lia); reflexivity.
Qed.

(** The mask an aggregation leaves has one entry per row: [Subset]
    returns a well-formed table. *)
Lemma Subset_df_mask (df : GotaDataFrame E) (bools : list bool) :
  spec.wellFormed df -> columns df <> [] -> len bools = nrows df ->
  exists r, Subset_df df (IdxBools bools) = Ret r /\ spec.wellFormed r.
Proof.
  intros (He & Hnc & Hu) Hne Hlen. unfold Subset_df. rewrite He.
  set (k := len (List.filter id bools)).
  destruct (rmapM_returns (fun column => Subset column (IdxBools bools))
              (fun c' => Err c' = None /\ len (elements c') = k) (columns df))
    as (cols & Hcols & Hl & Hall).
  { intros c Hc. destruct (proj1 (Forall_forall _ _) Hu c Hc) as [Hec Hlc].
    unfold Subset. rewrite Hec. simpl. unfold Len. rewrite Hlc, Hlen, Z.eqb_refl. simpl.
    assert (Hll : length bools = length (elements c)) by (unfold len in *; lia).
    pose proof (mask_values bools (elements c) [] Hll) as Hm.
    unfold len in Hm. simpl in Hm. change (Z.of_nat 0) with 0 in Hm.
    rewrite Hm, bind_Ret. eexists. split; [reflexivity|]. simpl.
    split; [reflexivity|]. unfold k, len, NewElements.
    rewrite !length_map, (filter_mask_length bools _ Hll). reflexivity. }
  rewrite Hcols, bind_Ret.
  assert (Hcne : cols <> []).
  { intros ->. destruct (columns df); [congruence|discriminate]. }
  rewrite (checkColumnsDimensions_uniform k cols Hall Hcne).
  eexists. split; [reflexivity|]. split; [reflexivity|]. split; [reflexivity|exact Hall].
Qed.

Lemma comparing_columns (df : GotaDataFrame E) (f : F (E := E)) :
  comparing df f = true -> columns df <> [].
Proof.
  unfold comparing. intros Hf.
  apply andb_true_iff in Hf as [Hf _]. apply andb_true_iff in Hf as [Hres _].
  destruct (resolves_column df f Hres) as (_ & col & _ & Hin).
  intros Hnil. rewrite Hnil in Hin. inversion Hin.
Qed.

Lemma FilterAggregation_returns (df : GotaDataFrame E) (agg : Aggregation)
    (filters : list (F (E := E))) :
  spec.wellFormed df -> filters <> [] -> forallb (comparing df) filters = true ->
  agg = Or \/ agg = And \/ (length filters <= 1)%nat \/ nrows df = 0 ->
  exists r, FilterAggregation df agg filters = Ret r /\ spec.wellFormed r.
Proof.
  intros Hwf Hne Hall Hagg.
  destruct (filterResults_comparing df filters Hwf Hall) as (rs & Hrs & Hmask & Hlen).
  destruct rs as [|c0 rs]; [destruct filters; [congruence|discriminate]|].
  apply Forall_cons in Hmask as [Hc0 Hmask].
  destruct (maskOf_Bool _ _ Hc0) as (res & Hres & Hn).
  assert (Hcols : columns df <> []).
  { destruct filters as [|f filters]; [congruence|].
    simpl in Hall. apply andb_true_iff in Hall as [Hf _]. apply (comparing_columns df f Hf). }
  assert (Hout : exists out,
             aggregateResults elemBool agg res rs = Ret (inl out) /\ len out = nrows df).
  { destruct Hagg as [Hagg | [Hagg | [Hagg | Hagg]]].
    - apply (aggregateResults_returns agg (nrows df)); auto.
    - apply (aggregateResults_returns agg (nrows df)); auto.
    - destruct rs as [|c1 rs]; [|simpl in Hlen; lia].
      exists res. split; [reflexivity|exact Hn].
    - apply (aggregateResults_returns agg (nrows df)); auto. }
  destruct Hout as (out & Hout & Hlout).
  pose proof Hwf as (He & _).
  unfold FilterAggregation, dataframe.FilterAggregation.
  rewrite He, Hrs, bind_Ret, Hres, bind_Ret, Hout, bind_Ret.
  apply Subset_df_mask; assumption.
Qed.

(** [FilterAggregation] reaches the combination loop with two
    comparison results over at least one row: an [Aggregation] other
    than [Or] and [And] aborts. *)
Lemma FilterAggregation_unknown_aggregation (df : GotaDataFrame E) (agg : Aggregation)
    (f0 f1 : F (E := E)) (filters : list (F (E := E))) :
  spec.wellFormed df -> forallb (comparing df) (f0 :: f1 :: filters) = true ->
  1 <= nrows df -> agg <> Or -> agg <> And ->
  FilterAggregation df agg (f0 :: f1 :: filters) = Panic (Aggregation_String agg).
Proof.
  intros Hwf Hall Hrows Hor Hand.
  destruct (filterResults_comparing df _ Hwf Hall) as (rs & Hrs & Hmask & Hlen).
  destruct rs as [|c0 [|c1 rs]]; try discriminate.
  apply Forall_cons in Hmask as [Hc0 Hmask]. apply Forall_cons in Hmask as [Hc1 _].
  destruct (maskOf_Bool _ _ Hc0) as (res & Hres & Hn).
  destruct (maskOf_Bool _ _ Hc1) as (nextRes & Hnext & _).
  destruct res as [|r res]; [unfold len in Hn; simpl in Hn; lia|].
  pose proof Hwf as (He & _).
  unfold FilterAggregation, dataframe.FilterAggregation.
  rewrite He, Hrs, bind_Ret, Hres, bind_Ret. cbn [aggregateResults].
  rewrite Hnext, bind_Ret, (combineMasks_unknown_aggregation agg r res nextRes Hor Hand).
  reflexivity.
Qed.

(** *** RApply *)

(** The row loop over rows within the table returns: an error table,
    or one row of elements per row of the table, all of one length. *)
Lemma RApply_rows_returns (f : GotaSeries E -> GotaSeries E) (rowType : Type_)
    (n : Z) (cols : list (GotaSeries E)) (rows : list Z) :
  uniform n cols -> Forall (fun i => 0 <= i < n) rows ->
  forall (rowlen : Z) (acc : list (list E)),
    Forall (fun row => len row = rowlen) acc -> acc = [] \/ 0 <= rowlen ->
    exists r,
      RApply_rows castElem f rowType cols rows rowlen acc = Ret r
      /\ match r with
         | inr _ => True
         | inl (elems, rowlen') =>
             Forall (fun row => len row = rowlen') elems
             /\ length elems = (length acc + length rows)%nat
             /\ (elems = [] \/ 0 <= rowlen')
         end.
Proof.
  intros Hu Hrows. induction Hrows as [|i rows Hi Hrows IH]; intros rowlen acc Hacc Hinv.
  - eexists. split; [reflexivity|]. simpl. split; [exact Hacc|]. split; [lia|exact Hinv].
  - destruct (rmapM_returns (fun col => Elem col i) (fun _ => True) cols)
      as (cells & Hcells & _).
    { intros c Hc. destruct (proj1 (Forall_forall _ _) Hu c Hc) as [_ Hlc].
      destruct (elem_at_in_range (elements c) i) as (e & He & _); [lia|].
      exists e. split; [exact He|exact I]. }
    cbn [RApply_rows]. rewrite Hcells, bind_Ret. cbv zeta.
    set (row := f (seriesOf castElem rowType cells)).
    destruct (Err row); [eexists; split; [reflexivity|exact I]|].
    destruct (negb (rowlen =? -1) && negb (rowlen =? Len row)) eqn:Hcheck;
      [eexists; split; [reflexivity|exact I]|].
    assert (Hlen0 : 0 <= Len row) by (unfold Len, len; lia).
    destruct (IH (Len row) (acc ++ [elements row])%list) as (r & Hr & Hpost).
    { apply Forall_app. split; [|repeat constructor].
      apply andb_false_iff in Hcheck as [Hcheck | Hcheck].
      - apply negb_false_iff, Z.eqb_eq in Hcheck.
        destruct Hinv as [-> | Hinv]; [constructor|lia].
      - apply negb_false_iff, Z.eqb_eq in Hcheck. rewrite <- Hcheck. exact Hacc. }
    { right. exact Hlen0. }
    exists r. split; [exact Hr|].
    destruct r as [[elems rowlen']|]; [|exact I].
    destruct Hpost as (Hall & Hl & Hinv'). split; [exact Hall|]. split; [|exact Hinv'].
    rewrite Hl, length_app. simpl. lia.
Qed.

Lemma RApply_returns (df : GotaDataFrame E) (f : GotaSeries E -> GotaSeries E) :
  spec.wellFormed df -> columns df <> [] -> 1 <= nrows df ->
  returns (RApply df f).
Proof.
  intros (He & Hnc & Hu) Hne Hrows.
  unfold RApply, dataframe.RApply. rewrite He.
  destruct (columns df) as [|c0 cols0] eqn:Hcols; [congruence|].
  destruct (detectType_cons (colType c0) (map colType cols0)) as (rowType & Hrt).
  unfold Types. rewrite Hcols. cbn [map]. rewrite Hrt, bind_Ret.
  destruct (RApply_rows_returns f rowType (nrows df) (c0 :: cols0) (seqZ 0 (nrows df)))
    with (rowlen := -1) (acc := @nil (list E)) as (r & Hr & Hpost).
  { exact Hu. }
  { apply Forall_forall. intros i Hi. apply elem_of_seqZ in Hi. lia. }
  { constructor. }
  { left. reflexivity. }
  rewrite Hr, bind_Ret.
  destruct r as [[elems rowlen]|errdf]; [|eexists; reflexivity].
  destruct Hpost as (Hall & Hl & Hinv). simpl in Hl. rewrite length_seqZ in Hl.
  assert (Hrl : 0 <= rowlen).
  { destruct Hinv as [-> | Hinv]; [simpl in Hl; lia|exact Hinv]. }
  replace (rowlen <? 0) with false by (symmetry; apply Z.ltb_ge; exact Hrl).
  destruct (rmapM_returns
              (fun j =>
                 cells ← rmapM (fun i => row ← elem_at elems i; elem_at row j)
                               (seqZ 0 (nrows df));
                 t ← detectType (map elemType cells);
                 Ret (seriesOf castElem t cells))
              (fun _ => True) (seqZ 0 rowlen)) as (cols & Hcs & _).
  { intros j Hj. apply elem_of_seqZ in Hj.
    destruct (rmapM_returns (fun i => row ← elem_at elems i; elem_at row j)
                (fun _ => True) (seqZ 0 (nrows df))) as (cells & Hcells & Hlc & _).
    { intros i Hi. apply elem_of_seqZ in Hi.
      destruct (elem_at_in_range elems i) as (row & Hrow & Hin); [unfold len; lia|].
      rewrite Hrow, bind_Ret.
      pose proof (proj1 (Forall_forall _ _) Hall row Hin) as Hlr. simpl in Hlr.
      destruct (elem_at_in_range row j) as (e & Hcell & _); [lia|].
      exists e. split; [exact Hcell|exact I]. }
    rewrite Hcells, bind_Ret. rewrite length_seqZ in Hlc.
    destruct cells as [|e cells]; [simpl in Hlc; lia|].
    destruct (detectType_cons (elemType e) (map elemType cells)) as (t & Ht).
    cbn [map]. rewrite Ht, bind_Ret. eexists. split; [reflexivity|exact I]. }
  rewrite Hcs, bind_Ret. eexists. reflexivity.
Qed.

(** C4 (as amended).  The guard: on a receiver that already carries an
    error the three operations return it unchanged.  [Compare] on an
    error-free column: with a [float64] or [bool] operand and one of
    the six comparators it returns a Boolean column with one present
    element per element; with another comparator it returns on a
    column without elements and aborts on any other; with a string or a
    series it returns [nil]; with an operand of another type it aborts.
    [FilterAggregation] on a well-formed table: without filters it
    returns a copy; at the first filter that names an unknown column,
    behind comparing filters only, it returns the error; with comparing
    filters it returns a well-formed table under [Or] and [And], with a
    single filter and on a table without rows, and aborts under any
    other [Aggregation] when there are two or more filters and at least
    one row.  [RApply] returns on a well-formed table with a column and
    a row, whatever the function, and aborts on an error-free table
    without columns, where none of the four types is present. *)
Theorem operations_panic_only_where_coded :
  (forall (s : GotaSeries E) (err : error) c x,
      Err s = Some err -> Compare fromFloat64 s c x = Ret (Receiver s))
  /\ (forall (df : GotaDataFrame E) (err : error) agg filters,
        DfErr df = Some err -> FilterAggregation df agg filters = Ret df)
  /\ (forall (df : GotaDataFrame E) (err : error) f,
        DfErr df = Some err -> RApply df f = Ret df)
  /\ (forall (s : GotaSeries E) c x,
        Err s = None -> numeric x = true -> knownComparator c = true ->
        exists bools,
          Compare fromFloat64 s c x
          = Ret (BoolColumn (mkGotaSeries (Name s) (NewElements bools) None))
          /\ len bools = Len s)
  /\ (forall (s : GotaSeries E) c x,
        Err s = None -> numeric x = true -> knownComparator c = false ->
        (elements s = [] ->
         Compare fromFloat64 s c x = Ret (BoolColumn (mkGotaSeries (Name s) [] None)))
        /\ (elements s <> [] ->
            Compare fromFloat64 s c x
            = Panic "comparando is not a comparison function of type func(el Element) bool"))
  /\ (forall (s : GotaSeries E) c str,
        Err s = None -> Compare fromFloat64 s c (CString str) = Ret NilSeries)
  /\ (forall (s x : GotaSeries E) c,
        Err s = None -> Compare fromFloat64 s c (CSeries x) = Ret NilSeries)
  /\ (forall (s : GotaSeries E) c,
        Err s = None -> Compare fromFloat64 s c COther = Panic "invalid type found for compare")
  /\ (forall (df : GotaDataFrame E) agg,
        DfErr df = None -> FilterAggregation df agg [] = Ret (Copy_df fixColnames df))
  /\ (forall (df : GotaDataFrame E) agg pre (f : F) post,
        spec.wellFormed df -> forallb (comparing df) pre = true ->
        Colname f <> "" -> findInStringSlice (Colname f) (Names df) < 0 ->
        FilterAggregation df agg (pre ++ f :: post)
        = Ret (errDataFrame "filter: can't find column name"))
  /\ (forall (df : GotaDataFrame E) agg filters,
        spec.wellFormed df -> filters <> [] -> forallb (comparing df) filters = true ->
        agg = Or \/ agg = And \/ (length filters <= 1)%nat \/ nrows df = 0 ->
        exists r, FilterAggregation df agg filters = Ret r /\ spec.wellFormed r)
  /\ (forall (df : GotaDataFrame E) agg f0 f1 filters,
        spec.wellFormed df -> forallb (comparing df) (f0 :: f1 :: filters) = true ->
        1 <= nrows df -> agg <> Or -> agg <> And ->
        FilterAggregation df agg (f0 :: f1 :: filters) = Panic (Aggregation_String agg))
  /\ (forall (df : GotaDataFrame E) f,
        spec.wellFormed df -> columns df <> [] -> 1 <= nrows df ->
        returns (RApply df f))
  /\ (forall (df : GotaDataFrame E) f,
        DfErr df = None -> columns df = [] -> RApply df f = Panic "type not supported").
Proof.
  repeat apply conj.
  - intros s err c x He. unfold Compare. rewrite He. reflexivity.
  - intros df err agg filters He.
    unfold FilterAggregation, dataframe.FilterAggregation. rewrite He. reflexivity.
  - intros df err f He. unfold RApply, dataframe.RApply. rewrite He. reflexivity.
  - apply Compare_numeric.
  - apply Compare_unknown_comparator.
  - intros s c str He. unfold Compare. rewrite He. reflexivity.
  - intros s x c He. unfold Compare. rewrite He. reflexivity.
  - intros s c He. unfold Compare. rewrite He. reflexivity.
  - intros df agg He.
    unfold FilterAggregation, dataframe.FilterAggregation. rewrite He. reflexivity.
  - intros df agg pre f post Hwf Hpre Hname Hidx. pose proof Hwf as (He & _).
    unfold FilterAggregation, dataframe.FilterAggregation.
    rewrite He, (filterResults_unknown_column df pre f post Hwf Hpre Hname Hidx).
    reflexivity.
  - apply FilterAggregation_returns.
  - apply FilterAggregation_unknown_aggregation.
  - apply RApply_returns.
  - intros df f He Hc. unfold RApply, dataframe.RApply, Types. rewrite He, Hc. reflexivity.
Qed.
End Panics.

Lemma operations_panic_only_where_coded_witness :
  let x : GotaSeries (ElementValue float64) := NewSeries "x" [float64_one; float64_zero] in
  let bad : GotaDataFrame (ElementValue float64) := errDataFrame "boom" in
  let t : GotaDataFrame (ElementValue float64) := mkGotaDataFrame [x] 1 2 None in
  let f := mkF 0 "x" CompEq (CFloat64 float64_one) in
  let g := mkF 0 "" CompLess (CBool true) in
  let u := mkF 0 "y" CompEq (CFloat64 float64_one) in
  let FilterAggregation := FilterAggregation (fun l => l) (fun v => v) (fun e => inl true) in
  let RApply := RApply (fun l => l) (fun _ => Float) (fun _ => Float) (fun _ e => e) in
  FilterAggregation bad 2 [mkF 7 "" CompEq COther] = Ret bad
  /\ (exists bools,
        Compare (fun v => v) x CompLess (CBool true)
        = Ret (BoolColumn (mkGotaSeries "x" (NewElements bools) None))
        /\ len bools = 2)
  /\ Compare (fun v => v) x CompIn (CFloat64 float64_one)
     = Panic "comparando is not a comparison function of type func(el Element) bool"
  /\ Compare (fun v => v) x CompEq COther = Panic "invalid type found for compare"
  /\ FilterAggregation t And [f; g; u; mkF 9 "" CompEq COther]
     = Ret (errDataFrame "filter: can't find column name")
  /\ (exists r, FilterAggregation t And [f; g] = Ret r /\ spec.wellFormed r)
  /\ (exists r, FilterAggregation t 2 [g] = Ret r /\ spec.wellFormed r)
  /\ FilterAggregation t 2 [f; g] = Panic "unknown aggragation 2"
  /\ returns (RApply t (fun row => row))
  /\ RApply (mkGotaDataFrame [] 0 0 None) (fun row => row) = Panic "type not supported".
Proof.
  intros x bad t f g u FilterAggregation RApply.
  assert (Hwf : spec.wellFormed t) by (repeat split; repeat constructor).
  destruct (operations_panic_only_where_coded (E := ElementValue float64)
              (fun l => l) (fun v => v) (fun e => inl true)
              (fun _ => Float) (fun _ => Float) (fun _ e => e))
    as (_ & Hguard & _ & Hnum & Hcomp & _ & _ & Hother & _ & Hname & Hret & Hagg
        & Hrows & Hnone).
  split; [apply (Hguard bad "boom"); reflexivity|].
  split.
  { apply (Hnum x CompLess (CBool true)); reflexivity. }
  split; [apply (Hcomp x CompIn (CFloat64 float64_one)); try reflexivity; discriminate|].
  split; [apply Hother; reflexivity|].
  split.
  { apply (Hname t And [f; g] u [mkF 9 "" CompEq COther]);
      [exact Hwf|reflexivity|discriminate|reflexivity]. }
  split.
  { apply Hret; [exact Hwf|discriminate|reflexivity|right; left; reflexivity]. }
  split.
  { apply Hret; [exact Hwf|discriminate|reflexivity|right; right; left; simpl; lia]. }
  split.
  { apply (Hagg t 2 f g []); [exact Hwf|reflexivity|simpl; lia|discriminate|discriminate]. }
  split.
  { apply Hrows; [exact Hwf|discriminate|simpl; lia]. }
  apply Hnone; reflexivity.
Defined.

(** C4: [Compare] on an error-free column with an operand of a type the
    switch does not name (a slice of integers, say) aborts with "invalid
    type found for compare"; [FilterAggregation] with two filters over
    the one-row table [x = [1.0]] and the [Aggregation] value 2 aborts
    too. *)
Lemma Compare_and_FilterAggregation_panic :
  let x : GotaSeries (ElementValue float64) := NewSeries "x" [float64_one] in
  let df := mkGotaDataFrame [x] 1 1 None in
  let f := mkF 0 "x" CompEq (CFloat64 float64_one) in
  Compare (fun v => v) x CompEq COther = Panic "invalid type found for compare"
  /\ FilterAggregation (fun l => l) (fun v => v) (fun e => inl true) df 2 [f; f]
     = Panic "unknown aggragation 2"
  /\ ~ (forall (s : GotaSeries (ElementValue float64)) c operand,
          returns (Compare (fun v => v) s c operand)).
Proof.
  repeat split. intros Hall.
  destruct (Hall (NewSeries "x" [float64_one]) CompEq COther) as [r Hr]. discriminate.
Qed.

(** ** Row counts of the joins *)

Section JoinCounts.
Context {T E : Type} `{Element T E}.
Variable fixColnames : list string -> list string.
Variable missingElement : E.
Variables df b : GotaDataFrame E.
Variable keys : list string.

Hypothesis df_wf : spec.wellFormed df.
Hypothesis b_wf : spec.wellFormed b.
Hypothesis keys_given : keys <> [].
Hypothesis df_keys : spec.hasKeys df keys.
Hypothesis b_keys : spec.hasKeys b keys.

Let width :=
  (length (map (ColIndex df) keys)
   + length (notKeys (ncols df) (map (ColIndex df) keys))
   + length (notKeys (NCol b) (map (ColIndex b) keys)))%nat.

(** The number of matching pairs among the given left rows. *)
Fixpoint matchTotal (is_ : list Z) : Z :=
  match is_ with
  | [] => 0
  | i :: is' => matchCount df b keys i (seqZ 0 (NRow b)) + matchTotal is'
  end.

Lemma innerInner_returns (i : Z) (js : list Z) :
  0 <= i < nrows df -> (forall j, j ∈ js -> 0 <= j < nrows b) ->
  forall (n : Z) (newCols : list (GotaSeries E)),
    uniform n newCols -> length newCols = width ->
    exists cols',
      rfoldl (fun newCols j =>
                m ← matchRows df b keys i j;
                if m : bool
                then row ← rowMatched df b keys i j;
                     Ret (appendRow missingElement newCols row)
                else Ret newCols) newCols js
      = Ret cols'
      /\ uniform (n + matchCount df b keys i js) cols' /\ length cols' = width.
Proof.
  intros Hi. induction js as [|j js IH]; intros Hjs n newCols Hu Hl.
  - exists newCols. simpl. unfold matchCount, len. simpl. rewrite Z.add_0_r. auto.
  - assert (Hj : 0 <= j < nrows b) by (apply Hjs; left).
    assert (Hjs' : forall j', j' ∈ js -> 0 <= j' < nrows b)
      by (intros; apply Hjs; right; assumption).
    rewrite matchCount_cons.
    destruct (matchRows_returns df b keys df_wf b_wf df_keys b_keys i j Hi Hj) as (m & Hm).
    assert (Hrm : rowsMatch df b keys i j = m)
      by (unfold rowsMatch; rewrite Hm; destruct m; reflexivity).
    rewrite Hrm. cbn [rfoldl]. rewrite Hm, bind_Ret.
    destruct m.
    + destruct (rowMatched_returns df b keys df_wf b_wf df_keys i j Hi Hj)
        as (row & Hrow & Hrl).
      rewrite Hrow, !bind_Ret.
      destruct (appendRow_uniform missingElement n newCols row Hu) as [Hu' Hl'];
        [fold width in Hrl; lia|].
      destruct (IH Hjs' (n + 1) _ Hu') as (cols' & Hr & Hu'' & Hl''); [lia|].
      exists cols'. rewrite Hr. split; [reflexivity|]. split; [|exact Hl''].
      replace (n + (1 + matchCount df b keys i js))
        with (n + 1 + matchCount df b keys i js) by lia.
      exact Hu''.
    + destruct (IH Hjs' n newCols Hu Hl) as (cols' & Hr & Hu' & Hl').
      exists cols'. rewrite ?bind_Ret, Hr, !Z.add_0_l. auto.
Qed.

Lemma innerRows_returns (is_ : list Z) :
  (forall i, i ∈ is_ -> 0 <= i < nrows df) ->
  forall (n : Z) (newCols : list (GotaSeries E)),
    uniform n newCols -> length newCols = width ->
    exists cols',
      rfoldl (fun newCols i =>
        rfoldl (fun newCols j =>
                  m ← matchRows df b keys i j;
                  if m : bool
                  then row ← rowMatched df b keys i j;
                       Ret (appendRow missingElement newCols row)
                  else Ret newCols) newCols (seqZ 0 (NRow b)))
        newCols is_
      = Ret cols'
      /\ uniform (n + matchTotal is_) cols' /\ length cols' = width.
Proof.
  induction is_ as [|i is_ IH]; intros His n newCols Hu Hl.
  - exists newCols. simpl. rewrite Z.add_0_r. auto.
  - assert (Hi : 0 <= i < nrows df) by (apply His; left).
    assert (His' : forall i', i' ∈ is_ -> 0 <= i' < nrows df)
      by (intros; apply His; right; assumption).
    destruct (innerInner_returns i (seqZ 0 (NRow b)) Hi) with (n := n) (newCols := newCols)
      as (cols1 & Hr1 & Hu1 & Hl1); [|assumption|assumption|].
    { intros j Hj. apply elem_of_seqZ in Hj. unfold NRow in Hj. lia. }
    cbn [rfoldl matchTotal]. rewrite Hr1, bind_Ret.
    destruct (IH His' _ cols1 Hu1 Hl1) as (cols' & Hr & Hu' & Hl').
    exists cols'. rewrite Hr. split; [reflexivity|]. split; [|exact Hl'].
    rewrite Z.add_assoc. exact Hu'.
Qed.

Lemma InnerJoin_returns :
  exists r, InnerJoin fixColnames missingElement df b keys = Ret r
            /\ DfErr r = None
            /\ NRow r = matchTotal (seqZ 0 (nrows df)).
Proof.
  unfold InnerJoin.
  destruct (joinInit_returns df b keys df_wf b_wf keys_given df_keys b_keys)
    as (newCols & Hinit & Hlen & Hu).
  rewrite Hinit, bind_Ret.
  destruct (innerRows_returns (seqZ 0 (nrows df))) with (n := 0) (newCols := newCols)
    as (cols' & Hr & Hu' & Hl'); [|assumption|assumption|].
  { intros i Hi. apply elem_of_seqZ in Hi. lia. }
  rewrite Hr, bind_Ret.
  destruct (New_uniform fixColnames _ cols' Hu') as (He & Hn & _).
  { intros ->. simpl in Hl'. unfold width in Hl'.
    rewrite length_map in Hl'. destruct keys; [congruence|simpl in Hl'; lia]. }
  eexists. split; [reflexivity|]. split; [exact He|].
  unfold NRow. rewrite Hn. lia.
Qed.

Lemma matchTotal_rowsTotal (is_ : list Z) :
  rowsTotal df b keys is_
  = matchTotal is_
    + len (List.filter (fun i => matchCount df b keys i (seqZ 0 (NRow b)) =? 0) is_).
Proof.
  unfold len. induction is_ as [|i is_ IH]; simpl; [reflexivity|].
  rewrite IH. unfold rowsFor.
  pose proof (matchCount_nonneg df b keys i (seqZ 0 (NRow b))) as Hnn.
  destruct (matchCount df b keys i (seqZ 0 (NRow b)) =? 0) eqn:Hz; simpl length.
  - apply Z.eqb_eq in Hz. lia.
  - apply Z.eqb_neq in Hz. lia.
Qed.

Lemma matchTotal_pairs (is_ : list Z) :
  matchTotal is_
  = len (List.filter (fun p => rowsMatch df b keys p.1 p.2)
                     (list_prod is_ (seqZ 0 (NRow b)))).
Proof.
  unfold len. induction is_ as [|i is_ IH]; simpl; [reflexivity|].
  rewrite List.filter_app, length_app, Nat2Z.inj_add, IH.
  f_equal. unfold matchCount, len. f_equal.
  generalize (seqZ 0 (NRow b)). intros js.
  induction js as [|j js IHj]; simpl; [reflexivity|].
  destruct (rowsMatch df b keys i j); simpl; rewrite IHj; reflexivity.
Qed.
End JoinCounts.

(** X13: for well-formed tables and a non-empty list of keys present
    in both, [InnerJoin] and [LeftJoin] both return error-free tables;
    [InnerJoin] has one row per pair of a left and a right row that
    match on every key, and [LeftJoin] has those rows plus exactly one
    row for every left row without a match, so [InnerJoin] never has
    more rows than [LeftJoin]. *)
Theorem InnerJoin_LeftJoin_row_counts {T E : Type} `{Element T E}
    (fixColnames : list string -> list string) (missingElement : E)
    (A B : GotaDataFrame E) (keys : list string) :
  spec.wellFormed A -> spec.wellFormed B ->
  keys <> [] -> spec.hasKeys A keys -> spec.hasKeys B keys ->
  exists inner left,
    InnerJoin fixColnames missingElement A B keys = Ret inner
    /\ LeftJoin fixColnames missingElement A B keys = Ret left
    /\ DfErr inner = None /\ DfErr left = None
    /\ NRow inner
       = len (List.filter (fun p => rowsMatch A B keys p.1 p.2)
                          (list_prod (seqZ 0 (NRow A)) (seqZ 0 (NRow B))))
    /\ NRow left
       = NRow inner
         + len (List.filter (fun i => matchCount A B keys i (seqZ 0 (NRow B)) =? 0)
                            (seqZ 0 (NRow A)))
    /\ NRow inner <= NRow left.
Proof.
  intros HA HB Hkeys HkA HkB.
  destruct (InnerJoin_returns fixColnames missingElement A B keys HA HB Hkeys HkA HkB)
    as (inner & Hi & Hei & Hni).
  destruct (LeftJoin_returns fixColnames missingElement A B keys HA HB Hkeys HkA HkB)
    as (left & Hl & Hel & Hnl).
  exists inner, left. split; [exact Hi|]. split; [exact Hl|].
  split; [exact Hei|]. split; [exact Hel|].
  rewrite Hni, Hnl, matchTotal_rowsTotal, matchTotal_pairs. unfold NRow.
  split; [reflexivity|]. split; [reflexivity|]. unfold len. lia.
Qed.

Lemma InnerJoin_LeftJoin_row_counts_witness :
  exists inner left,
    InnerJoin (fun names => names) (mkElementValue 0 true) tableA tableB ["id"] = Ret inner
    /\ LeftJoin (fun names => names) (mkElementValue 0 true) tableA tableB ["id"] = Ret left
    /\ NRow inner = 2 /\ NRow left = 3.
Proof.
  destruct (InnerJoin_LeftJoin_row_counts (fun names => names) (mkElementValue 0 true)
              tableA tableB ["id"]) as (inner & left & Hi & Hl & _ & _ & Hni & Hnl & _).
  - repeat split. repeat constructor.
  - repeat split. repeat constructor.
  - discriminate.
  - repeat constructor.
  - repeat constructor.
  - exists inner, left. split; [exact Hi|]. split; [exact Hl|].
    assert (Hn : NRow inner = 2) by (rewrite Hni; reflexivity).
    split; [exact Hn|]. rewrite Hnl, Hn. reflexivity.
Defined.

(** ** Keys that are not found *)

(** *** Formats without a verb *)

Fixpoint hasPercent (s : string) : bool :=
  match s with
  | EmptyString => false
  | String.String c rest => (utf8.byte c =? 37) || hasPercent rest
  end.

Lemma hasPercent_app (a b : string) :
  hasPercent (a ++ b) = hasPercent a || hasPercent b.
Proof.
  induction a as [|c a IH]; simpl; [reflexivity|].
  rewrite IH, orb_assoc. reflexivity.
Qed.

Lemma doPrintf_plain (format : string) :
  hasPercent format = false ->
  forall fuel, (String.length format <= fuel)%nat -> fmt.doPrintf fuel format = format.
Proof.
  induction format as [|c format IH]; intros Hp fuel Hfuel.
  - destruct fuel; reflexivity.
  - simpl in Hp. apply orb_false_iff in Hp as [Hc Hp].
    destruct fuel as [|fuel]; [simpl in Hfuel; lia|].
    simpl. rewrite Hc, IH; [reflexivity|exact Hp|simpl in Hfuel; lia].
Qed.

(** A format that holds no [%] is the message. *)
Lemma Errorf_plain (format : string) :
  hasPercent format = false -> fmt.Errorf format = format.
Proof.
  intros Hp. unfold fmt.Errorf, fmt.Sprintf. apply doPrintf_plain; [exact Hp|lia].
Qed.

Lemma escapeByte_plain (c : ascii) :
  (utf8.byte c =? 37) = false -> hasPercent (strconv.escapeByte c) = false.
Proof. destruct c as [[] [] [] [] [] [] [] []]; vm_compute; congruence. Qed.

Lemma hex2_plain (c : ascii) : hasPercent (strconv.hex2 c) = false.
Proof. destruct c as [[] [] [] [] [] [] [] []]; reflexivity. Qed.

Lemma quoteLoop_plain (s : string) :
  hasPercent s = false -> forall pending, hasPercent (strconv.quoteLoop pending s) = false.
Proof.
  induction s as [|c s IH]; intros Hp pending; [reflexivity|].
  simpl in Hp. apply orb_false_iff in Hp as [Hc Hp].
  cbn [strconv.quoteLoop]. destruct pending as [|k].
  - destruct (utf8.byte c <? 128).
    + rewrite hasPercent_app, escapeByte_plain, IH by assumption. reflexivity.
    + destruct (utf8.encodingWidth (String.String c s)).
      * rewrite !hasPercent_app, hex2_plain, IH by assumption. reflexivity.
      * simpl. rewrite Hc, IH by assumption. reflexivity.
  - simpl. rewrite Hc, IH by assumption. reflexivity.
Qed.

Lemma Quote_plain (s : string) :
  hasPercent s = false -> hasPercent (strconv.Quote s) = false.
Proof.
  intros Hp. unfold strconv.Quote.
  rewrite !hasPercent_app, quoteLoop_plain by exact Hp. reflexivity.
Qed.

Lemma strings_Join_plain (l : list string) (sep : string) :
  Forall (fun a => hasPercent a = false) l -> hasPercent sep = false ->
  hasPercent (strings_Join l sep) = false.
Proof.
  intros Hl Hsep. induction Hl as [|a l Ha Hl IH]; [reflexivity|].
  destruct l as [|a' l]; [exact Ha|].
  change (hasPercent (a ++ sep ++ strings_Join (a' :: l) sep) = false).
  rewrite !hasPercent_app, Ha, Hsep, IH. reflexivity.
Qed.

Section KeyFacts.
Context {T E : Type} `{Element T E}.
Variable fixColnames : list string -> list string.
Variable missingElement : E.

Lemma ColIndex_negative (df : GotaDataFrame E) (key : string) :
  (ColIndex df key <? 0) = true <-> ~ In key (Names df).
Proof.
  unfold ColIndex, findInStringSlice. rewrite Z.ltb_lt.
  destruct (findInStringSlice_from_spec key (Names df) 0 (Z.le_refl 0)) as [Hnone Hsome].
  simpl in Hnone, Hsome. rewrite <- Hnone. split; [|lia].
  intros Hneg. destruct (Z.eq_dec (findInStringSlice_from 0 key (Names df)) (-1)) as [Heq|Hne];
    [exact Heq|]. specialize (Hsome Hne). lia.
Qed.

Lemma keyErrors_nil (df b : GotaDataFrame E) (keys : list string) :
  keyErrors df b keys = [] <-> spec.hasKeys df keys /\ spec.hasKeys b keys.
Proof.
  unfold spec.hasKeys, keyErrors. induction keys as [|key keys IH]; simpl.
  - split; [intros _; split; constructor|reflexivity].
  - rewrite !Forall_cons.
    destruct (ColIndex df key <? 0) eqn:Ha; destruct (ColIndex b key <? 0) eqn:Hb; simpl.
    + apply ColIndex_negative in Ha. split; [discriminate|]. unfold Names in Ha. tauto.
    + apply ColIndex_negative in Ha. split; [discriminate|]. unfold Names in Ha. tauto.
    + apply ColIndex_negative in Hb. split; [discriminate|]. unfold Names in Hb. tauto.
    + assert (Hia : In key (map Name (columns df))).
      { destruct (in_dec string_dec key (Names df)) as [Hin|Hnin]; [exact Hin|].
        apply ColIndex_negative in Hnin. congruence. }
      assert (Hib : In key (map Name (columns b))).
      { destruct (in_dec string_dec key (Names b)) as [Hin|Hnin]; [exact Hin|].
        apply ColIndex_negative in Hnin. congruence. }
      rewrite IH. tauto.
Qed.

Lemma joinInit_rejects (df b : GotaDataFrame E) (keys : list string) :
  (keys = [] -> joinInit df b keys = Ret (inr (errDataFrame "join keys not specified")))
  /\ (keys <> [] -> keyErrors df b keys <> [] ->
      joinInit df b keys
      = Ret (inr (errDataFrame (fmt.Errorf (strings_Join (keyErrors df b keys) newline))))).
Proof.
  unfold joinInit. split.
  - intros ->. reflexivity.
  - intros Hk Herr.
    replace (len keys =? 0) with false
      by (symmetry; apply Z.eqb_neq; unfold len; destruct keys; [congruence|simpl; lia]).
    replace (len (keyErrors df b keys) =? 0) with false; [reflexivity|].
    symmetry. apply Z.eqb_neq. unfold len.
    destruct (keyErrors df b keys); [congruence|simpl; lia].
Qed.

Lemma keyErrors_plain (df b : GotaDataFrame E) (keys : list string) :
  Forall (fun key => hasPercent key = false) keys ->
  Forall (fun msg => hasPercent msg = false) (keyErrors df b keys).
Proof.
  unfold keyErrors. induction 1 as [|key keys Hkey Hkeys IH]; simpl; [constructor|].
  assert (Hq : hasPercent (quoted key) = false) by (apply Quote_plain, Hkey).
  destruct (ColIndex df key <? 0); destruct (ColIndex b key <? 0); simpl;
    repeat (constructor; [rewrite !hasPercent_app, Hq; reflexivity|]); exact IH.
Qed.

(** X14: the four keyed joins check their keys before anything else,
    on any two tables.  Without a key each returns the error "join keys
    not specified".  When some key is not a column name of the left or
    of the right table, none aborts and each returns the same error
    table: its message is what [fmt.Errorf] makes of the messages for
    the missing keys, joined by newlines and taken as the format, so a
    [%] in a key is read as a verb without operand; when no key holds a
    [%], it is the joined messages themselves.  The keys are strings of
    bytes below 128, on which [quoted] is the [%q] of the library. *)
Theorem keyed_joins_reject_missing_keys (df b : GotaDataFrame E) (keys : list string) :
  (keys = [] ->
   let e := Ret (errDataFrame "join keys not specified") in
   InnerJoin fixColnames missingElement df b keys = e
   /\ LeftJoin fixColnames missingElement df b keys = e
   /\ RightJoin fixColnames missingElement df b keys = e
   /\ OuterJoin fixColnames missingElement df b keys = e)
  /\ (keys <> [] -> ~ (spec.hasKeys df keys /\ spec.hasKeys b keys) ->
      Forall (fun key => utf8.isASCII key = true) keys ->
      let msg := fmt.Errorf (strings_Join (keyErrors df b keys) newline) in
      let e := Ret (errDataFrame msg) in
      keyErrors df b keys <> []
      /\ InnerJoin fixColnames missingElement df b keys = e
      /\ LeftJoin fixColnames missingElement df b keys = e
      /\ RightJoin fixColnames missingElement df b keys = e
      /\ OuterJoin fixColnames missingElement df b keys = e
      /\ (Forall (fun key => hasPercent key = false) keys ->
          msg = strings_Join (keyErrors df b keys) newline)).
Proof.
  destruct (joinInit_rejects df b keys) as [Hnil Hmiss]. split.
  - intros Hk. specialize (Hnil Hk).
    unfold InnerJoin, LeftJoin, RightJoin, OuterJoin. rewrite Hnil. repeat split.
  - intros Hk Hnot _.
    assert (Herr : keyErrors df b keys <> []) by (rewrite keyErrors_nil; exact Hnot).
    specialize (Hmiss Hk Herr).
    unfold InnerJoin, LeftJoin, RightJoin, OuterJoin. rewrite Hmiss.
    repeat split; [exact Herr|].
    intros Hplain. apply Errorf_plain, strings_Join_plain; [|reflexivity].
    apply keyErrors_plain, Hplain.
Qed.
End KeyFacts.

Lemma keyed_joins_reject_missing_keys_witness :
  LeftJoin (fun names => names) (mkElementValue 0 true) tableA tableB []
  = Ret (errDataFrame "join keys not specified")
  /\ OuterJoin (fun names => names) (mkElementValue 0 true) tableA tableB ["x"; "id"; "z"]
     = Ret (errDataFrame
              (strings_Join
                 ["can't find key " ++ quoted "x" ++ " on right DataFrame";
                  "can't find key " ++ quoted "z" ++ " on left DataFrame";
                  "can't find key " ++ quoted "z" ++ " on right DataFrame"] newline)).
Proof.
  destruct (keyed_joins_reject_missing_keys (fun names => names) (mkElementValue 0 true)
              tableA tableB []) as [Hnil _].
  destruct (keyed_joins_reject_missing_keys (fun names => names) (mkElementValue 0 true)
              tableA tableB ["x"; "id"; "z"]) as [_ Hmiss].
  split; [apply (Hnil eq_refl)|].
  destruct Hmiss as (_ & _ & _ & _ & Houter & Hplain).
  - discriminate.
  - intros [_ Hb]. apply Forall_cons in Hb as [Hx _].
    destruct Hx as [Hx|[Hx|[]]]; discriminate.
  - repeat constructor.
  - rewrite Houter, Hplain by (repeat constructor). reflexivity.
Defined.

(** A key that holds a verb: the message is not the text that was
    joined. *)
Example keyed_join_key_with_verb :
  InnerJoin (fun names => names) (mkElementValue 0 true) tableA tableB ["a%d"]
  = Ret (errDataFrame
           (strings_Join
              ["can't find key " ++ dquote ++ "a%!d(MISSING)" ++ dquote ++ " on left DataFrame";
               "can't find key " ++ dquote ++ "a%!d(MISSING)" ++ dquote ++ " on right DataFrame"]
              newline)).
Proof. reflexivity. Qed.

(** ** Arrange *)

Lemma rmapM_positions {A} (l pre : list A) :
  rmapM (elem_at (pre ++ l)%list) (seqZ (len pre) (len l)) = Ret l.
Proof.
  revert pre. induction l as [|a l IH]; intros pre; [reflexivity|].
  rewrite seqZ_cons by (unfold len; simpl; lia).
  cbn [rmapM].
  assert (Ha : elem_at (pre ++ a :: l)%list (len pre) = Ret a).
  { apply elem_at_lookup. split; [unfold len; lia|].
    unfold len. rewrite Nat2Z.id, lookup_app_r by lia.
    rewrite Nat.sub_diag. reflexivity. }
  rewrite Ha, bind_Ret.
  specialize (IH (pre ++ [a])%list). rewrite <- app_assoc in IH. simpl in IH.
  replace (Z.succ (len pre)) with (len (pre ++ [a])%list)
    by (unfold len; rewrite length_app; simpl; lia).
  replace (Z.pred (len (a :: l))) with (len l) by (unfold len; simpl; lia).
  rewrite IH. reflexivity.
Qed.

(** Reading a list at a rearrangement of its positions gives a
    rearrangement of the list. *)
Lemma rmapM_elem_at_Permutation {A} (l : list A) (idx : list Z) :
  idx ≡ₚ seqZ 0 (len l) ->
  exists out, rmapM (elem_at l) idx = Ret out /\ out ≡ₚ l.
Proof.
  intros Hp.
  pose proof (rmapM_positions l []) as Hall. simpl in Hall.
  change (len (@nil A)) with 0 in Hall.
  apply rmapM_Forall2 in Hall.
  symmetry in Hp.
  destruct (Permutation_Forall2 Hp Hall) as (out & Hout & Hf).
  exists out. split; [apply rmapM_Forall2; exact Hf|symmetry; exact Hout].
Qed.

Section ArrangeFacts.
Context {T E : Type} `{Element T E}.
Variable df : GotaDataFrame E.
Hypothesis df_wf : spec.wellFormed df.

Lemma Arrange_loop_returns (rorder : list SortOrder) :
  Forall (fun o => In (OrderColname o) (Names df)) rorder ->
  forall origIdx suborder : list Z,
    origIdx ≡ₚ seqZ 0 (nrows df) -> suborder ≡ₚ seqZ 0 (nrows df) ->
    exists idx, Arrange_loop df rorder origIdx suborder = Ret idx
                /\ idx ≡ₚ seqZ 0 (nrows df).
Proof.
  destruct df_wf as (_ & _ & Hu).
  induction rorder as [|o rorder IH]; intros Hkeys origIdx suborder Ho Hs.
  - exists origIdx. split; [reflexivity|exact Ho].
  - apply Forall_cons in Hkeys as [Hkey Hkeys].
    cbn [Arrange_loop].
    destruct (elem_at_in_range (columns df) (ColIndex df (OrderColname o)))
      as (col & Hcol & Hin); [apply ColIndex_range, Hkey|].
    rewrite Hcol, bind_Ret.
    rewrite Forall_forall in Hu. destruct (Hu col Hin) as [Hec Hlc].
    assert (Hn : 0 <= nrows df) by (unfold len in Hlc; lia).
    destruct (Subset_returns col suborder Hec) as (r & Hr & _ & _ & Hlr & _).
    { rewrite Hs. apply Forall_forall. intros i Hi. apply elem_of_seqZ in Hi.
      unfold Len. lia. }
    rewrite Hr, bind_Ret.
    assert (Hlen : forall l : list Z, l ≡ₚ seqZ 0 (nrows df) -> len l = nrows df).
    { intros l Hl. unfold len. rewrite Hl, length_seqZ. lia. }
    pose proof (Order_positions r (OrderReverse o)) as Hp.
    rewrite Hlr, (Hlen suborder Hs) in Hp.
    destruct (rmapM_elem_at_Permutation origIdx (Order r (OrderReverse o)))
      as (newOrigIdx & Hnew & Hpn).
    { rewrite (Hlen origIdx Ho). exact Hp. }
    change (rmapM (fun i => elem_at origIdx i) (Order r (OrderReverse o)) = Ret newOrigIdx)
      in Hnew.
    rewrite Hnew, bind_Ret.
    apply IH; [exact Hkeys| |exact Hp].
    rewrite Hpn. exact Ho.
Qed.

Lemma Arrange_missing_None (order : list SortOrder) :
  Arrange_missing df order = None
  <-> Forall (fun o => In (OrderColname o) (Names df)) order.
Proof.
  induction order as [|o order IH]; simpl.
  - split; [constructor|reflexivity].
  - rewrite Forall_cons, <- IH.
    destruct (findInStringSlice_from_spec (OrderColname o) (Names df) 0 (Z.le_refl 0))
      as [Hnone _].
    simpl in Hnone. unfold ColIndex, findInStringSlice.
    destruct (findInStringSlice_from 0 (OrderColname o) (Names df) =? -1) eqn:Hc.
    + apply Z.eqb_eq in Hc. apply Hnone in Hc. split; [discriminate|tauto].
    + apply Z.eqb_neq in Hc. split; [|tauto]. intros Hm. split; [|exact Hm].
      destruct (in_dec String.string_dec (OrderColname o) (Names df)) as [Hi|Hni];
        [exact Hi|]. apply Hnone in Hni. congruence.
Qed.

Lemma Arrange_missing_Some (order : list SortOrder) (colname : string) :
  Arrange_missing df order = Some colname ->
  In colname (map OrderColname order) /\ ~ In colname (Names df).
Proof.
  induction order as [|o order IH]; simpl; [discriminate|].
  destruct (findInStringSlice_from_spec (OrderColname o) (Names df) 0 (Z.le_refl 0))
    as [Hnone _].
  simpl in Hnone. unfold ColIndex, findInStringSlice.
  destruct (findInStringSlice_from 0 (OrderColname o) (Names df) =? -1) eqn:Hc.
  - apply Z.eqb_eq in Hc. apply Hnone in Hc. intros [= <-]. split; [left; reflexivity|exact Hc].
  - intros Hm. destruct (IH Hm) as [Hi Hn]. split; [right; exact Hi|exact Hn].
Qed.

(** X16: [Arrange] on a well-formed table.  With at least one sort key
    and every key a column name, the row positions it computes are a
    rearrangement of all row positions, and the result is the table's
    [Subset] at these positions: a well-formed table with the same
    number of rows and columns and the same names.  Without a key the
    result is the error "rename: no arguments"; with a key that is no
    column name it is an error that names such a key. *)
Theorem Arrange_rearranges_rows (order : list SortOrder) :
  (order <> [] ->
   Forall (fun o => In (OrderColname o) (Names df)) order ->
   exists idx r,
     Arrange_index df order = Ret idx
     /\ idx ≡ₚ seqZ 0 (nrows df)
     /\ Arrange df order = Ret r
     /\ spec.wellFormed r
     /\ nrows r = nrows df /\ ncols r = ncols df /\ Names r = Names df
     /\ Forall2 (fun c c' => Subset c (IdxInts idx) = Ret c') (columns df) (columns r))
  /\ Arrange df [] = Ret (errDataFrame "rename: no arguments")
  /\ (order <> [] ->
      ~ Forall (fun o => In (OrderColname o) (Names df)) order ->
      exists colname,
        Arrange df order = Ret (errDataFrame ("colname " ++ colname ++ " doesn't exist"))
        /\ In colname (map OrderColname order) /\ ~ In colname (Names df)).
Proof.
  pose proof df_wf as (He & Hnc & Hu).
  assert (Hlen : forall o : list SortOrder, o <> [] -> (len o =? 0) = false).
  { intros [|o os] Ho; [congruence|]. apply Z.eqb_neq. unfold len. simpl. lia. }
  split; [|split].
  - intros Hne Hkeys.
    assert (Hcols : columns df <> []).
    { destruct order as [|o os]; [congruence|].
      apply Forall_cons in Hkeys as [Hk _]. unfold Names in Hk.
      intros Hnil. rewrite Hnil in Hk. destruct Hk. }
    destruct (Arrange_loop_returns (rev order)) with
      (origIdx := seqZ 0 (nrows df)) (suborder := seqZ 0 (nrows df))
      as (idx & Hidx & Hp); [|reflexivity|reflexivity|].
    { apply Forall_rev. exact Hkeys. }
    change (Arrange_index df order = Ret idx) in Hidx.
    assert (Hn : 0 <= nrows df).
    { destruct (columns df) as [|c cs]; [congruence|].
      apply Forall_cons in Hu as [[_ Hl] _]. unfold len in Hl. lia. }
    destruct (Subset_df_returns df idx df_wf Hcols) as (r & Hr & Hrest).
    { rewrite Hp. apply Forall_forall. intros i Hi. apply elem_of_seqZ in Hi. lia. }
    exists idx, r. split; [exact Hidx|]. split; [exact Hp|].
    destruct Hrest as (Hw & Hnr & Hncr & Hnames & Hf).
    split.
    { unfold Arrange. rewrite He, (Hlen order Hne).
      rewrite (proj2 (Arrange_missing_None order) Hkeys).
      rewrite Hidx, bind_Ret. exact Hr. }
    split; [exact Hw|]. split.
    { rewrite Hnr. unfold len. rewrite Hp, length_seqZ. lia. }
    auto.
  - unfold Arrange. rewrite He. reflexivity.
  - intros Hne Hbad. unfold Arrange. rewrite He, (Hlen order Hne).
    destruct (Arrange_missing df order) as [colname|] eqn:Hm.
    + exists colname. split; [reflexivity|]. apply Arrange_missing_Some, Hm.
    + apply Arrange_missing_None in Hm. contradiction.
Qed.
End ArrangeFacts.

Lemma Arrange_rearranges_rows_witness :
  exists r,
    Arrange tableA [RevSort "x"; Sort "id"] = Ret r
    /\ nrows r = nrows tableA /\ Names r = Names tableA.
Proof.
  destruct (Arrange_rearranges_rows tableA) with (order := [RevSort "x"; Sort "id"])
    as [Hok _].
  - repeat split. repeat constructor.
  - destruct Hok as (idx & r & _ & _ & Hr & _ & Hn & _ & Hnames & _).
    + discriminate.
    + repeat constructor; simpl; tauto.
    + exists r. auto.
Defined.

(** ** Select and Drop *)

Section SelectFacts.
Context {T E : Type} `{Element T E}.
Variable fixColnames : list string -> list string.
Variable elemBool : E -> bool + error.
Variable colType : GotaSeries E -> Type_.
Variable elemInt : E -> Z + error.
Variable elemString : E -> string.

Lemma buildFrame_uniform (n : Z) (cols : list (GotaSeries E)) :
  uniform n cols -> cols <> [] ->
  buildFrame fixColnames cols
  = mkGotaDataFrame (setNames cols (fixColnames (map Name cols))) (len cols) n None.
Proof.
  intros Hu Hne. unfold buildFrame, checkColumnsDimensions.
  assert (Hlen : (len cols =? 0) = false).
  { apply Z.eqb_neq. unfold len. destruct cols; [congruence|simpl; lia]. }
  rewrite Hlen. destruct cols as [|c cs]; [congruence|].
  pose proof Hu as Hu'. apply Forall_cons in Hu' as [[He Hl] Hcs].
  cbn [checkColumnsDimensions_loop]. rewrite He. simpl.
  unfold Len. rewrite Hl, Z.eqb_refl. simpl.
  rewrite (checkColumnsDimensions_loop_uniform n cs Hcs). reflexivity.
Qed.

Lemma buildFrame_nil : buildFrame fixColnames (@nil (GotaSeries E)) = errDataFrame "no Series given".
Proof. reflexivity. Qed.

Lemma Select_columns_in_range (df : GotaDataFrame E) (idx : list Z) :
  ncols df = len (columns df) ->
  Forall (fun i => 0 <= i < ncols df) idx ->
  exists sel,
    Forall2 (fun i c => columns df !! Z.to_nat i = Some c) idx sel
    /\ Select_columns df idx = Ret (inl (map Copy_series sel)).
Proof.
  intros Hnc. induction 1 as [|i idx Hi Hidx (sel & Hsel & IH)]; simpl.
  - exists []. split; [constructor|reflexivity].
  - replace (i <? 0) with false by (symmetry; apply Z.ltb_ge; lia).
    replace (i >=? ncols df) with false by (symmetry; rewrite Z.geb_leb; apply Z.leb_gt; lia).
    simpl.
    destruct (elem_at_in_range (columns df) i) as (c & Hc & _); [lia|].
    rewrite Hc, bind_Ret, IH, bind_Ret.
    exists (c :: sel). split; [|reflexivity].
    constructor; [apply elem_at_lookup in Hc; tauto|exact Hsel].
Qed.

Lemma Select_columns_out_of_range (df : GotaDataFrame E) (idx : list Z) :
  ncols df = len (columns df) ->
  Exists (fun i => i < 0 \/ ncols df <= i) idx ->
  Select_columns df idx
  = Ret (inr (errDataFrame "can't select columns: index out of range")).
Proof.
  intros Hnc. induction 1 as [i idx Hi | i idx Hex IH]; simpl.
  - replace ((i <? 0) || (i >=? ncols df)) with true; [reflexivity|].
    symmetry. apply orb_true_iff. rewrite Z.ltb_lt, Z.geb_leb, Z.leb_le. lia.
  - destruct ((i <? 0) || (i >=? ncols df)) eqn:Hb; [reflexivity|].
    apply orb_false_iff in Hb as [H1 H2].
    apply Z.ltb_ge in H1. rewrite Z.geb_leb in H2. apply Z.leb_gt in H2.
    destruct (elem_at_in_range (columns df) i) as (c & Hc & _); [lia|].
    rewrite Hc, bind_Ret, IH. reflexivity.
Qed.

Lemma setNames_copies (cols : list (GotaSeries E)) (idx : list Z) (sel : list (GotaSeries E)) :
  Forall2 (fun i c => cols !! Z.to_nat i = Some c) idx sel ->
  forall names,
    Forall2 (fun i c' => exists c, cols !! Z.to_nat i = Some c
                                   /\ elements c' = map Copy (elements c)
                                   /\ Err c' = Err c)
            idx (setNames (map Copy_series sel) names).
Proof.
  induction 1 as [|i c idx sel Hc Hrest IH]; intros names; simpl; constructor.
  - exists c. auto.
  - apply IH.
Qed.

(** X17: [Select] by positions on a well-formed table.  With at least
    one position and all of them in range the result is a well-formed
    table with as many rows, one column per position (a position may be
    repeated), each holding copies of the elements of the column at that
    position.  A position out of range gives the error "can't select
    columns: index out of range", never an index panic; no position at
    all gives the error "no Series given". *)
Theorem Select_by_position (df : GotaDataFrame E) (idx : list Z) :
  spec.wellFormed df ->
  (idx <> [] -> Forall (fun i => 0 <= i < ncols df) idx ->
   exists r,
     Select fixColnames elemBool colType elemInt elemString df (SelInts idx) = Ret r
     /\ spec.wellFormed r
     /\ nrows r = nrows df /\ ncols r = len idx
     /\ Forall2 (fun i c' => exists c, columns df !! Z.to_nat i = Some c
                                       /\ elements c' = map Copy (elements c)
                                       /\ Err c' = Err c)
                 idx (columns r))
  /\ (Exists (fun i => i < 0 \/ ncols df <= i) idx ->
      Select fixColnames elemBool colType elemInt elemString df (SelInts idx)
      = Ret (errDataFrame "can't select columns: index out of range"))
  /\ Select fixColnames elemBool colType elemInt elemString df (SelInts [])
     = Ret (errDataFrame "no Series given").
Proof.
  intros (He & Hnc & Hu). unfold Select. rewrite He. cbn [parseSelectIndexes].
  split; [|split].
  - intros Hne Hidx.
    destruct (Select_columns_in_range df idx Hnc Hidx) as (sel & Hsel & Hr).
    rewrite Hr, bind_Ret.
    assert (Hlen : length sel = length idx) by (symmetry; eapply Forall2_length, Hsel).
    assert (Hus : uniform (nrows df) sel).
    { unfold uniform. apply Forall_forall. intros c Hc.
      apply list_elem_of_lookup_1 in Hc as [k Hk].
      destruct (Forall2_lookup_r _ _ _ _ _ Hsel Hk) as (i & _ & Hi).
      rewrite Forall_forall in Hu. apply Hu. eapply list_elem_of_lookup_2, Hi. }
    rewrite (buildFrame_uniform (nrows df)).
    + eexists. split; [reflexivity|]. simpl. split; [|split; [reflexivity|split]].
      * split; [reflexivity|]. split.
        -- simpl. unfold len. destruct (setNames_elements (map Copy_series sel)
                    (fixColnames (map Name (map Copy_series sel)))) as (_ & _ & Hl).
           rewrite Hl. reflexivity.
        -- apply uniform_setNames, Copy_series_uniform, Hus.
      * unfold len. rewrite length_map, Hlen. reflexivity.
      * apply setNames_copies, Hsel.
    + apply Copy_series_uniform, Hus.
    + destruct sel; [destruct idx; [congruence|discriminate]|discriminate].
  - intros Hex. rewrite (Select_columns_out_of_range df idx Hnc Hex). reflexivity.
  - reflexivity.
Qed.

Lemma Drop_columns_rest (df : GotaDataFrame E) (idx : list Z) :
  ncols df = len (columns df) ->
  forall pre cols : list (GotaSeries E),
    columns df = (pre ++ cols)%list ->
    Select_columns df
      (filter (fun i => negb (inIntSlice i idx) = true) (seqZ (len pre) (len cols)))
    = Ret (inl (Drop_columns (len pre) cols idx)).
Proof.
  intros Hnc pre cols. revert pre.
  induction cols as [|col cols IH]; intros pre Hdf; [reflexivity|].
  rewrite seqZ_cons by (unfold len; simpl; lia).
  replace (Z.succ (len pre)) with (len (pre ++ [col])%list)
    by (unfold len; rewrite length_app; simpl; lia).
  replace (Z.pred (len (col :: cols))) with (len cols) by (unfold len; simpl; lia).
  specialize (IH (pre ++ [col])%list). rewrite <- app_assoc in IH. specialize (IH Hdf).
  rewrite filter_cons. cbn [Drop_columns].
  replace (len pre + 1) with (len (pre ++ [col])%list)
    by (unfold len; rewrite length_app; simpl; lia).
  destruct (decide (negb (inIntSlice (len pre) idx) = true)) as [Hk|Hk].
  - rewrite Hk. cbn [Select_columns].
    assert (Hlt : len pre < ncols df).
    { rewrite Hnc, Hdf. unfold len. rewrite length_app. simpl. lia. }
    replace (len pre <? 0) with false by (symmetry; apply Z.ltb_ge; unfold len; lia).
    replace (len pre >=? ncols df) with false
      by (symmetry; rewrite Z.geb_leb; apply Z.leb_gt; lia).
    simpl.
    assert (Hc : elem_at (columns df) (len pre) = Ret col).
    { apply elem_at_lookup. split; [unfold len; lia|].
      rewrite Hdf. unfold len. rewrite Nat2Z.id, lookup_app_r by lia.
      rewrite Nat.sub_diag. reflexivity. }
    rewrite Hc, bind_Ret, IH. reflexivity.
  - apply not_true_is_false in Hk. rewrite Hk. exact IH.
Qed.

(** X18: [Drop] returns what [Select] returns for the positions that
    are not listed, in ascending order.  Listed positions that are out of
    range are therefore ignored by [Drop], where [Select] reports them;
    listing every column gives the error "no Series given". *)
Theorem Drop_is_Select_of_rest (df : GotaDataFrame E) (idx : list Z) :
  ncols df = len (columns df) ->
  Select fixColnames elemBool colType elemInt elemString df
    (SelInts (notKeys (ncols df) idx))
  = Ret (Drop fixColnames elemBool colType elemInt elemString df (SelInts idx)).
Proof.
  intros Hnc. unfold Select, Drop. destruct (DfErr df); [reflexivity|].
  cbn [parseSelectIndexes]. unfold notKeys.
  pose proof (Drop_columns_rest df idx Hnc [] (columns df) eq_refl) as Hd.
  change (len (@nil (GotaSeries E))) with 0 in Hd.
  rewrite Hnc, Hd. reflexivity.
Qed.
Lemma parseSelectNames_found (names colnames : list string) :
  Forall (fun name => In name colnames) names ->
  parseSelectNames names colnames
  = inl (map (fun name => findInStringSlice name colnames) names).
Proof.
  induction 1 as [|name names Hin Hrest IH]; simpl; [reflexivity|].
  destruct (findInStringSlice_from_spec name colnames 0 (Z.le_refl 0)) as [Hnone Hsome].
  simpl in Hnone, Hsome. unfold findInStringSlice at 1.
  destruct (findInStringSlice_from 0 name colnames <? 0) eqn:Hlt.
  - apply Z.ltb_lt in Hlt.
    destruct (Z.eq_dec (findInStringSlice_from 0 name colnames) (-1)) as [Heq|Hne].
    + apply Hnone in Heq. contradiction.
    + specialize (Hsome Hne). lia.
  - rewrite IH. reflexivity.
Qed.

Lemma parseSelectNames_not_found (names colnames : list string) :
  ~ Forall (fun name => In name colnames) names ->
  exists name,
    parseSelectNames names colnames
    = inr ("can't select columns: column name " ++ quoted name ++ " not found")%string
    /\ In name names /\ ~ In name colnames.
Proof.
  induction names as [|name names IH]; intros Hbad; [destruct Hbad; constructor|].
  simpl.
  destruct (findInStringSlice_from_spec name colnames 0 (Z.le_refl 0)) as [Hnone Hsome].
  simpl in Hnone, Hsome. unfold findInStringSlice.
  destruct (findInStringSlice_from 0 name colnames <? 0) eqn:Hlt.
  - exists name. split; [reflexivity|]. split; [left; reflexivity|].
    apply Hnone. apply Z.ltb_lt in Hlt.
    destruct (Z.eq_dec (findInStringSlice_from 0 name colnames) (-1)) as [Heq|Hne];
      [exact Heq|]. specialize (Hsome Hne). lia.
  - assert (Hin : In name colnames).
    { destruct (in_dec String.string_dec name colnames) as [Hi|Hni]; [exact Hi|].
      apply Hnone in Hni. apply Z.ltb_ge in Hlt. lia. }
    destruct IH as (bad & Hp & Hb & Hnb).
    { intros Hall. apply Hbad. constructor; assumption. }
    fold (findInStringSlice_from 0) in Hp. unfold findInStringSlice in Hp.
    rewrite Hp. exists bad. split; [reflexivity|]. split; [right; exact Hb|exact Hnb].
Qed.

(** X19: [Select] by column names.  When every name is a column name,
    it is [Select] at the positions [ColIndex] gives for the names, in
    the order of the names.  Otherwise the result is an error that
    names, in the form the verb [%q] gives it, a name that is no column
    name; its text carries the prefix "can't select columns: " twice,
    once from [parseSelectIndexes] and once from [Select].  The text is
    stated for names of bytes below 128, on which [quoted] is the [%q]
    of the library.  A single name behaves like the list holding it. *)
Theorem Select_by_name (df : GotaDataFrame E) (names : list string) (name : string) :
  (Forall (fun name => In name (Names df)) names ->
   Select fixColnames elemBool colType elemInt elemString df (SelStrings names)
   = Select fixColnames elemBool colType elemInt elemString df
       (SelInts (map (ColIndex df) names)))
  /\ (DfErr df = None -> ~ Forall (fun name => In name (Names df)) names ->
      Forall (fun name => utf8.isASCII name = true) names ->
      exists bad,
        Select fixColnames elemBool colType elemInt elemString df (SelStrings names)
        = Ret (errDataFrame
                 ("can't select columns: can't select columns: column name "
                  ++ quoted bad ++ " not found"))
        /\ In bad names /\ ~ In bad (Names df))
  /\ Select fixColnames elemBool colType elemInt elemString df (SelString name)
     = Select fixColnames elemBool colType elemInt elemString df (SelStrings [name]).
Proof.
  split; [|split].
  - intros Hall. unfold Select. destruct (DfErr df); [reflexivity|].
    cbn [parseSelectIndexes]. rewrite (parseSelectNames_found names (Names df) Hall).
    reflexivity.
  - intros He Hbad _. unfold Select. rewrite He. cbn [parseSelectIndexes].
    destruct (parseSelectNames_not_found names (Names df) Hbad) as (bad & Hp & Hin & Hnot).
    rewrite Hp. exists bad. split; [reflexivity|]. split; assumption.
  - unfold Select. destruct (DfErr df); [reflexivity|].
    cbn [parseSelectIndexes parseSelectNames].
    destruct (findInStringSlice name (Names df) <? 0); reflexivity.
Qed.
End SelectFacts.

Definition noBool {T} (_ : ElementValue T) : bool + error := inr "not a boolean".
Definition intVal (e : ElementValue Z) : Z + error := inl (value e).
Definition noString {T} (_ : ElementValue T) : string := "".

Lemma Select_by_position_witness :
  exists r,
    Select (fun names => names) noBool (fun _ => Int) intVal noString tableA (SelInts [1; 1; 0])
    = Ret r
    /\ nrows r = 3 /\ ncols r = 3.
Proof.
  destruct (Select_by_position (fun names => names) noBool (fun _ => Int) intVal noString
              tableA [1; 1; 0]) as [Hok _].
  - repeat split. repeat constructor.
  - destruct Hok as (r & Hr & _ & Hn & Hc & _).
    + discriminate.
    + repeat constructor; simpl; lia.
    + exists r. auto.
Defined.

Lemma Drop_is_Select_of_rest_witness :
  Select (fun names => names) noBool (fun _ => Int) intVal noString tableA
    (SelInts (notKeys (ncols tableA) [0; 7]))
  = Ret (Drop (fun names => names) noBool (fun _ => Int) intVal noString tableA (SelInts [0; 7])).
Proof.
  apply Drop_is_Select_of_rest. reflexivity.
Defined.

Lemma Select_by_name_witness :
  Select (fun names => names) noBool (fun _ => Int) intVal noString tableA
    (SelStrings ["x"; "id"])
  = Select (fun names => names) noBool (fun _ => Int) intVal noString tableA
      (SelInts [1; 0])
  /\ exists bad,
       Select (fun names => names) noBool (fun _ => Int) intVal noString tableA
         (SelStrings ["x"; "z"])
       = Ret (errDataFrame
                ("can't select columns: can't select columns: column name "
                 ++ quoted bad ++ " not found")).
Proof.
  destruct (Select_by_name (fun names => names) noBool (fun _ => Int) intVal noString
              tableA ["x"; "id"] "x") as (Hok & _ & _).
  destruct (Select_by_name (fun names => names) noBool (fun _ => Int) intVal noString
              tableA ["x"; "z"] "x") as (_ & Hbad & _).
  split.
  - apply Hok. repeat constructor; simpl; tauto.
  - destruct Hbad as (bad & Hr & _).
    + reflexivity.
    + intros Hall. apply Forall_cons in Hall as [_ Hall].
      apply Forall_cons in Hall as [Hz _]. simpl in Hz.
      destruct Hz as [Hz|[Hz|[]]]; discriminate.
    + repeat constructor.
    + exists bad. exact Hr.
Defined.

(** A name that holds a double quote and a backslash is escaped in
    the message. *)
Example Select_by_name_escapes :
  Select (fun names => names) noBool (fun _ => Int) intVal noString tableA
    (SelString ("a" ++ dquote ++ "b" ++ strconv.backslash))
  = Ret (errDataFrame
           ("can't select columns: can't select columns: column name "
            ++ dquote ++ "a" ++ strconv.backslash ++ dquote ++ "b"
            ++ strconv.backslash ++ strconv.backslash ++ dquote ++ " not found")).
Proof. reflexivity. Qed.

(** ** RBind and CBind *)

Section BindFacts.
Context {T E : Type} `{Element T E}.
Variable fixColnames : list string -> list string.

Lemma Concat_no_errors (c cb : GotaSeries E) :
  Err c = None -> Err cb = None ->
  Concat c cb = mkGotaSeries (Name c) (map Copy (elements c) ++ elements cb) None.
Proof.
  intros Hc Hcb. unfold Concat, series.Error, Copy_series. rewrite Hc, Hcb. reflexivity.
Qed.

Lemma New_uniform_frame (n : Z) (cols : list (GotaSeries E)) :
  uniform n cols -> cols <> [] ->
  New fixColnames cols
  = mkGotaDataFrame
      (setNames (map Copy_series cols) (fixColnames (map Name (map Copy_series cols))))
      (len cols) n None.
Proof.
  intros Hu Hne. unfold New.
  replace (len cols =? 0) with false
    by (symmetry; apply Z.eqb_neq; unfold len; destruct cols; [congruence|simpl; lia]).
  rewrite (buildFrame_uniform fixColnames n).
  - unfold len. rewrite length_map. reflexivity.
  - apply Copy_series_uniform, Hu.
  - destruct cols; [congruence|discriminate].
Qed.

Lemma New_uniform_wellFormed (n : Z) (cols : list (GotaSeries E)) :
  uniform n cols -> cols <> [] ->
  spec.wellFormed (New fixColnames cols)
  /\ nrows (New fixColnames cols) = n
  /\ ncols (New fixColnames cols) = len cols
  /\ map elements (columns (New fixColnames cols))
     = map (fun c => map Copy (elements c)) cols.
Proof.
  intros Hu Hne. rewrite (New_uniform_frame n cols Hu Hne). simpl.
  destruct (setNames_elements (map Copy_series cols)
              (fixColnames (map Name (map Copy_series cols)))) as (Hel & _ & Hl).
  split; [|split; [reflexivity|split; [reflexivity|]]].
  - split; [reflexivity|]. split.
    + simpl. unfold len. rewrite Hl, length_map. reflexivity.
    + apply uniform_setNames, Copy_series_uniform, Hu.
  - rewrite Hel, map_map. reflexivity.
Qed.

Variables df dfb : GotaDataFrame E.
Hypothesis df_wf : spec.wellFormed df.
Hypothesis dfb_wf : spec.wellFormed dfb.

Lemma RBind_columns_returns (n : Z) (cols : list (GotaSeries E)) :
  uniform n cols ->
  Forall (fun c => In (Name c) (Names dfb)) cols ->
  exists out,
    RBind_columns cols dfb = Ret (inl out)
    /\ uniform (n + nrows dfb) out
    /\ Forall2 (fun c c' =>
                   exists cb, columns dfb !! Z.to_nat (ColIndex dfb (Name c)) = Some cb
                              /\ elements c' = (map Copy (elements c) ++ elements cb)%list)
                cols out.
Proof.
  destruct dfb_wf as (_ & _ & Hub).
  induction 1 as [|c cols [Hec Hlc] Hu IH]; intros Hnames.
  - exists []. split; [reflexivity|]. split; constructor.
  - apply Forall_cons in Hnames as [Hname Hnames].
    destruct (IH Hnames) as (out & Hout & Huo & Hf).
    pose proof (ColIndex_range dfb (Name c) Hname) as Hr.
    destruct (elem_at_in_range (columns dfb) (ColIndex dfb (Name c)) Hr) as (cb & Hcb & Hin).
    rewrite Forall_forall in Hub. destruct (Hub cb Hin) as [Hecb Hlcb].
    cbn [RBind_columns]. fold (ColIndex dfb (Name c)).
    replace (ColIndex dfb (Name c) =? -1) with false by (symmetry; apply Z.eqb_neq; lia).
    unfold Columns. rewrite Hcb, bind_Ret, (Concat_no_errors c cb Hec Hecb).
    cbn [Err]. rewrite Hout, bind_Ret.
    eexists. split; [reflexivity|]. split.
    + constructor; [|exact Huo]. split; [reflexivity|]. simpl.
      unfold len in *. rewrite length_app, length_map. lia.
    + constructor; [|exact Hf]. exists cb. split; [|reflexivity].
      apply elem_at_lookup in Hcb. tauto.
Qed.

Lemma RBind_columns_incompatible (n : Z) (cols : list (GotaSeries E)) :
  uniform n cols ->
  ~ Forall (fun c => In (Name c) (Names dfb)) cols ->
  RBind_columns cols dfb
  = Ret (inr (errDataFrame "rbind: column names are not compatible")).
Proof.
  destruct dfb_wf as (_ & _ & Hub).
  induction 1 as [|c cols [Hec Hlc] Hu IH]; intros Hbad; [destruct Hbad; constructor|].
  cbn [RBind_columns]. fold (ColIndex dfb (Name c)).
  destruct (ColIndex dfb (Name c) =? -1) eqn:Hidx; [reflexivity|].
  apply Z.eqb_neq in Hidx.
  assert (Hname : In (Name c) (Names dfb)).
  { destruct (in_dec String.string_dec (Name c) (Names dfb)) as [Hi|Hni]; [exact Hi|].
    apply ColIndex_negative in Hni. apply Z.ltb_lt in Hni.
    destruct (findInStringSlice_from_range (Name c) (Names dfb) 0) as [Hm|Hm];
      unfold ColIndex, findInStringSlice in *; lia. }
  pose proof (ColIndex_range dfb (Name c) Hname) as Hr.
  destruct (elem_at_in_range (columns dfb) (ColIndex dfb (Name c)) Hr) as (cb & Hcb & Hin).
  rewrite Forall_forall in Hub. destruct (Hub cb Hin) as [Hecb Hlcb].
  unfold Columns. rewrite Hcb, bind_Ret, (Concat_no_errors c cb Hec Hecb).
  cbn [Err]. rewrite IH; [reflexivity|].
  intros Hall. apply Hbad. constructor; assumption.
Qed.

(** X20: [RBind] of two well-formed tables, the first with at least
    one column.  When every column name of the first is a column name
    of the second, the result is a well-formed table with the columns of
    the first, each followed by the elements of the first column of that
    name in the second (as copies); the rows add up, and columns that
    only the second table has are left out.  When a column name of the
    first is missing in the second, the result is the error "rbind:
    column names are not compatible". *)
Theorem RBind_appends_rows :
  columns df <> [] ->
  (Forall (fun c => In (Name c) (Names dfb)) (columns df) ->
   exists r,
     RBind fixColnames df dfb = Ret r
     /\ spec.wellFormed r
     /\ nrows r = nrows df + nrows dfb
     /\ ncols r = ncols df
     /\ Forall2 (fun c c' =>
                    exists cb, columns dfb !! Z.to_nat (ColIndex dfb (Name c)) = Some cb
                               /\ elements c'
                                  = map Copy (map Copy (elements c) ++ elements cb)%list)
                 (columns df) (columns r))
  /\ (~ Forall (fun c => In (Name c) (Names dfb)) (columns df) ->
      RBind fixColnames df dfb
      = Ret (errDataFrame "rbind: column names are not compatible")).
Proof.
  intros Hne. pose proof df_wf as (He & Hnc & Hu). pose proof dfb_wf as (Heb & _ & _).
  unfold RBind, Error. rewrite He, Heb. split.
  - intros Hnames.
    destruct (RBind_columns_returns (nrows df) (columns df) Hu Hnames)
      as (out & Hout & Huo & Hf).
    rewrite Hout, bind_Ret.
    assert (Hlen : length out = length (columns df))
      by (symmetry; eapply Forall2_length, Hf).
    assert (Hone : out <> []) by (destruct out, (columns df); simpl in *; congruence).
    destruct (New_uniform_wellFormed _ out Huo Hone) as (Hw & Hn & Hc & Hel).
    eexists. split; [reflexivity|]. split; [exact Hw|]. split; [exact Hn|]. split.
    + rewrite Hc, Hnc. unfold len. rewrite Hlen. reflexivity.
    + clear - Hf Hel. revert Hel. generalize (columns (New fixColnames out)).
      induction Hf as [|c c' cols out (cb & Hcb & Hc') Hrest IH]; intros l Hel.
      * destruct l; [constructor|discriminate].
      * destruct l as [|x l]; [discriminate|]. simpl in Hel. injection Hel as Hx Hl.
        constructor; [|apply IH, Hl]. exists cb. split; [exact Hcb|].
        rewrite Hx, Hc'. reflexivity.
  - intros Hbad.
    rewrite (RBind_columns_incompatible (nrows df) (columns df) Hu Hbad). reflexivity.
Qed.

Lemma checkColumnsDimensions_loop_mixed (cols : list (GotaSeries E)) :
  Forall (fun c => Err c = None) cols ->
  forall i nr n e,
    checkColumnsDimensions_loop i nr cols = (n, Some e) ->
    e = "arguments have different dimensions".
Proof.
  induction 1 as [|c cols Hc Hrest IH]; intros i nr n e Hr; simpl in Hr; [discriminate|].
  rewrite Hc in Hr.
  destruct (negb ((if nr =? -1 then Len c else nr) =? Len c)).
  - injection Hr as _ <-. reflexivity.
  - eapply IH, Hr.
Qed.

(** X21: [CBind] of two well-formed tables that both have columns.
    With equal row counts the result is a well-formed table of as many
    rows with the columns of the first followed by those of the second,
    all copied.  With different row counts it is the error "arguments
    have different dimensions". *)
Theorem CBind_appends_columns :
  columns df <> [] -> columns dfb <> [] ->
  (nrows df = nrows dfb ->
   spec.wellFormed (CBind fixColnames df dfb)
   /\ nrows (CBind fixColnames df dfb) = nrows df
   /\ ncols (CBind fixColnames df dfb) = ncols df + ncols dfb
   /\ map elements (columns (CBind fixColnames df dfb))
      = map (fun c => map Copy (elements c)) (columns df ++ columns dfb)%list)
  /\ (nrows df <> nrows dfb ->
      CBind fixColnames df dfb = errDataFrame "arguments have different dimensions").
Proof.
  intros Hne Hneb.
  pose proof df_wf as (He & Hnc & Hu). pose proof dfb_wf as (Heb & Hncb & Hub).
  unfold CBind, Error, Columns. rewrite He, Heb. split.
  - intros Heq.
    assert (Hall : uniform (nrows df) (columns df ++ columns dfb)%list).
    { unfold uniform. apply Forall_app. split; [exact Hu|]. rewrite Heq. exact Hub. }
    destruct (New_uniform_wellFormed _ _ Hall) as (Hw & Hn & Hc & Hel).
    { destruct (columns df); [congruence|discriminate]. }
    split; [exact Hw|]. split; [exact Hn|]. split; [|exact Hel].
    rewrite Hc, Hnc, Hncb. unfold len. rewrite length_app. lia.
  - intros Hdiff. unfold New.
    replace (len (columns df ++ columns dfb)%list =? 0) with false
      by (symmetry; apply Z.eqb_neq; unfold len; rewrite length_app;
          destruct (columns df); [congruence|simpl; lia]).
    unfold buildFrame, checkColumnsDimensions.
    replace (len (map Copy_series (columns df ++ columns dfb)%list) =? 0) with false
      by (symmetry; apply Z.eqb_neq; unfold len; rewrite length_map, length_app;
          destruct (columns df); [congruence|simpl; lia]).
    destruct (checkColumnsDimensions_loop 0 (-1)
                (map Copy_series (columns df ++ columns dfb)%list)) as [n [e|]] eqn:Hl.
    + apply checkColumnsDimensions_loop_mixed in Hl; [rewrite Hl; reflexivity|].
      apply Forall_map. simpl. apply Forall_app. split.
      * eapply Forall_impl; [exact Hu|]. simpl. tauto.
      * eapply Forall_impl; [exact Hub|]. simpl. tauto.
    + exfalso. apply checkColumnsDimensions_loop_ok in Hl as [_ Hun].
      specialize (Hun ltac:(destruct (columns df); [congruence|discriminate])).
      unfold uniform in Hun. rewrite map_app, Forall_app in Hun.
      destruct Hun as [Hua Hub'].
      destruct (columns df) as [|a ca]; [congruence|].
      destruct (columns dfb) as [|b cb]; [congruence|].
      apply Forall_cons in Hu as [[_ Ha] _]. apply Forall_cons in Hub as [[_ Hb] _].
      simpl in Hua, Hub'.
      apply Forall_cons in Hua as [[_ Ha'] _]. apply Forall_cons in Hub' as [[_ Hb'] _].
      simpl in Ha', Hb'. unfold len in *. rewrite length_map in Ha', Hb'. lia.
Qed.
End BindFacts.

Lemma RBind_appends_rows_witness :
  exists r,
    RBind (fun names => names) tableA tableA = Ret r
    /\ nrows r = 6 /\ ncols r = 2.
Proof.
  destruct (RBind_appends_rows (fun names => names) tableA tableA) as [Hok _].
  - repeat split. repeat constructor.
  - repeat split. repeat constructor.
  - discriminate.
  - destruct Hok as (r & Hr & _ & Hn & Hc & _).
    + repeat constructor; simpl; tauto.
    + exists r. auto.
Defined.

Lemma CBind_appends_columns_witness :
  nrows (CBind (fun names => names) tableA tableB) = 3
  /\ ncols (CBind (fun names => names) tableA tableB) = 4.
Proof.
  destruct (CBind_appends_columns (fun names => names) tableA tableB) as [Hok _].
  - repeat split. repeat constructor.
  - repeat split. repeat constructor.
  - discriminate.
  - discriminate.
  - destruct Hok as (_ & Hn & Hc & _); [reflexivity|]. split; assumption.
Defined.

(** ** transposeRecords *)

Lemma rmapM_panics {A B} (f : A -> result B) (msg : string) (l : list A) :
  Forall (fun a => returns (f a) \/ f a = Panic msg) l ->
  Exists (fun a => f a = Panic msg) l ->
  rmapM f l = Panic msg.
Proof.
  induction 1 as [|a l Ha Hl IH]; intros Hex; [inversion Hex|].
  simpl. destruct Ha as [[b Hb]|Ha]; [|rewrite Ha; reflexivity].
  rewrite Hb, bind_Ret. inversion Hex as [? ? Hp|? ? Hrest]; subst; [congruence|].
  rewrite (IH Hrest). reflexivity.
Qed.

Section TransposeFacts.
Context {A : Type}.
Variable x0 : list A.
Variable rest : list (list A).

Let x := x0 :: rest.

(** [z[j] = x[j][i]] of the inner loop. *)
Let cell (i j : Z) : result A := row ← elem_at x j; elem_at row i.

Lemma transposeRecords_unfold :
  transposeRecords x = rmapM (fun i => rmapM (cell i) (seqZ 0 (len x))) (seqZ 0 (len x0)).
Proof. reflexivity. Qed.

Lemma transposeRecords_entries :
  Forall (fun row => (length x0 <= length row)%nat) x ->
  exists y,
    transposeRecords x = Ret y
    /\ length y = length x0
    /\ Forall (fun r => length r = length x) y
    /\ forall (i j : nat) (r row : list A),
         y !! i = Some r -> x !! j = Some row -> r !! j = row !! i /\ is_Some (r !! j).
Proof.
  intros Hlong. rewrite transposeRecords_unfold.
  destruct (rmapM_returns (fun i => rmapM (cell i) (seqZ 0 (len x)))
              (fun r => length r = length x) (seqZ 0 (len x0))) as (y & Hy & Hly & Hrows).
  { intros i Hi. apply elem_of_seqZ in Hi.
    destruct (rmapM_returns (cell i) (fun _ => True) (seqZ 0 (len x))) as (r & Hr & Hlr & _).
    - intros j Hj. apply elem_of_seqZ in Hj.
      destruct (elem_at_in_range x j) as (row & Hrow & Hin); [lia|].
      rewrite Forall_forall in Hlong. specialize (Hlong row Hin).
      destruct (elem_at_in_range row i) as (a & Ha & _); [unfold len in *; lia|].
      exists a. unfold cell. rewrite Hrow, bind_Ret, Ha. auto.
    - exists r. split; [exact Hr|]. rewrite Hlr, length_seqZ. unfold len. lia. }
  exists y. split; [exact Hy|]. split; [rewrite Hly, length_seqZ; unfold len; lia|].
  split; [exact Hrows|].
  intros i j r row Hi Hj.
  apply rmapM_Forall2 in Hy.
  destruct (Forall2_lookup_r _ _ _ _ _ Hy Hi) as (i' & Hi' & Hr).
  apply lookup_seqZ in Hi' as [-> _]. rewrite Z.add_0_l in Hr.
  apply rmapM_Forall2 in Hr.
  assert (Hjn : seqZ 0 (len x) !! j = Some (Z.of_nat j)).
  { rewrite lookup_seqZ_lt; [reflexivity|]. apply lookup_lt_Some in Hj. unfold len. lia. }
  destruct (Forall2_lookup_l _ _ _ _ _ Hr Hjn) as (a & Ha & Hcell).
  unfold cell in Hcell.
  assert (Hrow : elem_at x (Z.of_nat j) = Ret row).
  { apply elem_at_lookup. rewrite Nat2Z.id. split; [lia|exact Hj]. }
  rewrite Hrow, bind_Ret in Hcell. apply elem_at_lookup in Hcell as [_ Hcell].
  rewrite Nat2Z.id in Hcell. rewrite Ha, Hcell. split; [reflexivity|eauto].
Qed.

Lemma transposeRecords_short_row :
  Exists (fun row => (length row < length x0)%nat) x ->
  transposeRecords x = Panic "index out of range".
Proof.
  intros Hshort. rewrite transposeRecords_unfold.
  assert (Hcell : forall i j, j ∈ seqZ 0 (len x) ->
            returns (cell i j) \/ cell i j = Panic "index out of range").
  { intros i j Hj. apply elem_of_seqZ in Hj.
    destruct (elem_at_in_range x j) as (row & Hrow & _); [lia|].
    unfold cell. rewrite Hrow, bind_Ret. unfold elem_at.
    destruct (i <? 0); [right; reflexivity|].
    destruct (row !! Z.to_nat i) as [a|]; [left; exists a; reflexivity|right; reflexivity]. }
  assert (Hinner : forall i,
            returns (rmapM (cell i) (seqZ 0 (len x)))
            \/ rmapM (cell i) (seqZ 0 (len x)) = Panic "index out of range").
  { intros i. revert Hcell. generalize (seqZ 0 (len x)). intros js Hjs.
    induction js as [|j js IH]; [left; exists []; reflexivity|].
    simpl. destruct (Hjs i j) as [[a Ha]|Ha]; [left| |rewrite Ha; right; reflexivity].
    rewrite Ha, bind_Ret.
    destruct IH as [[bs Hbs]|Hp]; [intros; apply Hjs; right; assumption| |].
    - rewrite Hbs. left. eexists. reflexivity.
    - rewrite Hp. right. reflexivity. }
  apply rmapM_panics; [apply Forall_forall; intros i _; apply Hinner|].
  apply Exists_exists in Hshort as (row & Hin & Hlt).
  apply list_elem_of_lookup_1 in Hin as [j Hj].
  apply Exists_exists. exists (len row). split.
  { apply elem_of_seqZ. unfold len. lia. }
  apply rmapM_panics; [apply Forall_forall; intros j' Hj'; apply Hcell, Hj'|].
  apply Exists_exists. exists (Z.of_nat j). split.
  { apply elem_of_seqZ. apply lookup_lt_Some in Hj. unfold len. lia. }
  unfold cell.
  assert (Hrow : elem_at x (Z.of_nat j) = Ret row).
  { apply elem_at_lookup. rewrite Nat2Z.id. split; [lia|exact Hj]. }
  rewrite Hrow, bind_Ret. apply elem_at_panics. right. lia.
Qed.
End TransposeFacts.

(** X22: [transposeRecords] on a non-empty list of rows.  When no row
    is shorter than the first, the result has one row per position of
    the first row, each as long as the list, with [y[i][j] = x[j][i]];
    what longer rows hold past the length of the first is left out.
    When a row is shorter than the first, the call aborts with an index
    panic.  When all rows are as long as the first and not empty,
    transposing the result gives the list back.  The empty list is
    returned as it is. *)
Theorem transposeRecords_spec {A} (x0 : list A) (rest : list (list A)) :
  (Forall (fun row => (length x0 <= length row)%nat) (x0 :: rest) ->
   exists y,
     transposeRecords (x0 :: rest) = Ret y
     /\ length y = length x0
     /\ Forall (fun r => length r = S (length rest)) y
     /\ forall (i j : nat) (r row : list A),
          y !! i = Some r -> (x0 :: rest) !! j = Some row ->
          r !! j = row !! i /\ is_Some (r !! j))
  /\ (Exists (fun row => (length row < length x0)%nat) (x0 :: rest) ->
      transposeRecords (x0 :: rest) = Panic "index out of range")
  /\ (x0 <> [] -> Forall (fun row => length row = length x0) (x0 :: rest) ->
      exists y, transposeRecords (x0 :: rest) = Ret y
                /\ transposeRecords y = Ret (x0 :: rest))
  /\ transposeRecords (@nil (list A)) = Ret [].
Proof.
  split; [apply transposeRecords_entries|].
  split; [apply transposeRecords_short_row|].
  split; [|reflexivity].
  intros Hne Hrect.
  destruct (transposeRecords_entries x0 rest) as (y & Hy & Hly & Hrows & Hcells).
  { eapply Forall_impl; [exact Hrect|]. simpl. intros row ->. lia. }
  exists y. split; [exact Hy|].
  destruct y as [|y0 yrest]; [destruct x0; [congruence|discriminate]|].
  destruct (transposeRecords_entries y0 yrest) as (z & Hz & Hlz & Hzrows & Hzcells).
  { pose proof Hrows as Hr'. apply Forall_cons in Hr' as [Hy0 _].
    eapply Forall_impl; [exact Hrows|]. simpl in *. intros r Hr. lia. }
  rewrite Hz. f_equal.
  apply Forall_cons in Hrows as Hrows'. destruct Hrows' as [Hy0 _].
  apply list_eq. intros j.
  destruct ((x0 :: rest) !! j) as [row|] eqn:Hj.
  - destruct (lookup_lt_is_Some_2 z j) as [r' Hr'].
    { rewrite Hlz, Hy0. apply lookup_lt_Some in Hj. exact Hj. }
    rewrite Hr'. f_equal.
    rewrite Forall_forall in Hzrows, Hrect.
    assert (Hlr' : length r' = length x0).
    { rewrite (Hzrows r') by (eapply list_elem_of_lookup_2, Hr'). exact Hly. }
    assert (Hlrow : length row = length x0)
      by (apply Hrect; eapply list_elem_of_lookup_2, Hj).
    apply list_eq. intros i.
    destruct ((y0 :: yrest) !! i) as [r|] eqn:Hi.
    + destruct (Hzcells j i r' r Hr' Hi) as [Hzc _].
      destruct (Hcells i j r row Hi Hj) as [Hc _].
      rewrite Hzc, Hc. reflexivity.
    + apply lookup_ge_None in Hi. rewrite Hly in Hi.
      rewrite (proj2 (lookup_ge_None r' i)) by lia.
      rewrite (proj2 (lookup_ge_None row i)) by lia. reflexivity.
  - apply lookup_ge_None in Hj. apply lookup_ge_None. rewrite Hlz, Hy0. exact Hj.
Qed.

Lemma transposeRecords_spec_witness :
  (exists y, transposeRecords [["a"; "b"; "c"]; ["d"; "e"; "f"]] = Ret y
             /\ transposeRecords y = Ret [["a"; "b"; "c"]; ["d"; "e"; "f"]])
  /\ transposeRecords [["a"; "b"]; ["d"]] = Panic "index out of range".
Proof.
  destruct (transposeRecords_spec ["a"; "b"; "c"] [["d"; "e"; "f"]]) as (_ & _ & Hinv & _).
  destruct (transposeRecords_spec ["a"; "b"] [["d"]]) as (_ & Hshort & _).
  split.
  - apply Hinv; [discriminate|repeat constructor].
  - apply Hshort. right. left. simpl. lia.
Defined.

(** ** Copies own their storage *)

Section HeapFacts.
Context {T E : Type} `{Element T E}.
Variable fixColnames : list string -> list string.

Lemma heap_dom (h : shared.heap (E := E)) (l : shared.loc) :
  l ∈ dom h <-> exists els, (h !! l) = Some els.
Proof. unfold shared.heap, shared.loc in *. apply elem_of_dom. Qed.

Lemma alloc_fresh (h : shared.heap (E := E)) (els : list E) :
  (fst (shared.alloc h els) ∉ dom h)
  /\ (snd (shared.alloc h els) !! fst (shared.alloc h els)) = Some els
  /\ forall l, l ∈ dom h -> (snd (shared.alloc h els) !! l) = (h !! l).
Proof.
  unfold shared.alloc. simpl.
  pose proof (is_fresh (dom h)) as Hf.
  split; [exact Hf|]. split; [apply (lookup_insert_eq (M := gmap shared.loc))|].
  intros l Hl. apply (lookup_insert_ne (M := gmap shared.loc)). intros <-. contradiction.
Qed.

Lemma deref_write_other (h : shared.heap (E := E)) (s : shared.Series1) (l : shared.loc)
    (els : list E) :
  l <> shared.elements s -> shared.deref (<[l := els]> h) s = shared.deref h s.
Proof.
  intros Hne. unfold shared.deref.
  change (default [] (<[l := els]> (h : gmap nat (list E)) !! shared.elements s)
          = default [] (h !! shared.elements s)).
  rewrite lookup_insert_ne by exact Hne. reflexivity.
Qed.

Lemma Set_series_writes_receiver (c nv : shared.Series1) (indexes : Indexes)
    (h : shared.heap (E := E)) (s : shared.Series1) :
  shared.elements s <> shared.elements c ->
  shared.deref (shared.Set_series c indexes nv h).2 s = shared.deref h s.
Proof.
  intros Hne. unfold shared.Set_series.
  destruct (shared.Err c); [reflexivity|].
  destruct (shared.Err nv); [reflexivity|].
  destruct (parseIndexes _ indexes); [|reflexivity].
  destruct (negb _); [reflexivity|].
  destruct (Set_loop _ _ _) as [els err]. simpl.
  apply deref_write_other. congruence.
Qed.

(** X23: [Copy] of a column whose storage belongs to the heap gets
    storage of its own: a new array holding copies of the elements,
    while every array of the heap stays as it was.  Writing to the copy
    with [Set] or [Append] leaves the elements of the original
    unchanged. *)
Theorem Copy_series_own_storage (s : shared.Series1) (h : shared.heap (E := E)) :
  shared.elements s ∈ dom h ->
  let c := (shared.Copy_series s h).1 in
  let h1 := (shared.Copy_series s h).2 in
  shared.Name c = shared.Name s /\ shared.Err c = shared.Err s
  /\ (shared.elements c ∉ dom h)
  /\ shared.deref h1 c = map Copy (shared.deref h s)
  /\ (forall l, l ∈ dom h -> (h1 !! l) = (h !! l))
  /\ (forall indexes nv,
        shared.deref (shared.Set_series c indexes nv h1).2 s = shared.deref h s)
  /\ (forall values, shared.deref (shared.Append c values h1) s = shared.deref h s).
Proof.
  intros Hs. unfold shared.Copy_series.
  destruct (alloc_fresh h (map Copy (shared.deref h s))) as (Hf & Hl & Hold).
  destruct (shared.alloc h (map Copy (shared.deref h s))) as [l h1] eqn:Ha.
  simpl in *.
  assert (Hne : shared.elements s <> l) by (intros <-; contradiction).
  assert (Hsame : shared.deref h1 s = shared.deref h s).
  { unfold shared.deref. rewrite (Hold _ Hs). reflexivity. }
  split; [reflexivity|]. split; [reflexivity|]. split; [exact Hf|].
  split; [unfold shared.deref; simpl; rewrite Hl; reflexivity|].
  split; [exact Hold|]. split.
  - intros indexes nv. rewrite Set_series_writes_receiver by exact Hne. exact Hsame.
  - intros values. unfold shared.Append. simpl.
    destruct (shared.Err s); [exact Hsame|].
    rewrite deref_write_other by (simpl; congruence). exact Hsame.
Qed.

Lemma Copy_series_alloc (s : shared.Series1) (h : shared.heap (E := E)) :
  shared.Copy_series s h
  = (shared.mkSeries1 (shared.Name s)
       (fst (shared.alloc h (map Copy (shared.deref h s)))) (shared.Err s),
     snd (shared.alloc h (map Copy (shared.deref h s)))).
Proof. reflexivity. Qed.

Lemma copyAll_cons (s : shared.Series1) (se : list shared.Series1)
    (h : shared.heap (E := E)) :
  shared.copyAll (s :: se) h
  = (fst (shared.Copy_series s h) :: fst (shared.copyAll se (snd (shared.Copy_series s h))),
     snd (shared.copyAll se (snd (shared.Copy_series s h)))).
Proof.
  cbn [shared.copyAll]. destruct (shared.Copy_series s h) as [c h']. cbn [fst snd].
  destruct (shared.copyAll se h') as [cs h1]. reflexivity.
Qed.

Lemma copyAll_fresh (se : list shared.Series1) :
  forall (h : shared.heap (E := E)),
    Forall (fun s => shared.elements s ∈ dom h) se ->
    let cs := (shared.copyAll se h).1 in
    let h1 := (shared.copyAll se h).2 in
    (forall l, l ∈ dom h -> (h1 !! l) = (h !! l))
    /\ Forall (fun c => (shared.elements c ∉ dom h) /\ shared.elements c ∈ dom h1) cs
    /\ NoDup (map shared.elements cs)
    /\ map (shared.deref h1) cs = map (fun s => map Copy (shared.deref h s)) se
    /\ map shared.Err cs = map shared.Err se.
Proof.
  induction se as [|s se IH]; intros h Hse.
  - simpl. repeat split; constructor.
  - apply Forall_cons in Hse as [Hs Hse].
    rewrite copyAll_cons.
    destruct (alloc_fresh h (map Copy (shared.deref h s))) as (Hf & Hl & Hold).
    rewrite (Copy_series_alloc s h).
    set (l := fst (shared.alloc h (map Copy (shared.deref h s)))) in *.
    set (h' := snd (shared.alloc h (map Copy (shared.deref h s)))) in *.
    cbn [fst snd].
    assert (Hdom : forall k, k ∈ dom h -> k ∈ dom h').
    { intros k Hk. apply heap_dom. rewrite (Hold k Hk). apply heap_dom, Hk. }
    specialize (IH h'). destruct IH as (Hold' & Hcs & Hnd & Hc & He).
    { eapply Forall_impl; [exact Hse|]. simpl. intros s0. apply Hdom. }
    destruct (shared.copyAll se h') as [cs h1] eqn:Hcopy. cbn [fst snd] in *.
    assert (Hl1 : h1 !! l = Some (map Copy (shared.deref h s))).
    { rewrite Hold'; [exact Hl|]. apply heap_dom. rewrite Hl. eauto. }
    split; [|split; [|split; [|split]]].
    + intros k Hk. rewrite (Hold' k (Hdom k Hk)). apply Hold, Hk.
    + constructor.
      * simpl. split; [exact Hf|]. apply heap_dom. rewrite Hl1. eauto.
      * eapply Forall_impl; [exact Hcs|]. simpl. intros c [Hc1 Hc2].
        split; [|exact Hc2]. intros Hin. apply Hc1, Hdom, Hin.
    + simpl. constructor; [|exact Hnd].
      intros Hin. apply list_elem_of_fmap in Hin as (c & Hlc & Hin).
      rewrite Forall_forall in Hcs. destruct (Hcs c Hin) as [Hnot _].
      apply Hnot. rewrite <- Hlc. apply heap_dom. rewrite Hl. eauto.
    + simpl. f_equal.
      * unfold shared.deref at 1. simpl. rewrite Hl1. reflexivity.
      * rewrite Hc. apply map_ext_in. intros s0 Hs0.
        rewrite Forall_forall in Hse. apply list_elem_of_In in Hs0.
        unfold shared.deref. rewrite (Hold _ (Hse s0 Hs0)). reflexivity.
    + simpl. f_equal. exact He.
Qed.

Lemma setNames_storage (cols : list shared.Series1) :
  forall names,
    map shared.elements (shared.setNames cols names) = map shared.elements cols.
Proof.
  induction cols as [|c cols IH]; intros names; simpl; [reflexivity|].
  rewrite IH. reflexivity.
Qed.

Lemma contents_storage (h h' : shared.heap (E := E)) (cols cols' : list shared.Series1) :
  map shared.elements cols = map shared.elements cols' ->
  (forall l, l ∈ map shared.elements cols -> (h' !! l) = (h !! l)) ->
  map (shared.deref h') cols = map (shared.deref h) cols'.
Proof.
  revert cols'. induction cols as [|c cols IH]; intros [|c' cols'] Hel Hsame;
    try discriminate; [reflexivity|].
  simpl in Hel. injection Hel as Hc Hel. simpl. f_equal.
  - unfold shared.deref. rewrite <- Hc. rewrite Hsame; [reflexivity|]. left.
  - apply IH; [exact Hel|]. intros l Hl. apply Hsame. right. exact Hl.
Qed.

(** X24: [New] on columns whose storage belongs to the heap.  An
    error-free result refers only to arrays that did not exist before,
    one per column and no two the same, holding copies of the elements
    of the arguments; every array of the heap stays as it was.  A later
    [Set] on one of the argument columns therefore leaves the table
    unchanged. *)
Theorem New_copies_storage (se : list shared.Series1) (h : shared.heap (E := E)) :
  Forall (fun s => shared.elements s ∈ dom h) se ->
  let df := (shared.New fixColnames se h).1 in
  let h1 := (shared.New fixColnames se h).2 in
  shared.DfErr df = None ->
  Forall (fun c => shared.elements c ∉ dom h) (shared.columns df)
  /\ NoDup (map shared.elements (shared.columns df))
  /\ shared.contents h1 df = map (fun s => map Copy (shared.deref h s)) se
  /\ (forall l, l ∈ dom h -> (h1 !! l) = (h !! l))
  /\ (forall s indexes nv, In s se ->
        shared.contents (shared.Set_series s indexes nv h1).2 df = shared.contents h1 df).
Proof.
  intros Hse. unfold shared.New.
  destruct (len se =? 0); [simpl; discriminate|].
  destruct (copyAll_fresh se h Hse) as (Hold & Hcs & Hnd & Hc & He).
  destruct (shared.copyAll se h) as [cs h1] eqn:Hcopy. simpl in *.
  unfold shared.buildFrame.
  destruct (shared.checkColumnsDimensions h1 cs) as [[nr nc] [e|]]; simpl; [discriminate|].
  intros _.
  pose proof (setNames_storage cs (fixColnames (map shared.Name cs))) as Hst.
  assert (Hfresh : Forall (fun c => shared.elements c ∉ dom h)
                     (shared.setNames cs (fixColnames (map shared.Name cs)))).
  { apply Forall_forall. intros c Hin.
    assert (Hl : shared.elements c ∈ map shared.elements cs).
    { rewrite <- Hst. apply list_elem_of_fmap. exists c. auto. }
    apply list_elem_of_fmap in Hl as (c0 & -> & Hin0).
    rewrite Forall_forall in Hcs. apply (Hcs c0 Hin0). }
  split; [exact Hfresh|]. split; [rewrite Hst; exact Hnd|]. split.
  { unfold shared.contents. simpl. rewrite <- Hc.
    apply contents_storage; [exact Hst|reflexivity]. }
  split; [exact Hold|].
  intros s indexes nv Hs. unfold shared.contents. simpl.
  apply map_ext_in. intros c Hin. apply Set_series_writes_receiver.
  rewrite Forall_forall in Hfresh, Hse. apply list_elem_of_In in Hin, Hs.
  intros Heq. apply (Hfresh c Hin). rewrite Heq. apply Hse, Hs.
Qed.
End HeapFacts.

Definition heapA : shared.heap (E := ElementValue Z) :=
  (shared.NewSeries "a" [1; 2] ∅).2.
Definition columnA : shared.Series1 :=
  (shared.NewSeries (E := ElementValue Z) "a" [1; 2] ∅).1.

Lemma columnA_allocated : shared.elements columnA ∈ dom heapA.
Proof. apply heap_dom. eexists. vm_compute. reflexivity. Defined.

Lemma Copy_series_own_storage_witness :
  shared.deref
    (shared.Set_series (shared.Copy_series columnA heapA).1 (IdxInt 0) columnA
       (shared.Copy_series columnA heapA).2).2 columnA
  = shared.deref heapA columnA.
Proof.
  destruct (Copy_series_own_storage columnA heapA columnA_allocated)
    as (_ & _ & _ & _ & _ & Hset & _).
  apply Hset.
Defined.

Lemma New_copies_storage_witness :
  shared.contents
    (shared.Set_series columnA (IdxInt 0) columnA
       (shared.New (fun names => names) [columnA] heapA).2).2
    (shared.New (fun names => names) [columnA] heapA).1
  = shared.contents (shared.New (fun names => names) [columnA] heapA).2
      (shared.New (fun names => names) [columnA] heapA).1.
Proof.
  destruct (New_copies_storage (fun names => names) [columnA] heapA) as (_ & _ & _ & _ & Hset).
  - constructor; [exact columnA_allocated|constructor].
  - vm_compute. reflexivity.
  - apply Hset. left. reflexivity.
Defined.

(** ** Col and Rename *)

Section ColumnFacts.
Context {T E : Type} `{Element T E}.
Variable fixColnames : list string -> list string.
Variable df : GotaDataFrame E.

Lemma ColIndex_first (colname : string) :
  In colname (Names df) ->
  0 <= ColIndex df colname < len (columns df)
  /\ exists c, columns df !! Z.to_nat (ColIndex df colname) = Some c
               /\ Name c = colname
               /\ elem_at (columns df) (ColIndex df colname) = Ret c.
Proof.
  intros Hin. pose proof (ColIndex_range df colname Hin) as Hr. split; [exact Hr|].
  destruct (findInStringSlice_from_spec colname (Names df) 0 (Z.le_refl 0)) as [_ Hsome].
  simpl in Hsome. fold (findInStringSlice colname (Names df)) in Hsome.
  fold (ColIndex df colname) in Hsome.
  destruct Hsome as (_ & Hat & _); [lia|].
  rewrite Z.sub_0_r in Hat. unfold Names in Hat.
  change (map Name (columns df)) with (Name <$> columns df) in Hat.
  rewrite list_lookup_fmap in Hat.
  destruct (columns df !! Z.to_nat (ColIndex df colname)) as [c|] eqn:Hc; [|discriminate].
  injection Hat as Hname. exists c. split; [reflexivity|]. split; [exact Hname|].
  apply elem_at_lookup. split; [lia|exact Hc].
Qed.

(** X25: [Col] never aborts.  For a column name of an error-free table
    it returns a copy of the first column of that name; for any other
    name a column that carries the error "unknown column name"; on a
    table with an error a column that carries this error. *)
Theorem Col_spec (colname : string) :
  (DfErr df = None -> In colname (Names df) ->
   exists c, columns df !! Z.to_nat (ColIndex df colname) = Some c
             /\ Name c = colname
             /\ (forall k : nat, (k < Z.to_nat (ColIndex df colname))%nat ->
                   Names df !! k <> Some colname)
             /\ Col df colname = Ret (Copy_series c))
  /\ (DfErr df = None -> ~ In colname (Names df) ->
      Col df colname = Ret (mkGotaSeries "" [] (Some "unknown column name")))
  /\ (forall e, DfErr df = Some e -> Col df colname = Ret (mkGotaSeries "" [] (Some e))).
Proof.
  split; [|split].
  - intros He Hin. destruct (ColIndex_first colname Hin) as (Hr & c & Hc & Hname & Hat).
    exists c. split; [exact Hc|]. split; [exact Hname|]. split.
    + destruct (findInStringSlice_from_spec colname (Names df) 0 (Z.le_refl 0))
        as [_ Hsome].
      simpl in Hsome. fold (findInStringSlice colname (Names df)) in Hsome.
      fold (ColIndex df colname) in Hsome.
      destruct Hsome as (_ & _ & Hfirst); [lia|].
      rewrite Z.sub_0_r in Hfirst. exact Hfirst.
    + unfold Col. rewrite He. fold (ColIndex df colname).
      replace (ColIndex df colname <? 0) with false by (symmetry; apply Z.ltb_ge; lia).
      rewrite Hat. reflexivity.
  - intros He Hnot. unfold Col. rewrite He. fold (ColIndex df colname).
    rewrite (proj2 (ColIndex_negative df colname) Hnot). reflexivity.
  - intros e He. unfold Col. rewrite He. reflexivity.
Qed.

Hypothesis df_wf : spec.wellFormed df.

(** X26: [Rename] on a well-formed table.  For a column name it
    returns a copy of the table in which the first column of that name
    carries the new name; the other names, the elements and the
    dimensions are those of the copy, and the names are not made unique
    again.  For any other name the result is the error "rename: can't
    find column name". *)
Theorem Rename_spec (newname oldname : string) :
  (In oldname (Names df) ->
   exists r,
     Rename fixColnames df newname oldname = Ret r
     /\ spec.wellFormed r
     /\ nrows r = nrows df /\ ncols r = ncols df
     /\ Names r
        = <[Z.to_nat (ColIndex df oldname) := newname]> (Names (Copy_df fixColnames df))
     /\ In newname (Names r)
     /\ map elements (columns r) = map (fun c => map Copy (elements c)) (columns df))
  /\ (~ In oldname (Names df) ->
      Rename fixColnames df newname oldname
      = Ret (errDataFrame "rename: can't find column name")).
Proof.
  pose proof df_wf as (He & Hnc & Hu). split.
  - intros Hin. destruct (ColIndex_first oldname Hin) as (Hr & c0 & Hc0 & _ & _).
    assert (Hne : columns df <> []) by (intros Hnil; rewrite Hnil in Hc0; discriminate).
    destruct (New_uniform_wellFormed fixColnames (nrows df) (columns df) Hu Hne)
      as (Hw & Hn & Hc & Hel).
    assert (Hcopy : Copy_df fixColnames df = New fixColnames (columns df))
      by (unfold Copy_df; rewrite He; reflexivity).
    unfold Rename. rewrite He. fold (ColIndex df oldname).
    replace (ColIndex df oldname =? -1) with false by (symmetry; apply Z.eqb_neq; lia).
    rewrite Hcopy. unfold Columns.
    set (copy := New fixColnames (columns df)) in *.
    destruct Hw as (Hec & Hncc & Huc).
    destruct (elem_at_in_range (columns copy) (ColIndex df oldname)) as (c & Hat & _).
    { rewrite <- Hncc, Hc. exact Hr. }
    rewrite Hat, bind_Ret. apply elem_at_lookup in Hat as [_ Hat].
    eexists. split; [reflexivity|]. simpl.
    assert (Hc_ok : Err c = None /\ len (elements c) = nrows copy).
    { rewrite Forall_forall in Huc. apply Huc. eapply list_elem_of_lookup_2, Hat. }
    split; [|split; [exact Hn|split; [rewrite Hc; symmetry; exact Hnc|]]].
    + split; [exact Hec|]. split.
      * simpl. unfold len. rewrite length_insert. exact Hncc.
      * simpl. apply Forall_insert; [exact Huc|]. exact Hc_ok.
    + assert (Hnames : Names
                (mkGotaDataFrame
                   (<[Z.to_nat (ColIndex df oldname) :=
                        mkGotaSeries newname (elements c) (Err c)]> (columns copy))
                   (ncols copy) (nrows copy) (DfErr copy))
              = <[Z.to_nat (ColIndex df oldname) := newname]> (Names copy)).
      { unfold Names. simpl.
        change (map Name ?l) with (Name <$> l). rewrite list_fmap_insert. reflexivity. }
      split; [exact Hnames|]. split.
      * rewrite Hnames. apply list_elem_of_In.
        eapply list_elem_of_lookup_2. apply list_lookup_insert_eq.
        unfold Names. rewrite length_map. apply lookup_lt_Some in Hat. exact Hat.
      * rewrite <- Hel. change (map elements ?l) with (elements <$> l).
        rewrite list_fmap_insert. simpl. apply list_insert_id.
        rewrite list_lookup_fmap, Hat. reflexivity.
  - intros Hnot. unfold Rename. rewrite He. fold (ColIndex df oldname).
    apply ColIndex_negative in Hnot. apply Z.ltb_lt in Hnot.
    destruct (findInStringSlice_from_range oldname (Names df) 0) as [Hm|Hm];
      unfold ColIndex, findInStringSlice in *; [rewrite Hm; reflexivity|lia].
Qed.
End ColumnFacts.

Lemma Col_spec_witness :
  (exists c, Col tableA "x" = Ret (Copy_series c) /\ Name c = "x")
  /\ Col tableA "z" = Ret (mkGotaSeries "" [] (Some "unknown column name")).
Proof.
  destruct (Col_spec tableA "x") as (Hfound & _ & _).
  destruct (Col_spec tableA "z") as (_ & Hnone & _).
  split.
  - destruct Hfound as (c & _ & Hname & _ & Hcol); [reflexivity|simpl; tauto|].
    exists c. auto.
  - apply Hnone; [reflexivity|]. simpl. intros [Hz|[Hz|[]]]; discriminate.
Defined.

Lemma Rename_spec_witness :
  exists r,
    Rename (fun names => names) tableA "id" "x" = Ret r
    /\ Names r = ["id"; "id"].
Proof.
  destruct (Rename_spec (fun names => names) tableA) with (newname := "id") (oldname := "x")
    as [Hok _].
  - repeat split. repeat constructor.
  - destruct Hok as (r & Hr & _ & _ & _ & Hnames & _); [simpl; tauto|].
    exists r. split; [exact Hr|]. rewrite Hnames. reflexivity.
Defined.

(** ** Select with a mask *)

Lemma mask_positions_spec (bools : list bool) :
  forall k : Z,
    StronglySorted Z.lt (mask_positions k bools)
    /\ forall i : Z, i ∈ mask_positions k bools
                     <-> k <= i /\ bools !! Z.to_nat (i - k) = Some true.
Proof.
  induction bools as [|b bools IH]; intros k; simpl.
  - split; [constructor|]. intros i. split; [intros Hi; inversion Hi|].
    intros [_ Hn]. discriminate.
  - destruct (IH (k + 1)) as [Hsorted Hmem].
    assert (Hshift : forall i, k + 1 <= i ->
              (b :: bools) !! Z.to_nat (i - k) = bools !! Z.to_nat (i - (k + 1))).
    { intros i Hi. replace (Z.to_nat (i - k)) with (S (Z.to_nat (i - (k + 1)))) by lia.
      reflexivity. }
    assert (Hhead : (b :: bools) !! Z.to_nat (k - k) = Some b).
    { rewrite Z.sub_diag. reflexivity. }
    destruct b.
    + split.
      * constructor; [exact Hsorted|]. apply Forall_forall. intros i Hi.
        apply Hmem in Hi. lia.
      * intros i. rewrite elem_of_cons, Hmem. split.
        -- intros [->|[Hi Hb]]; [split; [lia|exact Hhead]|].
           split; [lia|]. rewrite Hshift by lia. exact Hb.
        -- intros [Hi Hb]. destruct (Z.eq_dec i k) as [->|Hne]; [left; reflexivity|].
           right. split; [lia|]. rewrite <- Hshift by lia. exact Hb.
    + split; [exact Hsorted|]. intros i. rewrite Hmem. split.
      * intros [Hi Hb]. split; [lia|]. rewrite Hshift by lia. exact Hb.
      * intros [Hi Hb]. destruct (Z.eq_dec i k) as [->|Hne]; [congruence|].
        split; [lia|]. rewrite <- Hshift by lia. exact Hb.
Qed.

(** X27: [Select] with a Boolean mask on an error-free table.  A mask
    whose length is not the number of columns gives an error; a mask of
    the right length selects the positions marked [true], each once and
    in ascending order. *)
Theorem Select_by_mask {T E : Type} `{Element T E}
    (fixColnames : list string -> list string) (elemBool : E -> bool + error)
    (colType : GotaSeries E -> Type_) (elemInt : E -> Z + error) (elemString : E -> string)
    (df : GotaDataFrame E) (bools : list bool) :
  DfErr df = None ->
  (len bools <> ncols df ->
   Select fixColnames elemBool colType elemInt elemString df (SelBools bools)
   = Ret (errDataFrame
            "can't select columns: indexing error: index dimensions mismatch"))
  /\ (len bools = ncols df ->
      exists idx,
        Select fixColnames elemBool colType elemInt elemString df (SelBools bools)
        = Select fixColnames elemBool colType elemInt elemString df (SelInts idx)
        /\ StronglySorted Z.lt idx
        /\ forall i : Z, i ∈ idx <-> 0 <= i /\ bools !! Z.to_nat i = Some true).
Proof.
  intros He. unfold Select. rewrite He. cbn [parseSelectIndexes]. unfold parseSelectBools.
  split; intros Hlen.
  - apply Z.eqb_neq in Hlen. rewrite Hlen. reflexivity.
  - rewrite Hlen, Z.eqb_refl. simpl.
    exists (mask_positions 0 bools). split; [reflexivity|].
    destruct (mask_positions_spec bools 0) as [Hsorted Hmem].
    split; [exact Hsorted|]. intros i. rewrite Hmem, Z.sub_0_r. reflexivity.
Qed.

Lemma Select_by_mask_witness :
  Select (fun names => names) noBool (fun _ => Int) intVal noString tableA (SelBools [true])
  = Ret (errDataFrame "can't select columns: indexing error: index dimensions mismatch")
  /\ exists idx,
       Select (fun names => names) noBool (fun _ => Int) intVal noString tableA
         (SelBools [false; true])
       = Select (fun names => names) noBool (fun _ => Int) intVal noString tableA
           (SelInts idx)
       /\ forall i : Z, i ∈ idx <-> 0 <= i /\ [false; true] !! Z.to_nat i = Some true.
Proof.
  destruct (Select_by_mask (fun names => names) noBool (fun _ => Int) intVal noString
              tableA [true] eq_refl) as [Hbad _].
  destruct (Select_by_mask (fun names => names) noBool (fun _ => Int) intVal noString
              tableA [false; true] eq_refl) as [_ Hok].
  split.
  - apply Hbad. discriminate.
  - destruct Hok as (idx & Hsel & _ & Hmem); [reflexivity|].
    exists idx. split; assumption.
Defined.

(** ** CrossJoin *)

Lemma positions_omap {A B} (g : option A -> option B) (els : list A) :
  forall pre : list A,
    omap (fun i => g ((pre ++ els)%list !! Z.to_nat i)) (seqZ (len pre) (len els))
    = omap (fun e => g (Some e)) els.
Proof.
  induction els as [|e els IH]; intros pre; [reflexivity|].
  rewrite seqZ_cons by (unfold len; simpl; lia).
  replace (Z.succ (len pre)) with (len (pre ++ [e])%list)
    by (unfold len; rewrite length_app; simpl; lia).
  replace (Z.pred (len (e :: els))) with (len els) by (unfold len; simpl; lia).
  specialize (IH (pre ++ [e])%list). rewrite <- app_assoc in IH. simpl in IH.
  cbn [omap list_omap]. rewrite IH.
  replace ((pre ++ e :: els)%list !! Z.to_nat (len pre)) with (Some e); [reflexivity|].
  symmetry. unfold len. rewrite Nat2Z.id. apply list_lookup_middle. reflexivity.
Qed.

Lemma positions_flat_map {A X} (G : option A -> list X) (els : list A) :
  forall pre : list A,
    flat_map (fun i => G ((pre ++ els)%list !! Z.to_nat i)) (seqZ (len pre) (len els))
    = flat_map (fun e => G (Some e)) els.
Proof.
  induction els as [|e els IH]; intros pre; [reflexivity|].
  rewrite seqZ_cons by (unfold len; simpl; lia).
  replace (Z.succ (len pre)) with (len (pre ++ [e])%list)
    by (unfold len; rewrite length_app; simpl; lia).
  replace (Z.pred (len (e :: els))) with (len els) by (unfold len; simpl; lia).
  specialize (IH (pre ++ [e])%list). rewrite <- app_assoc in IH. simpl in IH.
  cbn [flat_map]. rewrite IH.
  replace ((pre ++ e :: els)%list !! Z.to_nat (len pre)) with (Some e); [reflexivity|].
  symmetry. unfold len. rewrite Nat2Z.id. apply list_lookup_middle. reflexivity.
Qed.

Section CrossJoinFacts.
Context {T E : Type} `{Element T E}.
Variable fixColnames : list string -> list string.
Variable missingElement : E.

(** The copy [Append] makes of the element at position [i]. *)
Definition cellOf (c : GotaSeries E) (i : Z) : option E :=
  Copy <$> (elements c !! Z.to_nat i).

(** What a new column holds after the rows [ps] were appended, when
    it takes the element at [sel p] of [c] from the row [p]. *)
Definition written (sel : Z * Z -> Z) (c : GotaSeries E) (ps : list (Z * Z)) : list E :=
  omap (fun p => cellOf c (sel p)) ps.

Definition fills (sel : Z * Z -> Z) (ps : list (Z * Z))
    (srcs cs : list (GotaSeries E)) : Prop :=
  Forall2 (fun c c' => Name c' = Name c /\ Err c' = None
                       /\ elements c' = written sel c ps) srcs cs.

Lemma emptyCols_all (cols : list (GotaSeries E)) :
  forall pre : list (GotaSeries E),
    emptyCols (pre ++ cols)%list (seqZ (len pre) (len cols)) = Ret (map Empty cols).
Proof.
  unfold emptyCols. induction cols as [|c cols IH]; intros pre; [reflexivity|].
  rewrite seqZ_cons by (unfold len; simpl; lia).
  replace (Z.succ (len pre)) with (len (pre ++ [c])%list)
    by (unfold len; rewrite length_app; simpl; lia).
  replace (Z.pred (len (c :: cols))) with (len cols) by (unfold len; simpl; lia).
  specialize (IH (pre ++ [c])%list). rewrite <- app_assoc in IH. simpl in IH.
  cbn [rmapM]. rewrite elem_at_middle, !bind_Ret, IH. reflexivity.
Qed.

Lemma rowOf_all (n i : Z) (cols : list (GotaSeries E)) :
  0 <= i < n ->
  forall pre : list (GotaSeries E),
    uniform n cols ->
    exists row,
      rowOf (pre ++ cols)%list (seqZ (len pre) (len cols)) i = Ret row
      /\ Forall2 (fun c cell => exists e, elements c !! Z.to_nat i = Some e /\ cell = Some e)
                  cols row.
Proof.
  intros Hi. unfold rowOf. induction cols as [|c cols IH]; intros pre Hu.
  - exists []. split; [reflexivity|constructor].
  - apply Forall_cons in Hu as [[_ Hc] Hu].
    rewrite seqZ_cons by (unfold len; simpl; lia).
    replace (Z.succ (len pre)) with (len (pre ++ [c])%list)
      by (unfold len; rewrite length_app; simpl; lia).
    replace (Z.pred (len (c :: cols))) with (len cols) by (unfold len; simpl; lia).
    destruct (IH (pre ++ [c])%list Hu) as (row & Hrow & Hcells).
    rewrite <- app_assoc in Hrow. simpl in Hrow.
    destruct (elem_at_in_range (elements c) i) as (e & He & _); [lia|].
    assert (Hcell : colElem (pre ++ c :: cols)%list (len pre) i = Ret e).
    { unfold colElem, Elem. rewrite elem_at_middle, bind_Ret. exact He. }
    cbn [rmapM]. rewrite Hcell, !bind_Ret, Hrow, bind_Ret.
    eexists. split; [reflexivity|]. constructor; [|exact Hcells].
    exists e. split; [|reflexivity]. apply elem_at_lookup in He. tauto.
Qed.

Lemma fills_append (sel : Z * Z -> Z) (ps : list (Z * Z)) (p : Z * Z)
    (srcs cs : list (GotaSeries E)) (row : list (option E)) :
  fills sel ps srcs cs ->
  Forall2 (fun c cell => exists e, elements c !! Z.to_nat (sel p) = Some e /\ cell = Some e)
          srcs row ->
  fills sel (ps ++ [p]) srcs (appendRow missingElement cs row).
Proof.
  unfold fills, appendRow. intros Hf. revert row.
  induction Hf as [|c c' srcs cs (Hn & He & Hel) Hf IH]; intros row Hrow.
  - inversion Hrow. constructor.
  - inversion Hrow as [|c0 cell srcs0 row' (e & Hc & ->) Hrest]; subst.
    cbn [zip_with]. constructor; [|apply IH, Hrest].
    unfold AppendElem. rewrite He. cbn [Name Err elements].
    split; [exact Hn|]. split; [reflexivity|].
    unfold written in *. rewrite omap_app, Hel. cbn [omap list_omap].
    replace (cellOf c (sel p)) with (Some (Copy e)); [reflexivity|].
    unfold cellOf. rewrite Hc. reflexivity.
Qed.

Lemma fills_uniform (sel : Z * Z -> Z) (ps : list (Z * Z)) (n : Z)
    (srcs cs : list (GotaSeries E)) :
  fills sel ps srcs cs ->
  (forall c, c ∈ srcs -> len (written sel c ps) = n) ->
  uniform n cs.
Proof.
  unfold fills, uniform. induction 1 as [|c c' srcs cs (_ & He & Hel) Hf IH]; intros Hn;
    constructor.
  - split; [exact He|]. rewrite Hel. apply Hn. left.
  - apply IH. intros c0 Hc0. apply Hn. right. exact Hc0.
Qed.

Lemma fills_names (sel : Z * Z -> Z) (ps : list (Z * Z)) (srcs cs : list (GotaSeries E)) :
  fills sel ps srcs cs -> map Name cs = map Name srcs.
Proof.
  unfold fills. induction 1 as [|c c' srcs cs (Hn & _) Hf IH]; [reflexivity|].
  simpl. rewrite Hn, IH. reflexivity.
Qed.

Lemma fills_elements (sel : Z * Z -> Z) (ps : list (Z * Z)) (srcs cs : list (GotaSeries E)) :
  fills sel ps srcs cs ->
  map elements cs = map (fun c => written sel c ps) srcs.
Proof.
  unfold fills. induction 1 as [|c c' srcs cs (_ & _ & Hel) Hf IH]; [reflexivity|].
  simpl. rewrite Hel, IH. reflexivity.
Qed.

Lemma fills_empty (sel : Z * Z -> Z) (srcs : list (GotaSeries E)) :
  fills sel [] srcs (map Empty srcs).
Proof.
  unfold fills. apply Forall2_fmap_r, Forall_Forall2_diag, Forall_forall.
  intros c _. repeat split.
Qed.

Lemma setNames_names (cols : list (GotaSeries E)) :
  forall names, length names = length cols -> map Name (setNames cols names) = names.
Proof.
  induction cols as [|c cols IH]; intros [|name names] Hl; simpl in *;
    try discriminate; [reflexivity|].
  rewrite IH by lia. reflexivity.
Qed.

Lemma length_flat_map_replicate {A B} (g : A -> B) (n : nat) (l : list A) :
  length (flat_map (fun e => replicate n (g e)) l) = (length l * n)%nat.
Proof.
  induction l as [|a l IH]; [reflexivity|].
  cbn [flat_map]. rewrite length_app, length_replicate, IH. simpl. lia.
Qed.

Lemma length_concat_replicate {A} (n : nat) (l : list A) :
  length (concat (replicate n l)) = (n * length l)%nat.
Proof.
  induction n as [|n IH]; [reflexivity|].
  cbn [replicate concat]. rewrite length_app, IH. simpl. lia.
Qed.

Lemma map_flat_map_replicate {A B C} (f : B -> C) (g : A -> B) (n : nat) (l : list A) :
  map f (flat_map (fun e => replicate n (g e)) l)
  = flat_map (fun e => replicate n (f (g e))) l.
Proof.
  induction l as [|a l IH]; [reflexivity|].
  cbn [flat_map]. rewrite map_app, IH. f_equal. clear IH.
  induction n as [|n IHn]; [reflexivity|]. simpl. rewrite IHn. reflexivity.
Qed.

Lemma map_concat_replicate {A B} (f : A -> B) (n : nat) (l : list A) :
  map f (concat (replicate n l)) = concat (replicate n (map f l)).
Proof.
  induction n as [|n IH]; [reflexivity|].
  cbn [replicate concat]. rewrite map_app, IH. reflexivity.
Qed.

Variables df b : GotaDataFrame E.
Hypothesis df_wf : spec.wellFormed df.
Hypothesis b_wf : spec.wellFormed b.

(** One round of the inner loop: the row [(i, j)] is appended. *)
Lemma crossRow_appended (i j : Z) (ps : list (Z * Z)) (ca cb : list (GotaSeries E)) :
  0 <= i < nrows df -> 0 <= j < nrows b ->
  fills fst ps (columns df) ca -> fills snd ps (columns b) cb ->
  exists ca' cb',
    (ra ← rowOf (columns df) (seqZ 0 (ncols df)) i;
     rb ← rowOf (Columns b) (seqZ 0 (NCol b)) j;
     Ret (appendRow missingElement (ca ++ cb)%list (ra ++ rb)%list))
    = Ret (ca' ++ cb')%list
    /\ fills fst (ps ++ [(i, j)]) (columns df) ca'
    /\ fills snd (ps ++ [(i, j)]) (columns b) cb'.
Proof.
  intros Hi Hj Ha Hb.
  destruct df_wf as (_ & Hna & Hua). destruct b_wf as (_ & Hnb & Hub).
  destruct (rowOf_all (nrows df) i (columns df) Hi [] Hua) as (ra & Hra & Hca).
  destruct (rowOf_all (nrows b) j (columns b) Hj [] Hub) as (rb & Hrb & Hcb).
  simpl in Hra, Hrb. change (len (@nil (GotaSeries E))) with 0 in Hra, Hrb.
  unfold Columns, NCol. rewrite Hna, Hnb, Hra, bind_Ret, Hrb, bind_Ret.
  exists (appendRow missingElement ca ra), (appendRow missingElement cb rb).
  split.
  - unfold appendRow. rewrite zip_with_app; [reflexivity|].
    rewrite <- (Forall2_length _ _ _ Ha). apply (Forall2_length _ _ _ Hca).
  - split; apply fills_append; assumption.
Qed.

Lemma crossInner_appended (i : Z) (js : list Z) :
  0 <= i < nrows df -> (forall j, j ∈ js -> 0 <= j < nrows b) ->
  forall (ps : list (Z * Z)) (ca cb : list (GotaSeries E)),
    fills fst ps (columns df) ca -> fills snd ps (columns b) cb ->
    exists ca' cb',
      rfoldl (fun newCols j =>
                ra ← rowOf (columns df) (seqZ 0 (ncols df)) i;
                rb ← rowOf (Columns b) (seqZ 0 (NCol b)) j;
                Ret (appendRow missingElement newCols (ra ++ rb)%list))
             (ca ++ cb)%list js
      = Ret (ca' ++ cb')%list
      /\ fills fst (ps ++ map (pair i) js) (columns df) ca'
      /\ fills snd (ps ++ map (pair i) js) (columns b) cb'.
Proof.
  intros Hi. induction js as [|j js IH]; intros Hjs ps ca cb Ha Hb.
  - exists ca, cb. simpl. rewrite app_nil_r. auto.
  - destruct (crossRow_appended i j ps ca cb Hi) as (ca1 & cb1 & Hstep & Ha1 & Hb1);
      [apply Hjs; left|assumption|assumption|].
    destruct (IH (fun j' Hj' => Hjs j' (list_elem_of_further _ _ _ Hj')) _ _ _ Ha1 Hb1)
      as (ca' & cb' & Hrest & Ha' & Hb').
    exists ca', cb'. cbn [rfoldl]. rewrite Hstep, bind_Ret, Hrest.
    cbn [map]. rewrite <- !app_assoc in Ha', Hb'. auto.
Qed.

Lemma crossRows_appended (is_ js : list Z) :
  (forall i, i ∈ is_ -> 0 <= i < nrows df) -> (forall j, j ∈ js -> 0 <= j < nrows b) ->
  forall (ps : list (Z * Z)) (ca cb : list (GotaSeries E)),
    fills fst ps (columns df) ca -> fills snd ps (columns b) cb ->
    exists ca' cb',
      rfoldl (fun newCols i =>
        rfoldl (fun newCols j =>
                  ra ← rowOf (columns df) (seqZ 0 (ncols df)) i;
                  rb ← rowOf (Columns b) (seqZ 0 (NCol b)) j;
                  Ret (appendRow missingElement newCols (ra ++ rb)%list))
               newCols js)
        (ca ++ cb)%list is_
      = Ret (ca' ++ cb')%list
      /\ fills fst (ps ++ list_prod is_ js) (columns df) ca'
      /\ fills snd (ps ++ list_prod is_ js) (columns b) cb'.
Proof.
  intros His Hjs. induction is_ as [|i is_ IH]; intros ps ca cb Ha Hb.
  - exists ca, cb. simpl. rewrite app_nil_r. auto.
  - destruct (crossInner_appended i js) with (ps := ps) (ca := ca) (cb := cb)
      as (ca1 & cb1 & Hin & Ha1 & Hb1); [apply His; left|exact Hjs|assumption|assumption|].
    destruct (IH (fun i' Hi' => His i' (list_elem_of_further _ _ _ Hi')) _ _ _ Ha1 Hb1)
      as (ca' & cb' & Hrest & Ha' & Hb').
    exists ca', cb'. cbn [rfoldl]. rewrite Hin, bind_Ret, Hrest.
    cbn [list_prod]. rewrite <- !app_assoc in Ha', Hb'. auto.
Qed.

(** What the left and the right columns hold after all pairs of rows. *)
Lemma written_left (c : GotaSeries E) (is_ js : list Z) :
  written fst c (list_prod is_ js)
  = flat_map (fun i => match cellOf c i with
                       | Some x => replicate (length js) x
                       | None => []
                       end) is_.
Proof.
  unfold written. induction is_ as [|i is_ IH]; [reflexivity|].
  cbn [list_prod flat_map]. rewrite omap_app, IH. f_equal. clear IH.
  induction js as [|j js IHj]; [destruct (cellOf c i); reflexivity|].
  cbn [map omap list_omap fst length replicate]. rewrite IHj.
  destruct (cellOf c i); reflexivity.
Qed.

Lemma written_right (c : GotaSeries E) (is_ js : list Z) :
  written snd c (list_prod is_ js)
  = concat (replicate (length is_) (omap (cellOf c) js)).
Proof.
  unfold written. induction is_ as [|i is_ IH]; [reflexivity|].
  cbn [list_prod length replicate concat]. rewrite omap_app, IH. f_equal. clear IH.
  induction js as [|j js IHj]; [reflexivity|].
  cbn [map omap list_omap snd]. rewrite IHj. reflexivity.
Qed.

Lemma written_left_all (c : GotaSeries E) (n : nat) (js : list Z) :
  length js = n ->
  written fst c (list_prod (seqZ 0 (len (elements c))) js)
  = flat_map (fun e => replicate n (Copy e)) (elements c).
Proof.
  intros <-. rewrite written_left. unfold cellOf.
  exact (positions_flat_map
           (fun o => match Copy <$> o with
                     | Some x => replicate (length js) x
                     | None => []
                     end) (elements c) []).
Qed.

Lemma written_right_all (c : GotaSeries E) (is_ : list Z) :
  written snd c (list_prod is_ (seqZ 0 (len (elements c))))
  = concat (replicate (length is_) (map Copy (elements c))).
Proof.
  rewrite written_right. do 2 f_equal. unfold cellOf.
  rewrite (positions_omap (fun o => Copy <$> o) (elements c) []).
  symmetry. apply (list_fmap_alt Copy).
Qed.

(** X15: [CrossJoin] of two well-formed tables of which at least one
    has a column returns a well-formed table with all columns of the
    left followed by all columns of the right and one row per pair of a
    left and a right row, in the order of the left rows and, for one
    left row, of the right rows: a left column holds every element as
    often in a row as the right table has rows, a right column holds
    its elements as often over as the left table has rows (all as
    copies of copies: [Append] copies, and so does [New]).  [NRow] is
    the product of the row counts, and the names are those of the left
    and then of the right columns, as [fixColnames] leaves them.  When
    neither table has a column, the result is the error "empty
    DataFrame". *)
Theorem CrossJoin_cartesian_product :
  (0 <= nrows df -> 0 <= nrows b -> (columns df ++ columns b)%list <> [] ->
   exists r,
     CrossJoin fixColnames missingElement df b = Ret r
     /\ spec.wellFormed r
     /\ NRow r = NRow df * NRow b
     /\ NCol r = NCol df + NCol b
     /\ map elements (columns r)
        = (map (fun c => flat_map (fun e => replicate (Z.to_nat (NRow b)) (Copy (Copy e)))
                                  (elements c)) (columns df)
           ++ map (fun c => concat (replicate (Z.to_nat (NRow df))
                                      (map (fun e => Copy (Copy e)) (elements c))))
                  (columns b))%list
     /\ (length (fixColnames (Names df ++ Names b)%list)
         = length (Names df ++ Names b)%list ->
         Names r = fixColnames (Names df ++ Names b)%list))
  /\ (columns df = [] -> columns b = [] ->
      CrossJoin fixColnames missingElement df b = Ret (errDataFrame "empty DataFrame")).
Proof.
  pose proof df_wf as (_ & Hna & Hua). pose proof b_wf as (_ & Hnb & Hub).
  split.
  - intros Hra Hrb Hne. unfold CrossJoin.
    pose proof (emptyCols_all (columns df) []) as Hea.
    pose proof (emptyCols_all (columns b) []) as Heb.
    simpl in Hea, Heb. change (len (@nil (GotaSeries E))) with 0 in Hea, Heb.
    unfold Columns, NCol, NRow. rewrite Hna, Hnb, Hea, bind_Ret, Heb, bind_Ret.
    destruct (crossRows_appended (seqZ 0 (nrows df)) (seqZ 0 (nrows b)))
      with (ps := @nil (Z * Z)) (ca := map Empty (columns df)) (cb := map Empty (columns b))
      as (ca & cb & Hloop & Ha & Hb).
    { intros i Hi. apply elem_of_seqZ in Hi. lia. }
    { intros j Hj. apply elem_of_seqZ in Hj. lia. }
    { apply fills_empty. }
    { apply fills_empty. }
    unfold Columns, NCol, NRow in Hloop. rewrite Hna, Hnb in Hloop.
    rewrite Hloop, bind_Ret. simpl in Ha, Hb.
    set (ps := list_prod (seqZ 0 (nrows df)) (seqZ 0 (nrows b))) in *.
    assert (Hwa : forall c, c ∈ columns df ->
              written fst c ps
              = flat_map (fun e => replicate (Z.to_nat (nrows b)) (Copy e)) (elements c)).
    { intros c Hc. apply (proj1 (Forall_forall _ _) Hua) in Hc as [_ Hc].
      unfold ps. rewrite <- Hc. apply written_left_all. apply length_seqZ. }
    assert (Hwb : forall c, c ∈ columns b ->
              written snd c ps
              = concat (replicate (Z.to_nat (nrows df)) (map Copy (elements c)))).
    { intros c Hc. apply (proj1 (Forall_forall _ _) Hub) in Hc as [_ Hc].
      unfold ps. rewrite <- Hc, written_right_all, length_seqZ. reflexivity. }
    assert (Hu : uniform (nrows df * nrows b) (ca ++ cb)%list).
    { apply Forall_app. split.
      - apply (fills_uniform fst ps _ (columns df)); [exact Ha|].
        intros c Hc. rewrite (Hwa c Hc).
        apply (proj1 (Forall_forall _ _) Hua) in Hc as [_ Hc].
        unfold len in *. rewrite length_flat_map_replicate. lia.
      - apply (fills_uniform snd ps _ (columns b)); [exact Hb|].
        intros c Hc. rewrite (Hwb c Hc).
        apply (proj1 (Forall_forall _ _) Hub) in Hc as [_ Hc].
        unfold len in *. rewrite length_concat_replicate, length_map. lia. }
    assert (Hla : length ca = length (columns df))
      by (symmetry; apply (Forall2_length _ _ _ Ha)).
    assert (Hlb : length cb = length (columns b))
      by (symmetry; apply (Forall2_length _ _ _ Hb)).
    assert (Hne' : (ca ++ cb)%list <> []).
    { intros Hnil. apply Hne. apply (f_equal length) in Hnil.
      rewrite length_app in Hnil. simpl in Hnil.
      apply length_zero_iff_nil. rewrite length_app. lia. }
    destruct (New_uniform_wellFormed fixColnames _ _ Hu Hne') as (Hwf & Hnr & Hnc & Hel).
    eexists. split; [reflexivity|].
    split; [exact Hwf|]. split; [exact Hnr|].
    split; [rewrite Hnc; unfold len; rewrite length_app; lia|].
    split.
    + rewrite Hel, map_app. f_equal.
      * rewrite <- (map_map elements (map Copy)), (fills_elements _ _ _ _ Ha), map_map.
        apply map_ext_in. intros c Hc. apply list_elem_of_In in Hc.
        rewrite (Hwa c Hc). apply map_flat_map_replicate.
      * rewrite <- (map_map elements (map Copy)), (fills_elements _ _ _ _ Hb), map_map.
        apply map_ext_in. intros c Hc. apply list_elem_of_In in Hc.
        rewrite (Hwb c Hc), map_concat_replicate, map_map. reflexivity.
    + intros Hfix. rewrite (New_uniform_frame fixColnames _ _ Hu Hne').
      unfold Names at 1. cbn [columns].
      assert (Hnames : map Name (map Copy_series (ca ++ cb)%list)
                       = (Names df ++ Names b)%list).
      { transitivity (map Name (ca ++ cb)%list).
        - rewrite map_map. apply map_ext. reflexivity.
        - rewrite map_app, (fills_names _ _ _ _ Ha), (fills_names _ _ _ _ Hb).
          reflexivity. }
      rewrite Hnames. apply setNames_names.
      rewrite Hfix, length_map, !length_app. unfold Names.
      rewrite !length_map. lia.
  - intros Ha Hb. unfold CrossJoin, Columns, NCol.
    rewrite Hna, Hnb, Ha, Hb. simpl.
    change (len (@nil (GotaSeries E))) with 0. cbn.
    assert (Hin : forall js : list Z,
               rfoldl (fun (newCols : list (GotaSeries E)) (_ : Z) =>
                         Ret (appendRow missingElement newCols [])) [] js
               = Ret []).
    { induction js as [|j js IHj]; [reflexivity|]. cbn. exact IHj. }
    assert (Hout : forall is_ : list Z,
               rfoldl (fun (newCols : list (GotaSeries E)) (_ : Z) =>
                         rfoldl (fun (newCols0 : list (GotaSeries E)) (_ : Z) =>
                                   Ret (appendRow missingElement newCols0 []))
                                newCols (seqZ 0 (NRow b))) [] is_
               = Ret []).
    { induction is_ as [|i is_ IHi]; [reflexivity|].
      cbn [rfoldl]. rewrite Hin, bind_Ret. exact IHi. }
    rewrite Hout. reflexivity.
Qed.
End CrossJoinFacts.

Lemma CrossJoin_cartesian_product_witness :
  exists r,
    CrossJoin (fun names => names) (mkElementValue 0 true) tableA tableB = Ret r
    /\ spec.wellFormed r /\ NRow r = 9 /\ NCol r = 4
    /\ map (fun c => map value (elements c)) (columns r)
       = [[1; 1; 1; 2; 2; 2; 3; 3; 3]; [10; 10; 10; 20; 20; 20; 30; 30; 30];
          [2; 3; 4; 2; 3; 4; 2; 3; 4]; [7; 8; 9; 7; 8; 9; 7; 8; 9]]
    /\ Names r = ["id"; "x"; "id"; "y"].
Proof.
  destruct (CrossJoin_cartesian_product (fun names => names) (mkElementValue 0 true)
              tableA tableB) as [Hok _].
  - repeat split. repeat constructor.
  - repeat split. repeat constructor.
  - destruct Hok as (r & Hr & Hwf & Hnr & Hnc & Hel & Hnames);
      [simpl; lia|simpl; lia|discriminate|].
    exists r. split; [exact Hr|]. split; [exact Hwf|].
    split; [exact Hnr|]. split; [exact Hnc|]. split.
    + rewrite <- (map_map elements (map value)), Hel. reflexivity.
    + apply Hnames. reflexivity.
Defined.
